(** * pypodio2/encode.py: multipart/form-data encoding

    A shallow embedding of [src/pypodio2/encode.py] and the properties of
    its streaming encoder: header rendering, size accounting, boundary
    collision detection, the sequence assembler and its replay.

    Conventions of the embedding:
    - a Python [bytes] value is a list of byte values ([Z], 0..255);
    - a Python [str] is a list of Unicode code points ([Z]);
    - a raised exception is the [Raise] case of [result];
    - file-like objects live in a store ([gmap nat filelike]) and a
      parameter holds a reference (a key of the store), so that two
      parameters may share one object, as in Python;
    - a generator ([iter_encode]) is its resumable state, advanced by
      [gen_next]; the callbacks that run are recorded as events;
    - the dictionary of headers is a map from header names to text;
    - what comes from outside the module is an argument: the boundary
      [gen_boundary()] draws, the size [os.fstat] reports. *)

From Stdlib Require Import ZArith Lia String Ascii Sorted DecimalString.
From stdpp Require Import gmap list strings.

Local Open Scope Z_scope.

(** ** Bytes, text and exceptions *)

Abbreviation byte := Z (only parsing).
Abbreviation bytes := (list Z) (only parsing).
Abbreviation str := (list Z) (only parsing).

Inductive exn :=
| ValueError (msg : string)
| UnicodeEncodeError
| AttributeError
| IndexError
| RecursionError.

Inductive result (A : Type) :=
| Ok (a : A)
| Raise (e : exn).
Arguments Ok {A} a.
Arguments Raise {A} e.

#[global] Instance result_ret : MRet result := fun A a => Ok a.
#[global] Instance result_bind : MBind result := fun A B f m =>
  match m with
  | Ok a => f a
  | Raise e => Raise e
  end.

(** A literal of the source, as code points (equally: as ASCII bytes). *)
Definition lit (s : string) : list Z :=
  (fun a => Z.of_N (N_of_ascii a)) <$> list_ascii_of_string s.

Definition LF : byte := 10.
Definition CRLF : bytes := [13; 10].
Definition DQUOTE : Z := 34.

(** [str.encode("utf-8")]: strict, so a lone surrogate raises. *)
Definition utf8_char (c : Z) : result bytes :=
  if c <? 0 then Raise UnicodeEncodeError
  else if c <? 0x80 then Ok [c]
  else if c <? 0x800 then
    Ok [Z.lor 0xC0 (Z.shiftr c 6); Z.lor 0x80 (Z.land c 0x3F)]
  else if c <? 0x10000 then
    if (0xD800 <=? c) && (c <? 0xE000) then Raise UnicodeEncodeError
    else Ok [Z.lor 0xE0 (Z.shiftr c 12);
             Z.lor 0x80 (Z.land (Z.shiftr c 6) 0x3F);
             Z.lor 0x80 (Z.land c 0x3F)]
  else if c <? 0x110000 then
    Ok [Z.lor 0xF0 (Z.shiftr c 18);
        Z.lor 0x80 (Z.land (Z.shiftr c 12) 0x3F);
        Z.lor 0x80 (Z.land (Z.shiftr c 6) 0x3F);
        Z.lor 0x80 (Z.land c 0x3F)]
  else Raise UnicodeEncodeError.

Fixpoint encode_utf8 (s : str) : result bytes :=
  match s with
  | [] => Ok []
  | c :: s' =>
      b ← utf8_char c;
      r ← encode_utf8 s';
      Ok (b ++ r)
  end.

(** [str.encode("ascii")]: raises on any code point above 127. *)
Definition is_ascii (c : Z) : bool := (0 <=? c) && (c <? 128).

Definition encode_ascii (s : str) : result bytes :=
  if forallb is_ascii s then Ok s else Raise UnicodeEncodeError.

(** [sep.join(parts)] *)
Fixpoint join (sep : list Z) (parts : list (list Z)) : list Z :=
  match parts with
  | [] => []
  | [x] => x
  | x :: rest => x ++ sep ++ join sep rest
  end.

(** ** [urllib.parse.quote_plus] *)

Definition in_range (lo hi b : Z) : bool := (lo <=? b) && (b <=? hi).

(** Letters, digits and [_.-~] are never quoted. *)
Definition always_safe (b : byte) : bool :=
  in_range 65 90 b || in_range 97 122 b || in_range 48 57 b
  || (b =? 95) || (b =? 46) || (b =? 45) || (b =? 126).

Definition hex_digit (n : Z) : Z :=
  if n <? 10 then 48 + n else 55 + n.

Definition quote_byte (b : byte) : list Z :=
  if b =? 32 then [43]
  else if always_safe b then [b]
  else [37; hex_digit (b / 16); hex_digit (b mod 16)].

Definition quote_plus (s : str) : result str :=
  bs ← encode_utf8 s;
  Ok (bs ≫= quote_byte).

(** [encode_and_quote] on a [str] argument. *)
Definition encode_and_quote (data : str) : result str := quote_plus data.

(** ** [re.search(b"^" + re.escape(token) + b"$", data, re.M)]

    With [re.M], [^] matches at the start of the searched bytes and after
    every line feed, [$] at their end and before every line feed;
    [re.escape] makes the token match literally. *)

Fixpoint strip_prefix (token data : bytes) : option bytes :=
  match token, data with
  | [], _ => Some data
  | t :: token', d :: data' =>
      if t =? d then strip_prefix token' data' else None
  | _ :: _, [] => None
  end.

Definition at_eol (rest : bytes) : bool :=
  match rest with
  | [] => true
  | c :: _ => c =? LF
  end.

Definition match_here (token data : bytes) : bool :=
  match strip_prefix token data with
  | Some rest => at_eol rest
  | None => false
  end.

Fixpoint search_from (bol : bool) (token data : bytes) : bool :=
  (bol && match_here token data)
  || match data with
     | [] => false
     | c :: data' => search_from (c =? LF) token data'
     end.

Definition re_search_line (token data : bytes) : bool :=
  search_from true token data.

(** [data[-n:]] for [n > 0]: the last [n] bytes, or all of them. *)
Definition last_bytes (n : nat) (data : bytes) : bytes :=
  drop (length data - n)%nat data.

(** ** File-like objects *)

Record filelike := FileLike {
  content : bytes;
  position : nat;
}.

(** [f.read(size)]: up to [size] bytes from the current position, all
    the remaining ones when [size] is negative. *)
Definition read_block (size : Z) (f : filelike) : bytes * filelike :=
  let remaining := drop (position f) (content f) in
  let block := if size <? 0 then remaining
               else take (Z.to_nat size) remaining in
  (block, FileLike (content f) (position f + length block)%nat).

(** [f.seek(0)] *)
Definition seek0 (f : filelike) : filelike := FileLike (content f) 0%nat.

Close Scope Z_scope.

(** The objects parameters refer to. A reference outside the store, which
    Python cannot produce, behaves as an exhausted object. *)
Abbreviation store := (gmap nat filelike).

Definition file_read (size : Z) (f : nat) (st : store) : bytes * store :=
  match st !! f with
  | Some fo =>
      let '(block, fo') := read_block size fo in (block, <[f := fo']> st)
  | None => ([], st)
  end.

Definition file_seek0 (f : nat) (st : store) : store := alter seek0 f st.

(** What pulling a generator or an iterator once gives. *)
Inductive pulled :=
| Yield (block : bytes)
| StopIteration
| Raised (e : exn).

(** ** class MultipartParam *)

Module MultipartParam.

(** The attributes [__init__] stores; [cb] records whether a callback
    was given. *)
Record t := mk {
  name : str;
  value : option str;
  filename : option str;
  filetype : option str;
  filesize : option nat;
  fileobj : option nat;
  cb : bool;
}.

(** Truthiness of an optional text: [None] and the empty text are false. *)
Definition truthy (o : option str) : option str :=
  match o with
  | Some (c :: s) => Some (c :: s)
  | _ => None
  end.

Definition default_filetype : str := lit "text/plain; charset=utf-8".

Definition encode_hdr (self : t) (boundary : str) : result bytes :=
  boundary ← encode_and_quote boundary;
  let headers := [lit "--" ++ boundary] in
  let disposition :=
    match truthy (filename self) with
    | Some fn =>
        lit "form-data; name=" ++ [DQUOTE] ++ name self ++ [DQUOTE]
          ++ lit "; filename=" ++ [DQUOTE] ++ fn ++ [DQUOTE]
    | None =>
        lit "form-data; name=" ++ [DQUOTE] ++ name self ++ [DQUOTE]
    end in
  let headers := headers ++ [lit "Content-Disposition: " ++ disposition] in
  let headers :=
    headers ++ [lit "Content-Type: "
                  ++ default default_filetype (truthy (filetype self))] in
  let headers := headers ++ [[]] in
  let headers := headers ++ [[]] in
  encode_ascii (join CRLF headers).

Definition boundary_found_in_string : exn :=
  ValueError "boundary found in encoded string".
Definition boundary_found_in_file : exn :=
  ValueError "boundary found in file data".

Definition encode (self : t) (boundary : str) (st : store)
  : result bytes * store :=
  match value self with
  | None =>
      match fileobj self with
      | None => (Raise AttributeError, st)
      | Some f =>
          let '(value, st') := file_read (-1) f st in
          (hdr ← encode_hdr self boundary; Ok (hdr ++ value ++ CRLF), st')
      end
  | Some v =>
      (value ← encode_utf8 v;
       b ← encode_utf8 boundary;
       if re_search_line (lit "--" ++ b) value
       then Raise boundary_found_in_string
       else hdr ← encode_hdr self boundary; Ok (hdr ++ value ++ CRLF),
       st)
  end.

Definition get_size (self : t) (boundary : str) : result nat :=
  valuesize ←
    match filesize self with
    | Some n => Ok n
    | None =>
        match value self with
        | Some v => b ← encode_utf8 v; Ok (length b)
        | None => Raise AttributeError
        end
    end;
  hdr ← encode_hdr self boundary;
  Ok (length hdr + 2 + valuesize).

Definition cannot_reset : exn :=
  ValueError "Don't know how to reset this parameter".

(** [reset] on the objects of the store, which all seek;
    [MultipartParam_reset] below is [reset] on an object of any kind. *)
Definition reset (self : t) (st : store) : result unit * store :=
  match fileobj self with
  | Some f => (Ok (), file_seek0 f st)
  | None =>
      match value self with
      | None => (Raise cannot_reset, st)
      | Some _ => (Ok (), st)
      end
  end.

(** *** The generator [iter_encode]

    Its state between two pulls: not started, or suspended at one of
    its four [yield]s with the local variables alive there, or
    finished. The callback written after a [yield] runs when the
    generator is resumed. *)
Inductive gen_state :=
| GStart
| GInline (current total : nat)
| GHeader (current total : nat)
| GBody (last_block encoded_boundary : bytes) (current total : nat)
| GTail (current total : nat)
| GDone.

Record generator := Gen {
  g_self : t;
  g_boundary : str;
  g_blocksize : Z;
  g_state : gen_state;
}.

Definition iter_encode (self : t) (boundary : str) (blocksize : Z)
  : generator := Gen self boundary blocksize GStart.

Definition set_state (g : generator) (s : gen_state) : generator :=
  Gen (g_self g) (g_boundary g) (g_blocksize g) s.

(** [if self.cb: self.cb(self, current, total)] *)
Definition call_cb (self : t) (current total : nat) : list (nat * nat) :=
  if cb self then [(current, total)] else [].

(** One turn of the [while True] loop, up to its [yield]. *)
Definition read_step (g : generator) (last_block encoded_boundary : bytes)
    (current total : nat) (st : store) : pulled * generator * store :=
  match fileobj (g_self g) with
  | None => (Raised AttributeError, set_state g GDone, st)
  | Some f =>
      let '(block, st') := file_read (g_blocksize g) f st in
      match block with
      | [] => (Yield CRLF, set_state g (GTail (current + 2) total), st')
      | _ :: _ =>
          let last_block := last_block ++ block in
          if re_search_line encoded_boundary last_block
          then (Raised boundary_found_in_file, set_state g GDone, st')
          else
            let last_block :=
              last_bytes (length encoded_boundary + 2) last_block in
            (Yield block,
             set_state g (GBody last_block encoded_boundary
                            (current + length block) total),
             st')
      end
  end.

(** [next(gen)]: the callbacks run, what is pulled, the generator and
    the store afterwards. *)
Definition gen_next (g : generator) (st : store)
  : list (nat * nat) * pulled * generator * store :=
  let self := g_self g in
  let boundary := g_boundary g in
  let fail e := ([], Raised e, set_state g GDone, st) in
  match g_state g with
  | GStart =>
      match get_size self boundary with
      | Raise e => fail e
      | Ok total =>
          match value self with
          | Some _ =>
              match encode self boundary st with
              | (Raise e, st') => ([], Raised e, set_state g GDone, st')
              | (Ok block, st') =>
                  ([], Yield block,
                   set_state g (GInline (0 + length block) total), st')
              end
          | None =>
              match encode_hdr self boundary with
              | Raise e => fail e
              | Ok block =>
                  ([], Yield block,
                   set_state g (GHeader (0 + length block) total), st)
              end
          end
      end
  | GInline current total =>
      (call_cb self current total, StopIteration, set_state g GDone, st)
  | GHeader current total =>
      let calls := call_cb self current total in
      match (q ← encode_and_quote boundary; encode_ascii q) with
      | Raise e => (calls, Raised e, set_state g GDone, st)
      | Ok q =>
          let encoded_boundary := lit "--" ++ q in
          let '(r, g', st') :=
            read_step g [] encoded_boundary current total st in
          (calls, r, g', st')
      end
  | GBody last_block encoded_boundary current total =>
      let '(r, g', st') :=
        read_step g last_block encoded_boundary current total st in
      (call_cb self current total, r, g', st')
  | GTail current total =>
      (call_cb self current total, StopIteration, set_state g GDone, st)
  | GDone => ([], StopIteration, g, st)
  end.

(** [from_params] on a sequence of [MultipartParam] instances, which
    it returns as they are. *)
Definition from_params (params : list t) : list t := params.

End MultipartParam.

(** *** [reset] on any file object

    For a file object of any kind, [seek f st] is what the call
    [self.fileobj.seek(0)] does on the object [f]: it returns, with the
    store it leaves, or it raises. The docstring of [multipart_encode]
    admits objects with [read] and [fileno] and no [seek]; on them the
    call raises AttributeError. *)
Definition MultipartParam_reset (seek : nat → store → result unit * store)
    (self : MultipartParam.t) (st : store) : result unit * store :=
  match MultipartParam.fileobj self with
  | Some f => seek f st
  | None =>
      match MultipartParam.value self with
      | None => (Raise MultipartParam.cannot_reset, st)
      | Some _ => (Ok (), st)
      end
  end.

(** [seek(0)] of an object of the store. *)
Definition store_seek (f : nat) (st : store) : result unit * store :=
  (Ok (), file_seek0 f st).

(** [seek(0)] of an object that has no [seek]. *)
Definition no_seek (f : nat) (st : store) : result unit * store :=
  (Raise AttributeError, st).

(** ** [get_body_size] *)

Fixpoint sum_sizes (params : list MultipartParam.t) (boundary : str)
  : result nat :=
  match params with
  | [] => Ok 0
  | p :: rest =>
      n ← MultipartParam.get_size p boundary;
      m ← sum_sizes rest boundary;
      Ok (n + m)
  end.

Definition get_body_size (params : list MultipartParam.t) (boundary : str)
  : result nat :=
  size ← sum_sizes (MultipartParam.from_params params) boundary;
  Ok (size + length boundary + 6).

(** ** class MultipartYielder *)

(** A callback that ran: the one of a parameter, from [iter_encode], or
    the one given to the yielder. *)
Inductive event :=
| FieldCb (p : MultipartParam.t) (current total : nat)
| TopCb (p : option MultipartParam.t) (current total : nat).

Module MultipartYielder.

Record t := mk {
  params : list MultipartParam.t;
  boundary : str;
  cb : bool;
  i : option nat;
  p : option MultipartParam.t;
  param_iter : option MultipartParam.generator;
  current : nat;
  total : nat;
}.

Definition init (params : list MultipartParam.t) (boundary : str) (cb : bool)
  : result t :=
  total ← get_body_size params boundary;
  Ok (mk params boundary cb (Some 0) None None 0 total).

Definition set_iter (self : t) (p : option MultipartParam.t)
    (it : option MultipartParam.generator) : t :=
  mk (params self) (boundary self) (cb self) (i self) p it
     (current self) (total self).

Definition set_i (self : t) (i : option nat) : t :=
  mk (params self) (boundary self) (cb self) i (p self) (param_iter self)
     (current self) (total self).

Definition add_current (self : t) (n : nat) : t :=
  mk (params self) (boundary self) (cb self) (i self) (p self)
     (param_iter self) (current self + n) (total self).

(** [if self.cb: self.cb(self.p, self.current, self.total)] *)
Definition call_cb (self : t) : list event :=
  if cb self then [TopCb (p self) (current self) (total self)] else [].

Definition field_events (g : MultipartParam.generator)
    (calls : list (nat * nat)) : list event :=
  (fun c => FieldCb (MultipartParam.g_self g) c.1 c.2) <$> calls.

(** The default [blocksize] of [iter_encode]. *)
Definition default_blocksize : Z := 4096.

(** [__next__] from [if self.i is None] on; [again] is the call
    [self.__next__()] that ends it, and [evs] the callbacks run so far. *)
Definition advance (again : t → store → list event * pulled * t * store)
    (evs : list event) (self : t) (st : store)
  : list event * pulled * t * store :=
  match i self with
  | None => (evs, StopIteration, self, st)
  | Some n =>
      if decide (length (params self) ≤ n) then
        let self := set_i (set_iter self None None) None in
        match encode_ascii
                (lit "--" ++ boundary self ++ lit "--" ++ CRLF) with
        | Raise e => (evs, Raised e, self, st)
        | Ok block =>
            let self := add_current self (length block) in
            (evs ++ call_cb self, Yield block, self, st)
        end
      else
        match params self !! n with
        | None => (evs, Raised IndexError, self, st)
        | Some q =>
            let it := MultipartParam.iter_encode
                        q (boundary self) default_blocksize in
            let self := set_iter self (Some q) (Some it) in
            let self := set_i self (Some (n + 1)) in
            let '(evs', r, self, st) := again self st in
            (evs ++ evs', r, self, st)
        end
  end.

(** [__next__]; [depth] bounds the nesting of its call of itself. *)
Fixpoint next (depth : nat) (self : t) (st : store)
  : list event * pulled * t * store :=
  match depth with
  | 0 => ([], Raised RecursionError, self, st)
  | S depth =>
      match param_iter self with
      | Some it =>
          let '(calls, r, it', st') := MultipartParam.gen_next it st in
          let evs := field_events it calls in
          let self := set_iter self (p self) (Some it') in
          match r with
          | Yield block =>
              let self := add_current self (length block) in
              (evs ++ call_cb self, Yield block, self, st')
          | StopIteration =>
              advance (next depth) evs (set_iter self None None) st'
          | Raised e => (evs, Raised e, self, st')
          end
      | None => advance (next depth) [] self st
      end
  end.

(** [reset]: stops at the first parameter whose [reset] raises. *)
Fixpoint reset_params (params : list MultipartParam.t) (st : store)
  : result unit * store :=
  match params with
  | [] => (Ok (), st)
  | param :: rest =>
      match MultipartParam.reset param st with
      | (Ok _, st') => reset_params rest st'
      | (Raise e, st') => (Raise e, st')
      end
  end.

Definition reset (self : t) (st : store) : result unit * t * store :=
  let self := set_i self (Some 0) in
  let self := mk (params self) (boundary self) (cb self) (i self) (p self)
                 (param_iter self) 0 (total self) in
  let '(r, st') := reset_params (params self) st in
  (r, self, st').

End MultipartYielder.

(** ** Consuming the yielder, as joining its chunks does *)

Inductive ending :=
| Exhausted
| Failed (e : exn)
| OutOfFuel.

Record run := Run {
  events : list event;
  chunks : list bytes;
  outcome : ending;
  yielder : MultipartYielder.t;
  files : store;
}.

(** The nested call of [__next__] is entered at most once per pull. *)
Definition next_depth : nat := 2.

Fixpoint consume (fuel : nat) (y : MultipartYielder.t) (st : store) : run :=
  match fuel with
  | 0 => Run [] [] OutOfFuel y st
  | S fuel =>
      match MultipartYielder.next next_depth y st with
      | (evs, Yield block, y', st') =>
          let r := consume fuel y' st' in
          Run (evs ++ events r) (block :: chunks r) (outcome r)
              (yielder r) (files r)
      | (evs, StopIteration, y', st') => Run evs [] Exhausted y' st'
      | (evs, Raised e, y', st') => Run evs [] (Failed e) y' st'
      end
  end.

(** ** The fields of the specification

    A field is [Inline(text)], a text value and nothing else, or
    [Stream(source, known_size)], a byte source and its size. *)

Definition Inline (p : MultipartParam.t) (text : str) : Prop :=
  MultipartParam.value p = Some text
  ∧ MultipartParam.fileobj p = None
  ∧ MultipartParam.filesize p = None.

Definition Stream (p : MultipartParam.t) (source known_size : nat) : Prop :=
  MultipartParam.value p = None
  ∧ MultipartParam.fileobj p = Some source
  ∧ MultipartParam.filesize p = Some known_size.

(** The header block in the words of the specification: the boundary
    line, the disposition (with the file name when there is one), the
    content type or its default, each ended by CRLF, and a blank line. *)
Definition render_header_words (p : MultipartParam.t) (boundary : str)
  : list Z :=
  lit "--" ++ boundary ++ CRLF
  ++ lit "Content-Disposition: form-data; name="
  ++ [DQUOTE] ++ MultipartParam.name p ++ [DQUOTE]
  ++ match MultipartParam.filename p with
     | Some fn => lit "; filename=" ++ [DQUOTE] ++ fn ++ [DQUOTE]
     | None => []
     end
  ++ CRLF
  ++ lit "Content-Type: "
  ++ default MultipartParam.default_filetype (MultipartParam.filetype p)
  ++ CRLF ++ CRLF.

(** An empty file name or content type is falsy in the source. *)
Definition drop_empty (p : MultipartParam.t) : MultipartParam.t :=
  MultipartParam.mk
    (MultipartParam.name p) (MultipartParam.value p)
    (MultipartParam.truthy (MultipartParam.filename p))
    (MultipartParam.truthy (MultipartParam.filetype p))
    (MultipartParam.filesize p) (MultipartParam.fileobj p)
    (MultipartParam.cb p).

(** [data] has a line equal to [token], for the lines of [re.M], which
    line feeds delimit: the token starts the data or follows a line
    feed, and ends the data or is followed by one. A line that CR LF
    ends is, for [re.M], a line that ends in CR. *)
Definition line_start (pre : list Z) : Prop :=
  pre = [] ∨ ∃ pre', pre = pre' ++ [LF].

Definition line_end (post : list Z) : Prop :=
  post = [] ∨ ∃ post', post = LF :: post'.

Definition line_of (token data : list Z) : Prop :=
  ∃ pre post, data = pre ++ token ++ post ∧ line_start pre ∧ line_end post.

(** [data] has a line equal to [token], for the lines of the encoding,
    which CR LF ends. *)
Definition crlf_line_of (token data : list Z) : Prop :=
  ∃ pre post,
    data = pre ++ token ++ post
    ∧ (pre = [] ∨ ∃ pre', pre = pre' ++ CRLF)
    ∧ (post = [] ∨ ∃ post', post = CRLF ++ post').

(** Pulling a generator: [n] blocks in a row, or until it ends. *)
Fixpoint gen_pulls (n : nat) (g : MultipartParam.generator) (st : store)
  : option (list bytes * MultipartParam.generator * store) :=
  match n with
  | 0 => Some ([], g, st)
  | S n =>
      match MultipartParam.gen_next g st with
      | (_, Yield block, g', st') =>
          match gen_pulls n g' st' with
          | Some (blocks, g'', st'') => Some (block :: blocks, g'', st'')
          | None => None
          end
      | _ => None
      end
  end.

Record gen_run := GenRun {
  g_calls : list (nat * nat);
  g_chunks : list bytes;
  g_outcome : ending;
  g_files : store;
}.

Fixpoint gen_consume (fuel : nat) (g : MultipartParam.generator) (st : store)
  : gen_run :=
  match fuel with
  | 0 => GenRun [] [] OutOfFuel st
  | S fuel =>
      match MultipartParam.gen_next g st with
      | (calls, Yield block, g', st') =>
          let r := gen_consume fuel g' st' in
          GenRun (calls ++ g_calls r) (block :: g_chunks r) (g_outcome r)
                 (g_files r)
      | (calls, StopIteration, _, st') => GenRun calls [] Exhausted st'
      | (calls, Raised e, _, st') => GenRun calls [] (Failed e) st'
      end
  end.

(** The generator is about to read: suspended after the header, with
    nothing seen yet, or after a block of the body. *)
Definition reading (g : MultipartParam.generator) (last_block eb : bytes)
    (current total : nat) : Prop :=
  MultipartParam.g_state g
  = MultipartParam.GBody last_block eb current total
  ∨ (MultipartParam.g_state g = MultipartParam.GHeader current total
     ∧ last_block = []
     ∧ ∃ q, quote_plus (MultipartParam.g_boundary g) = Ok q
            ∧ encode_ascii q = Ok q
            ∧ eb = lit "--" ++ q).

(** ** Valid field lists

    A valid field is Inline, or Stream with its source in the store,
    positioned at its start, and its known size the length of the
    source. In a valid list no two fields share a source. *)
Definition valid_field (st : store) (p : MultipartParam.t) : Prop :=
  (∃ text, Inline p text)
  ∨ (∃ source fo,
       Stream p source (length (content fo))
       ∧ st !! source = Some fo
       ∧ position fo = 0).

Definition sources (params : list MultipartParam.t) : list nat :=
  omap MultipartParam.fileobj params.

Definition valid_params (st : store) (params : list MultipartParam.t)
  : Prop :=
  Forall (valid_field st) params ∧ NoDup (sources params).

(** What a suspended generator still has to yield, [rem] bytes, and how
    its counters stand. *)
Definition gen_inv (g : MultipartParam.generator) (st : store) (rem : nat)
  : Prop :=
  let streaming current total :=
    ∃ f fo,
      MultipartParam.fileobj (MultipartParam.g_self g) = Some f
      ∧ st !! f = Some fo
      ∧ rem = length (drop (position fo) (content fo)) + 2
      ∧ current + rem = total in
  match MultipartParam.g_state g with
  | MultipartParam.GStart =>
      valid_field st (MultipartParam.g_self g)
      ∧ MultipartParam.get_size (MultipartParam.g_self g)
          (MultipartParam.g_boundary g) = Ok rem
  | MultipartParam.GInline current total => rem = 0 ∧ current = total
  | MultipartParam.GHeader current total => streaming current total
  | MultipartParam.GBody _ _ current total => streaming current total
  | MultipartParam.GTail current total => rem = 0 ∧ current = total
  | MultipartParam.GDone => rem = 0
  end.

(** The counters of a suspended generator. *)
Definition gen_counters (g : MultipartParam.generator) : option (nat * nat) :=
  match MultipartParam.g_state g with
  | MultipartParam.GInline c t | MultipartParam.GHeader c t
  | MultipartParam.GBody _ _ c t | MultipartParam.GTail c t => Some (c, t)
  | _ => None
  end.

(** The fields the yielder has not started yet. *)
Definition pending (y : MultipartYielder.t) : list MultipartParam.t :=
  match MultipartYielder.i y with
  | Some n => drop n (MultipartYielder.params y)
  | None => []
  end.

(** Between two pulls of a yielder over a valid list: what is still to
    come adds up, with what was counted, to the total. *)
Definition yielder_inv (y : MultipartYielder.t) (st : store) : Prop :=
  ∃ rem sizes,
    match MultipartYielder.param_iter y with
    | Some g =>
        gen_inv g st rem
        ∧ MultipartParam.g_blocksize g ≠ 0%Z
        ∧ MultipartParam.g_boundary g = MultipartYielder.boundary y
        ∧ ∀ f, MultipartParam.fileobj (MultipartParam.g_self g) = Some f →
               f ∉ sources (pending y)
    | None => rem = 0
    end
    ∧ Forall2 (fun p n =>
                 MultipartParam.get_size p (MultipartYielder.boundary y)
                 = Ok n) (pending y) sizes
    ∧ valid_params st (pending y)
    ∧ match MultipartYielder.i y with
      | Some n =>
          n ≤ length (MultipartYielder.params y)
          ∧ MultipartYielder.current y + rem + sum_list sizes
            + length (MultipartYielder.boundary y) + 6
            = MultipartYielder.total y
      | None =>
          MultipartYielder.param_iter y = None
          ∧ MultipartYielder.current y = MultipartYielder.total y
      end.

(** The progress reported to the callback of the yielder. *)
Definition top_calls (evs : list event) : list (nat * nat) :=
  omap (fun e => match e with
                 | TopCb _ c t => Some (c, t)
                 | FieldCb _ _ _ => None
                 end) evs.

(** What one pull of the yielder does to a state [y]. *)
Definition step_ok (y : MultipartYielder.t)
    (res : list event * pulled * MultipartYielder.t * store) : Prop :=
  let '(evs, r, y', st') := res in
  MultipartYielder.params y' = MultipartYielder.params y
  ∧ MultipartYielder.boundary y' = MultipartYielder.boundary y
  ∧ MultipartYielder.cb y' = MultipartYielder.cb y
  ∧ MultipartYielder.total y' = MultipartYielder.total y
  ∧ match r with
    | Yield block =>
        block ≠ []
        ∧ yielder_inv y' st'
        ∧ MultipartYielder.current y'
          = MultipartYielder.current y + length block
        ∧ top_calls evs
          = (if MultipartYielder.cb y
             then [(MultipartYielder.current y', MultipartYielder.total y)]
             else [])
        ∧ (MultipartYielder.i y' = None →
           block = lit "--" ++ MultipartYielder.boundary y ++ lit "--"
                   ++ CRLF)
    | StopIteration => MultipartYielder.i y = None ∧ top_calls evs = []
    | Raised _ => True
    end.

(** The yielder is well formed: without a generator it holds no
    field, and its generator encodes one of its fields. *)
Definition wf_yielder (y : MultipartYielder.t) : Prop :=
  (MultipartYielder.param_iter y = None → MultipartYielder.p y = None)
  ∧ ∀ g, MultipartYielder.param_iter y = Some g →
         MultipartParam.g_self g ∈ MultipartYielder.params y.

(** Between [st] and [st'] no content changed, and nothing at all
    outside the sources [srcs]. *)
Definition same_files (srcs : list nat) (st st' : store) : Prop :=
  ∀ f, content <$> st' !! f = content <$> st !! f
       ∧ (f ∉ srcs → st' !! f = st !! f).

(** What [__next__] keeps, for any depth of nesting. *)
Definition next_keeps (y : MultipartYielder.t) (st : store)
    (res : list event * pulled * MultipartYielder.t * store) : Prop :=
  let '(evs, r, y', st') := res in
  wf_yielder y'
  ∧ MultipartYielder.params y' = MultipartYielder.params y
  ∧ MultipartYielder.boundary y' = MultipartYielder.boundary y
  ∧ MultipartYielder.cb y' = MultipartYielder.cb y
  ∧ MultipartYielder.total y' = MultipartYielder.total y
  ∧ same_files (sources (MultipartYielder.params y)) st st'
  ∧ (r = StopIteration →
     MultipartYielder.i y' = None
     ∧ MultipartYielder.param_iter y' = None
     ∧ MultipartYielder.p y' = None).

(** ** Bodies without the marker

    A text field is free of collisions when no line of its encoded text
    is [--boundary]; a streamed one, for simplicity, when the marker of
    its check occurs nowhere in its source. *)
Definition no_marker (marker data : bytes) : Prop :=
  ∀ pre post, data ≠ pre ++ marker ++ post.

Definition collision_free (st : store) (boundary : str)
    (p : MultipartParam.t) : Prop :=
  match MultipartParam.value p with
  | Some text =>
      ∀ v b, encode_utf8 text = Ok v → encode_utf8 boundary = Ok b →
             ¬ line_of (lit "--" ++ b) v
  | None =>
      ∀ f fo q, MultipartParam.fileobj p = Some f → st !! f = Some fo →
                quote_plus boundary = Ok q →
                no_marker (lit "--" ++ q) (content fo)
  end.

Definition gen_clean (g : MultipartParam.generator) (st : store) : Prop :=
  match MultipartParam.g_state g with
  | MultipartParam.GStart =>
      collision_free st (MultipartParam.g_boundary g) (MultipartParam.g_self g)
  | MultipartParam.GHeader _ _ =>
      (∃ q, quote_plus (MultipartParam.g_boundary g) = Ok q
            ∧ encode_ascii q = Ok q)
      ∧ ∀ f fo q,
          MultipartParam.fileobj (MultipartParam.g_self g) = Some f →
          st !! f = Some fo →
          quote_plus (MultipartParam.g_boundary g) = Ok q →
          no_marker (lit "--" ++ q) (content fo)
  | MultipartParam.GBody lb eb _ _ =>
      ∀ f fo,
        MultipartParam.fileobj (MultipartParam.g_self g) = Some f →
        st !! f = Some fo →
        no_marker eb (content fo)
        ∧ ∃ before, take (position fo) (content fo) = before ++ lb
  | _ => True
  end.

Definition yielder_clean (y : MultipartYielder.t) (st : store) : Prop :=
  encode_ascii (MultipartYielder.boundary y) = Ok (MultipartYielder.boundary y)
  ∧ Forall (collision_free st (MultipartYielder.boundary y)) (pending y)
  ∧ match MultipartYielder.param_iter y with
    | Some g => gen_clean g st
    | None => True
    end.

Definition step_clean
    (res : list event * pulled * MultipartYielder.t * store) : Prop :=
  let '(evs, r, y', st') := res in
  match r with
  | Yield _ => yielder_clean y' st'
  | StopIteration => True
  | Raised _ => False
  end.

(** ** Encoding at once

    The fields encoded one after the other by [encode], each reading
    its source to the end, as [b.join(p.encode(boundary) for p in
    params)] does. *)
Fixpoint encode_all (params : list MultipartParam.t) (boundary : str)
    (st : store) : result bytes * store :=
  match params with
  | [] => (Ok [], st)
  | p :: rest =>
      match MultipartParam.encode p boundary st with
      | (Ok block, st') =>
          let '(r, st'') := encode_all rest boundary st' in
          (body ← r; Ok (block ++ body), st'')
      | (Raise e, st') => (Raise e, st')
      end
  end.

(** What a suspended generator has left to yield when nothing fails,
    and the store it leaves. *)
Definition gen_rest (g : MultipartParam.generator) (st : store)
  : option (bytes * store) :=
  let to_end :=
    match MultipartParam.fileobj (MultipartParam.g_self g) with
    | Some f => let '(data, st') := file_read (-1) f st in
                Some (data ++ CRLF, st')
    | None => None
    end in
  match MultipartParam.g_state g with
  | MultipartParam.GStart =>
      match MultipartParam.encode (MultipartParam.g_self g)
              (MultipartParam.g_boundary g) st with
      | (Ok block, st') => Some (block, st')
      | (Raise _, _) => None
      end
  | MultipartParam.GHeader _ _ => to_end
  | MultipartParam.GBody _ _ _ _ => to_end
  | _ => Some ([], st)
  end.

(** What a yielder has left to yield when nothing fails: the rest of
    the field under way, the fields not started, the closing line. *)
Definition yielder_rest (y : MultipartYielder.t) (st : store)
  : option (bytes * store) :=
  match (match MultipartYielder.param_iter y with
         | Some g => gen_rest g st
         | None => Some ([], st)
         end) with
  | None => None
  | Some (head, st1) =>
      match encode_all (pending y) (MultipartYielder.boundary y) st1 with
      | (Raise _, _) => None
      | (Ok body, st2) =>
          match MultipartYielder.i y with
          | None => Some (head ++ body, st2)
          | Some _ =>
              match encode_ascii (lit "--" ++ MultipartYielder.boundary y
                                  ++ lit "--" ++ CRLF) with
              | Ok closing => Some (head ++ body ++ closing, st2)
              | Raise _ => None
              end
          end
      end
  end.

(** The generator of a yielder reads by blocks and uses its boundary. *)
Definition gen_bound (y : MultipartYielder.t) : Prop :=
  ∀ g, MultipartYielder.param_iter y = Some g →
       MultipartParam.g_blocksize g ≠ 0%Z
       ∧ MultipartParam.g_boundary g = MultipartYielder.boundary y.

(** The sums of the lengths, one after the other, from [c] on. *)
Fixpoint running (c : nat) (lengths : list nat) : list nat :=
  match lengths with
  | [] => []
  | l :: lengths => (c + l) :: running (c + l) lengths
  end.

(** The source of a generator does not hold the marker, and what the
    generator kept of it ends what was read. *)
Definition gen_quiet (g : MultipartParam.generator) (st : store) : Prop :=
  ∀ f fo,
    MultipartParam.fileobj (MultipartParam.g_self g) = Some f →
    st !! f = Some fo →
    match MultipartParam.g_state g with
    | MultipartParam.GStart | MultipartParam.GHeader _ _ =>
        ∀ q, quote_plus (MultipartParam.g_boundary g) = Ok q →
             no_marker (lit "--" ++ q) (content fo)
    | MultipartParam.GBody lb eb _ _ =>
        no_marker eb (content fo)
        ∧ ∃ before, take (position fo) (content fo) = before ++ lb
    | _ => True
    end.

(** A pull of the yielder takes its block off what is left. *)
Definition rest_step (y : MultipartYielder.t) (st : store)
    (res : list event * pulled * MultipartYielder.t * store) : Prop :=
  let '(evs, r, y', st') := res in
  match r with
  | Yield block =>
      gen_bound y'
      ∧ ∀ out fin, yielder_rest y' st' = Some (out, fin) →
                   yielder_rest y st = Some (block ++ out, fin)
  | StopIteration => yielder_rest y st = Some ([], st')
  | Raised _ => True
  end.

(** ** [get_headers] and [multipart_encode] *)

(** [str(n)] of a non-negative integer: its decimal digits. *)
Definition str_of_nat (n : nat) : str :=
  lit (NilZero.string_of_uint (Nat.to_uint n)).

(** The dictionary [get_headers] returns, by header name. *)
Definition get_headers (params : list MultipartParam.t) (boundary : str)
  : result (gmap string str) :=
  let headers : gmap string str := ∅ in
  boundary ← quote_plus boundary;
  let headers :=
    <["Content-Type" := lit "multipart/form-data; boundary=" ++ boundary]>
      headers in
  size ← get_body_size params boundary;
  let headers := <["Content-Length" := str_of_nat size]> headers in
  Ok headers.

(** [multipart_encode] on a sequence of [MultipartParam] instances;
    [gen_boundary] is the text the call [gen_boundary()] returns, the
    hexadecimal digits of a random UUID. *)
Definition multipart_encode (gen_boundary : str)
    (params : list MultipartParam.t) (boundary : option str) (cb : bool)
  : result (MultipartYielder.t * gmap string str) :=
  boundary ← match boundary with
             | None => Ok gen_boundary
             | Some boundary => quote_plus boundary
             end;
  headers ← get_headers params boundary;
  let params := MultipartParam.from_params params in
  y ← MultipartYielder.init params boundary cb;
  Ok (y, headers).

(** ** The constructor of [MultipartParam] *)

(** [str(Header(name, "utf-8"))] on a [str]: [Header] checks that the
    text encodes and [str] gives it back. *)
Definition header_text (name : str) : result str :=
  _ ← encode_utf8 name; Ok name.

(** [s.encode("ascii", "xmlcharrefreplace").decode("ascii")]: a code
    point above 127 becomes its decimal character reference. *)
Definition xmlcharref (c : Z) : str :=
  if is_ascii c then [c]
  else lit "&#" ++ str_of_nat (Z.to_nat c) ++ lit ";".

Definition xmlcharrefreplace (s : str) : str := s ≫= xmlcharref.

(** [s.encode("unicode_escape").decode("ascii")]: the backslash is
    doubled, tab, line feed and carriage return get their letter, the
    other control characters and the code points from 127 on their
    hexadecimal escape, in lower case. *)
Definition lower_hex (n : Z) : Z :=
  (if n <? 10 then 48 + n else 87 + n)%Z.

(** The last [k] hexadecimal digits of [c]. *)
Fixpoint hex_digits (k : nat) (c : Z) : str :=
  match k with
  | 0 => []
  | S k => hex_digits k (c / 16) ++ [lower_hex (c mod 16)]
  end.

Definition unicode_escape_char (c : Z) : str :=
  (if c =? 92 then [92; 92]
   else if c =? 9 then [92; 116]
   else if c =? 10 then [92; 110]
   else if c =? 13 then [92; 114]
   else if (c <? 32) || ((127 <=? c) && (c <? 256)) then
     [92; 120] ++ hex_digits 2 c
   else if c <? 127 then [c]
   else if c <? 65536 then [92; 117] ++ hex_digits 4 c
   else [92; 85] ++ hex_digits 8 c)%Z.

Definition unicode_escape (s : str) : str := s ≫= unicode_escape_char.

(** [s.replace(old, new)] for a single character [old]. *)
Definition replace_char (old : Z) (new : str) (s : str) : str :=
  s ≫= (fun c => if (c =? old)%Z then new else [c]).

(** The file name as [__init__] stores it. *)
Definition escape_filename (filename : str) : str :=
  let xml_safe := xmlcharrefreplace filename in
  replace_char DQUOTE [92%Z; DQUOTE] (unicode_escape xml_safe).

Definition only_one_of_value_or_fileobj : exn :=
  ValueError "Only one of value or fileobj may be specified".

Section constructor.

(** [os.fstat(fileobj.fileno()).st_size]: the size the operating system
    reports for the descriptor of an object, [None] when the object has
    no descriptor or the call fails with one of the errors caught. *)
Variable fstat_size : nat → option nat.

(** [MultipartParam.__init__] on text arguments. Every object of the
    store can seek, so the probe by [seek] and [tell] does not fail. *)
Definition MultipartParam_init (name : str) (value filename filetype : option str)
    (filesize fileobj : option nat) (cb : bool) (st : store)
  : result MultipartParam.t * store :=
  match header_text name with
  | Raise e => (Raise e, st)
  | Ok name =>
      let filename := escape_filename <$> filename in
      match value, fileobj with
      | Some _, Some _ => (Raise only_one_of_value_or_fileobj, st)
      | _, _ =>
          match fileobj, filesize with
          | Some f, None =>
              match fstat_size f with
              | Some size =>
                  (Ok (MultipartParam.mk name value filename filetype
                         (Some size) fileobj cb), st)
              | None =>
                  let size :=
                    from_option (fun fo => length (content fo)) 0 (st !! f) in
                  (Ok (MultipartParam.mk name value filename filetype
                         (Some size) fileobj cb),
                   file_seek0 f st)
              end
          | _, _ =>
              (Ok (MultipartParam.mk name value filename filetype
                     filesize fileobj cb), st)
          end
      end
  end.

(** [encode_string] and [encode_file_header]: the defaults of the
    constructor are written out. *)
Definition encode_string (boundary name value : str) (st : store)
  : result bytes * store :=
  match MultipartParam_init name (Some value) None
          (Some MultipartParam.default_filetype) None None false st with
  | (Ok p, st') => MultipartParam.encode p boundary st'
  | (Raise e, st') => (Raise e, st')
  end.

Definition encode_file_header (boundary paramname : str) (filesize : nat)
    (filename filetype : option str) (st : store) : result bytes * store :=
  match MultipartParam_init paramname None filename filetype
          (Some filesize) None false st with
  | (Ok p, st') => (MultipartParam.encode_hdr p boundary, st')
  | (Raise e, st') => (Raise e, st')
  end.

End constructor.

(** The text between the quotes of a header parameter is well formed:
    printable ASCII, where a backslash takes the next character with it
    and no quote stands alone. *)
Definition printable (c : Z) : bool := ((32 <=? c) && (c <? 127))%Z.

Fixpoint quoted_ok (s : str) : bool :=
  match s with
  | [] => true
  | c :: s' =>
      if (c =? 92)%Z then
        match s' with
        | [] => false
        | d :: s'' => printable d && quoted_ok s''
        end
      else printable c && negb (c =? DQUOTE)%Z && quoted_ok s'
  end.

(** Concrete data used by the examples. *)
Module Ex.

Definition text_field : MultipartParam.t :=
  MultipartParam.mk (lit "key") (Some (lit "value1")) None
    (Some MultipartParam.default_filetype) None None true.

Definition file_field : MultipartParam.t :=
  MultipartParam.mk (lit "upload") None (Some (lit "a.txt")) None
    (Some 9) (Some 0) true.

Definition disk : store := {[ 0 := FileLike (lit "abcdefghi") 0 ]}.

End Ex.

(** * Properties *)

(** ** Results and text *)

Lemma bind_Ok {A B} (m : result A) (f : A → result B) (b : B) :
  m ≫= f = Ok b ↔ ∃ a, m = Ok a ∧ f a = Ok b.
Proof.
  destruct m as [a|e]; simpl; split.
  - eauto.
  - intros (a' & [= ->] & H); done.
  - done.
  - intros (a' & [=] & _).
Qed.

Lemma encode_ascii_Ok s b :
  encode_ascii s = Ok b → b = s ∧ Forall (fun c => (0 ≤ c < 128)%Z) b.
Proof.
  unfold encode_ascii. destruct (forallb is_ascii s) eqn:E; [|done].
  intros [= <-]. split; [done|].
  apply Forall_forall. intros c Hc.
  rewrite forallb_forall in E. apply list_elem_of_In in Hc.
  specialize (E c Hc). unfold is_ascii in E. lia.
Qed.

Lemma join_headers (a b c : list Z) :
  join CRLF [a; b; c; []; []] = a ++ CRLF ++ b ++ CRLF ++ c ++ CRLF ++ CRLF.
Proof. reflexivity. Qed.

Lemma encode_hdr_eq p boundary :
  MultipartParam.encode_hdr p boundary
  = (q ← quote_plus boundary;
     encode_ascii (render_header_words (drop_empty p) q)).
Proof.
  unfold MultipartParam.encode_hdr, encode_and_quote.
  destruct (quote_plus boundary) as [q|e]; [|done].
  cbn [mbind result_bind app]. f_equal.
  rewrite join_headers. unfold render_header_words, drop_empty.
  cbn [MultipartParam.name MultipartParam.filename MultipartParam.filetype].
  destruct (MultipartParam.truthy (MultipartParam.filename p));
    destruct (MultipartParam.truthy (MultipartParam.filetype p));
    cbn [default from_option id];
    repeat (rewrite <- ?app_assoc, <- ?app_comm_cons); reflexivity.
Qed.

Lemma utf8_char_ascii c : (0 ≤ c < 128)%Z → utf8_char c = Ok [c].
Proof.
  intros H. unfold utf8_char.
  destruct (Z.ltb_spec c 0); [lia|].
  destruct (Z.ltb_spec c 0x80); [done|lia].
Qed.

Lemma always_safe_ascii c : always_safe c = true → (0 ≤ c < 128)%Z ∧ c ≠ 32%Z.
Proof. unfold always_safe, in_range. lia. Qed.

Lemma encode_utf8_ascii s :
  Forall (fun c => (0 ≤ c < 128)%Z) s → encode_utf8 s = Ok s.
Proof.
  induction 1 as [|c s Hc _ IH]; [done|].
  simpl. rewrite utf8_char_ascii by done. simpl. by rewrite IH.
Qed.

Lemma quote_plus_safe s :
  forallb always_safe s = true → quote_plus s = Ok s.
Proof.
  intros H. unfold quote_plus.
  rewrite encode_utf8_ascii.
  - simpl. f_equal. induction s as [|c s IH]; [done|].
    simpl in H. apply andb_prop in H as [Hc Hs].
    change ((c :: s) ≫= quote_byte) with (quote_byte c ++ (s ≫= quote_byte)).
    rewrite IH by done. unfold quote_byte. rewrite Hc.
    destruct (always_safe_ascii c Hc) as [_ Hne].
    destruct (Z.eqb_spec c 32); [done|]. reflexivity.
  - apply Forall_forall. intros c Hc. rewrite forallb_forall in H.
    apply list_elem_of_In in Hc. by apply always_safe_ascii, H.
Qed.

(** ** The size calculator *)

Lemma sum_sizes_Forall2 params boundary sizes :
  Forall2 (fun p n => MultipartParam.get_size p boundary = Ok n) params sizes →
  sum_sizes params boundary = Ok (sum_list sizes).
Proof.
  induction 1 as [|p n params sizes Hp _ IH]; [done|].
  simpl. rewrite Hp. simpl. rewrite IH. reflexivity.
Qed.

(** C2. [get_size] is the header length, plus two, plus the known size
    of a Stream field or the UTF-8 length of the text of an Inline
    field; [get_body_size] is the sum of the sizes of the fields plus
    [len(boundary) + 6]. The source selects on [filesize]: whenever a
    size is set, it is the size used. *)
Theorem get_size_formula (p : MultipartParam.t) (boundary : str)
    (hdr : bytes) (params : list MultipartParam.t) (sizes : list nat) :
  MultipartParam.encode_hdr p boundary = Ok hdr →
  Forall2 (fun q n => MultipartParam.get_size q boundary = Ok n)
          params sizes →
  (∀ source known_size, Stream p source known_size →
     MultipartParam.get_size p boundary
     = Ok (length hdr + 2 + known_size))
  ∧ (∀ text b, Inline p text → encode_utf8 text = Ok b →
       MultipartParam.get_size p boundary = Ok (length hdr + 2 + length b))
  ∧ (∀ size, MultipartParam.filesize p = Some size →
       MultipartParam.get_size p boundary = Ok (length hdr + 2 + size))
  ∧ get_body_size params boundary
    = Ok (sum_list sizes + length boundary + 6).
Proof.
  intros Hh Hs.
  assert (Hsize : ∀ size, MultipartParam.filesize p = Some size →
            MultipartParam.get_size p boundary = Ok (length hdr + 2 + size)).
  { intros n Hn. unfold MultipartParam.get_size. rewrite Hn. simpl.
    by rewrite Hh. }
  split; [|split; [|split]].
  - intros source n (_ & _ & Hn). by apply Hsize.
  - intros text b (Hv & _ & Hn) Hb.
    unfold MultipartParam.get_size. rewrite Hn, Hv, Hb. simpl.
    by rewrite Hh.
  - exact Hsize.
  - unfold get_body_size, MultipartParam.from_params.
    by rewrite (sum_sizes_Forall2 _ _ _ Hs).
Qed.

Lemma get_size_formula_witness :
  MultipartParam.encode_hdr Ex.file_field (lit "XYZ")
  = Ok (render_header_words Ex.file_field (lit "XYZ"))
  ∧ Stream Ex.file_field 0 9
  ∧ MultipartParam.get_size Ex.file_field (lit "XYZ")
    = Ok (length (render_header_words Ex.file_field (lit "XYZ")) + 2 + 9)
  ∧ get_body_size [Ex.file_field] (lit "XYZ") = Ok (126 + 3 + 6).
Proof.
  assert (Hh : MultipartParam.encode_hdr Ex.file_field (lit "XYZ")
               = Ok (render_header_words Ex.file_field (lit "XYZ")))
    by (vm_compute; reflexivity).
  assert (Hs : Forall2
                 (fun q n => MultipartParam.get_size q (lit "XYZ") = Ok n)
                 [Ex.file_field] [126])
    by (constructor; [vm_compute; reflexivity | constructor]).
  assert (HS : Stream Ex.file_field 0 9) by (repeat split).
  destruct (get_size_formula Ex.file_field (lit "XYZ") _ _ _ Hh Hs)
    as (H1 & _ & _ & H3).
  split; [exact Hh|]. split; [exact HS|]. split; [exact (H1 0 9 HS)|].
  exact H3.
Defined.

(** ** The header formatter *)

(** C3, as stated, fails: the boundary line carries the boundary quoted
    once more by [quote_plus], so a boundary with [+] is not rendered as
    it is. *)
Lemma render_header_boundary_counterexample :
  MultipartParam.encode_hdr Ex.text_field (lit "a+b")
  = Ok (render_header_words Ex.text_field (lit "a%2Bb"))
  ∧ MultipartParam.encode_hdr Ex.text_field (lit "a+b")
    ≠ Ok (render_header_words Ex.text_field (lit "a+b")).
Proof. split; vm_compute; [reflexivity | discriminate]. Qed.

(** C3, amended. [encode_hdr] renders, joined by CRLF and ended by a
    blank line, the line [--] followed by [quote_plus(boundary)], the
    disposition (with the file name when it is present and not empty)
    and the content type (the default when it is absent or empty), as
    ASCII, and raises when they are not ASCII; the quoted boundary is
    the boundary itself when it has only unreserved characters; what is
    returned is ASCII and depends on the field and the boundary alone. *)
Theorem render_header_quoted (p : MultipartParam.t) (boundary : str) :
  MultipartParam.encode_hdr p boundary
  = (q ← quote_plus boundary;
     encode_ascii (render_header_words (drop_empty p) q))
  ∧ (forallb always_safe boundary = true →
     MultipartParam.encode_hdr p boundary
     = encode_ascii (render_header_words (drop_empty p) boundary))
  ∧ (∀ hdr, MultipartParam.encode_hdr p boundary = Ok hdr →
       Forall (fun b => (0 ≤ b < 128)%Z) hdr).
Proof.
  split; [apply encode_hdr_eq|]. split.
  - intros Hs. rewrite encode_hdr_eq, (quote_plus_safe _ Hs). reflexivity.
  - intros hdr. rewrite encode_hdr_eq. intros H.
    apply bind_Ok in H as (q & _ & H). by apply encode_ascii_Ok in H as [_ H].
Qed.

Lemma render_header_quoted_witness :
  forallb always_safe (lit "XYZ") = true
  ∧ MultipartParam.encode_hdr Ex.file_field (lit "XYZ")
    = encode_ascii (render_header_words (drop_empty Ex.file_field) (lit "XYZ"))
  ∧ Forall (fun b => (0 ≤ b < 128)%Z)
           (render_header_words Ex.file_field (lit "XYZ")).
Proof.
  destruct (render_header_quoted Ex.file_field (lit "XYZ")) as (_ & H2 & H3).
  split; [reflexivity|]. split; [apply H2; reflexivity|].
  apply H3. vm_compute. reflexivity.
Defined.

(** ** Resetting a field *)

(** C10, as stated, fails: [reset] raises for a field that has a byte
    source, when that source has no [seek]. *)
Lemma reset_only_when_counterexample :
  MultipartParam.value Ex.file_field = None
  ∧ MultipartParam.fileobj Ex.file_field = Some 0
  ∧ MultipartParam_reset no_seek Ex.file_field Ex.disk
    = (Raise AttributeError, Ex.disk).
Proof. repeat split. Qed.

(** C10, amended. [reset] on an Inline field succeeds and changes
    nothing; on a field with neither a value nor a byte source it raises
    its own error; on a field with a byte source it does what the [seek]
    of the source does: it rewinds a source of the store to its start
    and touches no other, and it raises what the [seek] raises. So
    [reset] raises only for a field with neither, or when the [seek] of
    its source raises. On the objects of the store it is
    [MultipartParam.reset]. *)
Theorem reset_cases (seek : nat → store → result unit * store)
    (p : MultipartParam.t) (st : store) :
  (∀ text, MultipartParam.value p = Some text →
     MultipartParam.fileobj p = None →
     MultipartParam_reset seek p st = (Ok (), st))
  ∧ (∀ e, (MultipartParam_reset seek p st).1 = Raise e →
       (MultipartParam.value p = None ∧ MultipartParam.fileobj p = None
        ∧ e = MultipartParam.cannot_reset)
       ∨ (∃ f, MultipartParam.fileobj p = Some f
               ∧ (seek f st).1 = Raise e))
  ∧ (MultipartParam.value p = None → MultipartParam.fileobj p = None →
     MultipartParam_reset seek p st = (Raise MultipartParam.cannot_reset, st))
  ∧ (∀ f, MultipartParam.fileobj p = Some f →
       MultipartParam_reset seek p st = seek f st)
  ∧ (∀ f fo, MultipartParam.fileobj p = Some f → st !! f = Some fo →
       (MultipartParam_reset store_seek p st).1 = Ok ()
       ∧ (MultipartParam_reset store_seek p st).2 !! f
         = Some (FileLike (content fo) 0)
       ∧ ∀ f', f' ≠ f →
           (MultipartParam_reset store_seek p st).2 !! f' = st !! f')
  ∧ MultipartParam_reset store_seek p st = MultipartParam.reset p st.
Proof.
  unfold MultipartParam_reset, MultipartParam.reset, store_seek.
  split; [|split; [|split; [|split; [|split]]]].
  - intros text -> ->. reflexivity.
  - intros e He. destruct (MultipartParam.fileobj p) as [f|].
    + right. by exists f.
    + left. destruct (MultipartParam.value p); [done|].
      by injection He as <-.
  - intros -> ->. reflexivity.
  - intros f ->. reflexivity.
  - intros f fo -> Hfo. cbn [fst snd]. unfold file_seek0.
    split; [done|]. split.
    + by rewrite lookup_alter_eq, Hfo.
    + intros f' Hf'. by rewrite lookup_alter_ne.
  - reflexivity.
Qed.

Lemma reset_cases_witness :
  MultipartParam_reset no_seek Ex.text_field Ex.disk = (Ok (), Ex.disk)
  ∧ (MultipartParam_reset store_seek Ex.file_field
       {[ 0 := FileLike (lit "abcdefghi") 4 ]}).2 !! 0
    = Some (FileLike (lit "abcdefghi") 0)
  ∧ MultipartParam_reset no_seek Ex.file_field Ex.disk = no_seek 0 Ex.disk.
Proof.
  split; [|split].
  - apply (proj1 (reset_cases no_seek Ex.text_field Ex.disk) (lit "value1"));
      reflexivity.
  - apply (proj1 (proj2 (proj2 (proj2 (proj2 (reset_cases no_seek
              Ex.file_field {[ 0 := FileLike (lit "abcdefghi") 4 ]})))))
             0 (FileLike (lit "abcdefghi") 4)); reflexivity.
  - apply (proj1 (proj2 (proj2 (proj2 (reset_cases no_seek Ex.file_field
              Ex.disk)))) 0); reflexivity.
Defined.

(** ** The line-anchored search *)

Lemma strip_prefix_Some token data rest :
  strip_prefix token data = Some rest ↔ data = token ++ rest.
Proof.
  revert data. induction token as [|t token IH]; intros data; simpl.
  - split; congruence.
  - destruct data as [|d data]; [done|].
    destruct (Z.eqb_spec t d) as [->|Hne].
    + rewrite IH. split; congruence.
    + split; [done|]. intros [= ? _]. done.
Qed.

Lemma at_eol_true rest : at_eol rest = true ↔ line_end rest.
Proof.
  unfold line_end. destruct rest as [|c rest]; simpl.
  - split; auto.
  - split.
    + intros ->%Z.eqb_eq. eauto.
    + intros [|[r [= -> _]]]; [done|]. reflexivity.
Qed.

Lemma match_here_true token data :
  match_here token data = true ↔ ∃ post, data = token ++ post ∧ line_end post.
Proof.
  unfold match_here. destruct (strip_prefix token data) as [rest|] eqn:E.
  - apply strip_prefix_Some in E as ->. rewrite at_eol_true. split; [eauto|].
    by intros (post & ->%app_inv_head & H).
  - split; [done|]. intros (post & H & _).
    apply strip_prefix_Some in H. congruence.
Qed.

Lemma search_from_true bol token data :
  search_from bol token data = true
  ↔ ∃ pre post, data = pre ++ token ++ post
      ∧ ((pre = [] ∧ bol = true) ∨ ∃ pre', pre = pre' ++ [LF])
      ∧ line_end post.
Proof.
  revert bol. induction data as [|c data IH]; intros bol.
  - simpl. rewrite orb_false_r, andb_true_iff, match_here_true. split.
    + intros [-> (post & H & Hp)]. exists [], post. auto.
    + intros (pre & post & H & Hpre & Hp).
      symmetry in H. apply app_eq_nil in H as [-> H].
      destruct Hpre as [[_ ->]|[pre' Hpre]];
        [|by destruct pre'].
      split; [done|]. eauto.
  - simpl. rewrite orb_true_iff, andb_true_iff, match_here_true, IH.
    split.
    + intros [[-> (post & H & Hp)]|(pre & post & H & Hpre & Hp)].
      * exists [], post. auto.
      * exists (c :: pre), post. rewrite H. split; [done|]. split; [|done].
        right. destruct Hpre as [[-> Hc]|[pre' ->]].
        -- apply Z.eqb_eq in Hc as ->. by exists [].
        -- by exists (c :: pre').
    + intros (pre & post & H & Hpre & Hp).
      destruct pre as [|c' pre].
      * left. destruct Hpre as [[_ ->]|[pre' Hpre]]; [|by destruct pre'].
        split; [done|]. eauto.
      * right. injection H as <- ->. exists pre, post.
        split; [done|]. split; [|done].
        destruct Hpre as [[? _]|[pre' Hpre]]; [done|].
        destruct pre' as [|c'' pre'].
        -- injection Hpre as -> ->. left. split; [done|]. reflexivity.
        -- injection Hpre as _ ->. right. eauto.
Qed.

Lemma re_search_line_true token data :
  re_search_line token data = true ↔ line_of token data.
Proof.
  unfold re_search_line, line_of, line_start. rewrite search_from_true.
  split; intros (pre & post & H & Hpre & Hp); exists pre, post;
    (split; [done|]); (split; [|done]).
  - destruct Hpre as [[-> _]|?]; auto.
  - destruct Hpre as [->|?]; auto.
Qed.

(** UTF-8 encoding goes through concatenation. *)
Lemma encode_utf8_app a b :
  encode_utf8 (a ++ b)
  = (x ← encode_utf8 a; y ← encode_utf8 b; Ok (x ++ y)).
Proof.
  induction a as [|c a IH]; simpl.
  - by destruct (encode_utf8 b).
  - destruct (utf8_char c) as [x|e]; [|done]. simpl. rewrite IH.
    destruct (encode_utf8 a) as [y|e]; [|done]. simpl.
    destruct (encode_utf8 b) as [z|e]; [|done]. simpl.
    by rewrite app_assoc.
Qed.

Lemma encode_utf8_app_Ok a b v :
  encode_utf8 (a ++ b) = Ok v →
  ∃ x y, encode_utf8 a = Ok x ∧ encode_utf8 b = Ok y ∧ v = x ++ y.
Proof.
  rewrite encode_utf8_app.
  destruct (encode_utf8 a) as [x|e]; [|done]. simpl.
  destruct (encode_utf8 b) as [y|e]; [|done]. simpl.
  intros [= <-]. eauto.
Qed.

Lemma line_of_utf8 token text v :
  line_of token text → encode_utf8 text = Ok v →
  ∃ t, encode_utf8 token = Ok t ∧ line_of t v.
Proof.
  intros (pre & post & -> & Hpre & Hpost) H.
  apply encode_utf8_app_Ok in H as (x & yz & Hx & H & ->).
  apply encode_utf8_app_Ok in H as (y & z & Hy & Hz & ->).
  exists y. split; [done|]. exists x, z. split; [done|]. split.
  - destruct Hpre as [->|[pre' ->]].
    + injection Hx as <-. by left.
    + apply encode_utf8_app_Ok in Hx as (x1 & x2 & _ & [= <-] & ->).
      right. eauto.
  - destruct Hpost as [->|[post' ->]].
    + injection Hz as <-. by left.
    + simpl in Hz. destruct (encode_utf8 post') as [w|e]; [|done].
      injection Hz as <-. right. eauto.
Qed.

(** ** Collisions in text fields *)

Lemma encode_collision p boundary text v st :
  MultipartParam.value p = Some text →
  encode_utf8 text = Ok v →
  line_of (lit "--" ++ boundary) text →
  MultipartParam.encode p boundary st
  = (Raise MultipartParam.boundary_found_in_string, st).
Proof.
  intros Hv Hu Hl. unfold MultipartParam.encode. rewrite Hv, Hu.
  destruct (line_of_utf8 _ _ _ Hl Hu) as (t & Ht & Hlt).
  apply encode_utf8_app_Ok in Ht as (x & b & Hx & Hb & ->).
  assert (x = lit "--") as -> by (vm_compute in Hx |- *; congruence).
  rewrite Hb. cbn [mbind result_bind].
  apply re_search_line_true in Hlt. by rewrite Hlt.
Qed.

(** The part of the claim on text fields that holds: a field whose text
    has a line equal to [--boundary], a line that line feeds delimit,
    makes [encode] raise the collision error, and makes the first pull
    of [iter_encode] raise it: no block is yielded and no callback
    runs. *)
Theorem inline_collision_raises (p : MultipartParam.t)
    (boundary text : str) (v hdr : bytes) (blocksize : Z) (st : store) :
  MultipartParam.value p = Some text →
  line_of (lit "--" ++ boundary) text →
  encode_utf8 text = Ok v →
  MultipartParam.encode_hdr p boundary = Ok hdr →
  MultipartParam.encode p boundary st
  = (Raise MultipartParam.boundary_found_in_string, st)
  ∧ MultipartParam.gen_next
      (MultipartParam.iter_encode p boundary blocksize) st
    = ([], Raised MultipartParam.boundary_found_in_string,
       MultipartParam.Gen p boundary blocksize MultipartParam.GDone, st)
  ∧ ∀ fuel,
      gen_consume (S fuel)
        (MultipartParam.iter_encode p boundary blocksize) st
      = GenRun [] [] (Failed MultipartParam.boundary_found_in_string) st.
Proof.
  intros Hv Hl Hu Hh.
  pose proof (encode_collision p boundary text v st Hv Hu Hl) as He.
  assert (Hg : MultipartParam.gen_next
      (MultipartParam.iter_encode p boundary blocksize) st
    = ([], Raised MultipartParam.boundary_found_in_string,
       MultipartParam.Gen p boundary blocksize MultipartParam.GDone, st)).
  { unfold MultipartParam.gen_next, MultipartParam.iter_encode.
    cbn [MultipartParam.g_state MultipartParam.g_self
         MultipartParam.g_boundary].
    unfold MultipartParam.get_size. rewrite Hv, Hu.
    destruct (MultipartParam.filesize p);
      cbn [mbind result_bind]; rewrite Hh; cbn [mbind result_bind];
      rewrite He; reflexivity. }
  split; [done|]. split; [done|].
  intros fuel. cbn [gen_consume]. rewrite Hg. reflexivity.
Qed.

Lemma inline_collision_raises_witness :
  line_of (lit "--" ++ lit "XYZ")
            (lit "one" ++ [LF] ++ lit "--XYZ" ++ [LF] ++ lit "two")
  ∧ MultipartParam.encode
      (MultipartParam.mk (lit "key")
         (Some (lit "one" ++ [LF] ++ lit "--XYZ" ++ [LF] ++ lit "two"))
         None None None None true) (lit "XYZ") ∅
    = (Raise MultipartParam.boundary_found_in_string, ∅).
Proof.
  assert (Hl : line_of (lit "--" ++ lit "XYZ")
            (lit "one" ++ [LF] ++ lit "--XYZ" ++ [LF] ++ lit "two")).
  { exists (lit "one" ++ [LF]), ([LF] ++ lit "two").
    split; [reflexivity|]. split; right; eauto. }
  split; [exact Hl|].
  refine (proj1 (inline_collision_raises
                   (MultipartParam.mk (lit "key")
                      (Some (lit "one" ++ [LF] ++ lit "--XYZ" ++ [LF]
                             ++ lit "two")) None None None None true)
                   (lit "XYZ") _ _ _ 4096 ∅ eq_refl Hl _ _));
    vm_compute; reflexivity.
Defined.

(** C4. The claim fails on the code for a line that CR LF ends, as the
    lines of the encoding are: the text [a CRLF --XYZ CRLF b] has the
    line [--XYZ], and [encode] returns it, header, text and CRLF, and
    [iter_encode] yields that block and ends: the body then holds the
    delimiter line of the boundary. *)
Theorem inline_crlf_line_accepted :
  let text := lit "a" ++ CRLF ++ (lit "--" ++ lit "XYZ") ++ CRLF ++ lit "b" in
  let p := MultipartParam.mk (lit "key") (Some text) None None None None
             false in
  crlf_line_of (lit "--" ++ lit "XYZ") text
  ∧ ∃ hdr,
      MultipartParam.encode_hdr p (lit "XYZ") = Ok hdr
      ∧ MultipartParam.encode p (lit "XYZ") ∅
        = (Ok (hdr ++ text ++ CRLF), ∅)
      ∧ gen_consume 3 (MultipartParam.iter_encode p (lit "XYZ") 4096) ∅
        = GenRun [] [hdr ++ text ++ CRLF] Exhausted ∅.
Proof.
  intros text p. split.
  - exists (lit "a" ++ CRLF), (CRLF ++ lit "b"). split; [reflexivity|].
    split; right; eauto.
  - destruct (MultipartParam.encode_hdr p (lit "XYZ")) as [hdr|e] eqn:Hh;
      [|by vm_compute in Hh].
    exists hdr. split; [done|].
    vm_compute in Hh. injection Hh as <-.
    split; vm_compute; reflexivity.
Qed.

(** The streamed check misses the same line, read whole or in blocks
    of five or of three bytes. *)
Lemma stream_crlf_line_accepted :
  let body := lit "a" ++ CRLF ++ (lit "--" ++ lit "XYZ") ++ CRLF ++ lit "b" in
  let p := MultipartParam.mk (lit "f") None None None (Some 11) (Some 0)
             false in
  crlf_line_of (lit "--" ++ lit "XYZ") body
  ∧ Forall (fun blocksize =>
              g_outcome
                (gen_consume 20
                   (MultipartParam.iter_encode p (lit "XYZ") blocksize)
                   {[ 0 := FileLike body 0 ]})
              = Exhausted)
           [4096; 5; 3]%Z.
Proof.
  intros body p. split.
  - exists (lit "a" ++ CRLF), (CRLF ++ lit "b"). split; [reflexivity|].
    split; right; eauto.
  - do 3 (constructor; [vm_compute; reflexivity|]). constructor.
Qed.

(** ** The window of the streamed check *)

Lemma last_bytes_length n data : length (last_bytes n data) ≤ n.
Proof. unfold last_bytes. rewrite length_drop. lia. Qed.

Lemma last_bytes_app n seen block :
  last_bytes n (last_bytes n seen ++ block) = last_bytes n (seen ++ block).
Proof.
  unfold last_bytes.
  rewrite <- (drop_app_le seen block (length seen - n)) by lia.
  rewrite drop_drop. f_equal.
  rewrite length_drop, !length_app. lia.
Qed.

(** A pull that reads: what [read_step] yields and where it suspends. *)
Lemma read_step_Yield g last_block eb current total st block g' st' :
  MultipartParam.read_step g last_block eb current total st
  = (Yield block, g', st') →
  (block = CRLF
   ∧ g' = MultipartParam.set_state g
            (MultipartParam.GTail (current + 2) total))
  ∨ (block ≠ []
     ∧ re_search_line eb (last_block ++ block) = false
     ∧ g' = MultipartParam.set_state g
              (MultipartParam.GBody
                 (last_bytes (length eb + 2) (last_block ++ block)) eb
                 (current + length block) total)).
Proof.
  unfold MultipartParam.read_step.
  destruct (MultipartParam.fileobj (MultipartParam.g_self g)) as [f|];
    [|done].
  destruct (file_read (MultipartParam.g_blocksize g) f st) as [b st1].
  destruct b as [|c b].
  - intros [= <- <- _]. by left.
  - destruct (re_search_line eb (last_block ++ c :: b)) eqn:E; [done|].
    intros [= <- <- _]. right. by rewrite E.
Qed.

Lemma gen_pulls_tail n g st current total blocks g' st' :
  MultipartParam.g_state g = MultipartParam.GTail current total →
  gen_pulls n g st = Some (blocks, g', st') → g' = g.
Proof.
  intros Hs. destruct n as [|n]; simpl; [congruence|].
  unfold MultipartParam.gen_next. rewrite Hs. done.
Qed.

Lemma gen_pulls_body n : ∀ g st blocks g' st' lb eb c t seen lb' eb' c' t',
  MultipartParam.g_state g = MultipartParam.GBody lb eb c t →
  lb = last_bytes (length eb + 2) seen →
  gen_pulls n g st = Some (blocks, g', st') →
  MultipartParam.g_state g' = MultipartParam.GBody lb' eb' c' t' →
  eb' = eb ∧ lb' = last_bytes (length eb + 2) (seen ++ concat blocks).
Proof.
  induction n as [|n IH]; intros g st blocks g' st' lb eb c t seen
    lb' eb' c' t' Hs Hlb Hp Hs'.
  - injection Hp as <- <- _. rewrite app_nil_r. split; congruence.
  - simpl in Hp. unfold MultipartParam.gen_next in Hp. rewrite Hs in Hp.
    destruct (MultipartParam.read_step g lb eb c t st)
      as [[r g1] st1] eqn:Hr.
    destruct r as [block| |]; [|done..].
    destruct (gen_pulls n g1 st1) as [[[bs g2] st2]|] eqn:Hn; [|done].
    injection Hp as <- <- <-.
    apply read_step_Yield in Hr as [[_ Hg1]|(_ & _ & Hg1)].
    + assert (g2 = g1) as ->.
      { eapply gen_pulls_tail; [|exact Hn]. by rewrite Hg1. }
      rewrite Hg1 in Hs'. done.
    + simpl. rewrite app_assoc.
      eapply (IH g1 st1 bs g2 st2); [by rewrite Hg1| |exact Hn|exact Hs'].
      rewrite Hlb. apply last_bytes_app.
Qed.

(** C7, as stated, fails: with the boundary [B] and ten bytes read, the
    buffer keeps five bytes, not [len(boundary) + 2 = 3]. *)
Lemma window_size_counterexample :
  (match gen_pulls 2
           (MultipartParam.iter_encode
              (MultipartParam.mk (lit "f") None None None (Some 10) (Some 0)
                 false)
              (lit "B") 10)
           {[ 0 := FileLike (lit "0123456789") 0 ]} with
   | Some (_, g, _) => MultipartParam.g_state g
   | None => MultipartParam.GDone
   end) = MultipartParam.GBody (lit "56789") (lit "--B") 100 102
  ∧ last_bytes (length (lit "B") + 2) (lit "0123456789") = lit "789".
Proof. split; vm_compute; reflexivity. Qed.

(** C7, amended. After the header and any number of reads, the buffer
    is exactly the last [len(quote_plus(boundary)) + 4] bytes read so
    far, that is [len(encoded_boundary) + 2] of them, or all of them
    when fewer were read; it never holds more. *)
Theorem window_retains (p : MultipartParam.t) (boundary : str)
    (blocksize : Z) (st st' : store) (n : nat) (blocks : list bytes)
    (g' : MultipartParam.generator) (lb eb : bytes) (c t : nat) :
  gen_pulls n (MultipartParam.iter_encode p boundary blocksize) st
  = Some (blocks, g', st') →
  MultipartParam.g_state g' = MultipartParam.GBody lb eb c t →
  ∃ q hdr data,
    quote_plus boundary = Ok q
    ∧ eb = lit "--" ++ q
    ∧ blocks = hdr :: data
    ∧ lb = last_bytes (length q + 4) (concat data)
    ∧ length lb ≤ length q + 4.
Proof.
  intros Hp Hs'. destruct n as [|n].
  { injection Hp as _ <- _. discriminate Hs'. }
  simpl in Hp. unfold MultipartParam.gen_next in Hp.
  cbn [MultipartParam.iter_encode MultipartParam.g_state
       MultipartParam.g_self MultipartParam.g_boundary] in Hp.
  destruct (MultipartParam.get_size p boundary) as [total|]; [|done].
  destruct (MultipartParam.value p) as [v|].
  { (* a text field is over after its only block *)
    destruct (MultipartParam.encode p boundary st) as [[block|] st1];
      [|done].
    destruct n as [|n]; simpl in Hp.
    - injection Hp as _ <- _. discriminate Hs'.
    - done. }
  destruct (MultipartParam.encode_hdr p boundary) as [hdr|]; [|done].
  destruct n as [|n]; simpl in Hp.
  { injection Hp as _ <- _. discriminate Hs'. }
  unfold MultipartParam.gen_next in Hp.
  cbn [MultipartParam.set_state MultipartParam.iter_encode
       MultipartParam.g_state MultipartParam.g_self
       MultipartParam.g_boundary] in Hp.
  unfold encode_and_quote in Hp.
  destruct (quote_plus boundary) as [q|] eqn:Hq;
    cbn [mbind result_bind] in Hp; [|done].
  destruct (encode_ascii q) as [q'|] eqn:Ha; [|done].
  apply encode_ascii_Ok in Ha as [-> _].
  match type of Hp with context [MultipartParam.read_step ?g ?l ?e ?c ?t ?s] =>
    destruct (MultipartParam.read_step g l e c t s) as [[r g1] st1] eqn:Hr
  end.
  destruct r as [block| |]; [|done..].
  destruct (gen_pulls n g1 st1) as [[[bs g2] st2]|] eqn:Hn; [|done].
  injection Hp as <- <- <-.
  exists q, hdr, (block :: bs). split; [done|].
  apply read_step_Yield in Hr as [[_ Hg1]|(_ & _ & Hg1)].
  - assert (g2 = g1) as ->.
    { eapply gen_pulls_tail; [|exact Hn]. by rewrite Hg1. }
    rewrite Hg1 in Hs'. done.
  - destruct (gen_pulls_body n g1 st1 bs g2 st2 _ _ _ _ block lb eb c t
                ltac:(by rewrite Hg1) eq_refl Hn Hs') as [-> ->].
    assert (length (lit "--" ++ q) + 2 = length q + 4) as ->
      by (rewrite length_app; simpl; lia).
    repeat split; try done. apply last_bytes_length.
Qed.

Lemma window_retains_witness :
  MultipartParam.GBody (lit "56789") (lit "--B") 100 102
  = MultipartParam.GBody (lit "56789") (lit "--B") 100 102
  ∧ ∃ q hdr data,
      quote_plus (lit "B") = Ok q
      ∧ lit "--B" = lit "--" ++ q
      ∧ [lit "--B" ++ CRLF
           ++ lit "Content-Disposition: form-data; name=" ++ [DQUOTE]
           ++ lit "f" ++ [DQUOTE] ++ CRLF
           ++ lit "Content-Type: text/plain; charset=utf-8" ++ CRLF ++ CRLF;
         lit "0123456789"] = hdr :: data
      ∧ lit "56789" = last_bytes (length q + 4) (concat data)
      ∧ length (lit "56789") ≤ length q + 4.
Proof.
  split; [reflexivity|].
  eapply (window_retains
            (MultipartParam.mk (lit "f") None None None (Some 10) (Some 0)
               false)
            (lit "B") 10 {[ 0 := FileLike (lit "0123456789") 0 ]} _ 2);
    vm_compute; reflexivity.
Defined.

(** ** Collisions in streamed fields *)

Lemma line_start_drop n pre : line_start pre → line_start (drop n pre).
Proof.
  intros [->|[pre' ->]].
  - left. apply drop_nil.
  - destruct (decide (n ≤ length pre')).
    + right. exists (drop n pre'). by apply drop_app_le.
    + left. apply drop_ge. rewrite length_app. simpl. lia.
Qed.

Lemma line_end_take n post : line_end post → line_end (take n post).
Proof.
  intros [->|[post' ->]].
  - left. apply take_nil.
  - destruct n; [by left|]. right. simpl. eauto.
Qed.

(** The read that completes a line equal to the token finds it in the
    window, whatever was cut off before. *)
Lemma window_hit eb seen block rest pre post n :
  seen ++ block ++ rest = pre ++ eb ++ post →
  line_start pre → line_end post →
  length seen < length pre + length eb →
  length pre + length eb ≤ length seen + length block →
  length eb ≤ n →
  line_of eb (last_bytes n seen ++ block).
Proof.
  intros H Hpre Hpost Hlt Hle Hn.
  assert (Hsb : seen ++ block
                = pre ++ eb
                  ++ take (length seen + length block
                           - length pre - length eb) post).
  { rewrite <- (take_app_length (seen ++ block) rest).
    rewrite <- app_assoc, H, length_app.
    rewrite take_app, take_ge by lia.
    rewrite take_app, take_ge by lia.
    repeat f_equal; lia. }
  unfold last_bytes.
  rewrite <- (drop_app_le seen block) by lia.
  rewrite Hsb, drop_app_le by lia.
  eexists _, _. split; [reflexivity|]. split.
  - by apply line_start_drop.
  - by apply line_end_take.
Qed.

Lemma file_read_lookup size f st fo :
  st !! f = Some fo →
  ∃ block,
    file_read size f st
    = (block, <[f := FileLike (content fo) (position fo + length block)]> st)
    ∧ block ++ drop (position fo + length block) (content fo)
      = drop (position fo) (content fo)
    ∧ (size ≠ 0%Z → drop (position fo) (content fo) ≠ [] → block ≠ []).
Proof.
  intros Hf. unfold file_read, read_block. rewrite Hf.
  eexists. split; [reflexivity|].
  set (R := drop (position fo) (content fo)).
  destruct (Z.ltb_spec size 0).
  - split; [|done]. rewrite <- drop_drop. fold R.
    by rewrite drop_all, app_nil_r.
  - split.
    + rewrite <- drop_drop. fold R.
      rewrite length_take.
      destruct (decide (Z.to_nat size ≤ length R)).
      * rewrite Nat.min_l by done. apply take_drop.
      * rewrite Nat.min_r, take_ge, drop_all by lia. apply app_nil_r.
    + intros Hs HR. destruct R as [|c R]; [done|].
      destruct (Z.to_nat size) eqn:E; [lia|]. done.
Qed.

Lemma gen_next_reading g lb eb c t st :
  reading g lb eb c t →
  MultipartParam.gen_next g st
  = (let '(r, g', st') := MultipartParam.read_step g lb eb c t st in
     (MultipartParam.call_cb (MultipartParam.g_self g) c t, r, g', st')).
Proof.
  unfold MultipartParam.gen_next.
  intros [->|(-> & -> & q & Hq & Ha & ->)]; [done|].
  unfold encode_and_quote. rewrite Hq. cbn [mbind result_bind].
  rewrite Ha. by destruct (MultipartParam.read_step _ _ _ _ _ _) as [[??]?].
Qed.

Lemma reading_detects fuel : ∀ g st lb eb c t f fo seen pre post,
  reading g lb eb c t →
  MultipartParam.fileobj (MultipartParam.g_self g) = Some f →
  st !! f = Some fo →
  MultipartParam.g_blocksize g ≠ 0%Z →
  lb = last_bytes (length eb + 2) seen →
  seen ++ drop (position fo) (content fo) = pre ++ eb ++ post →
  line_start pre → line_end post →
  length seen < length pre + length eb →
  length (drop (position fo) (content fo)) ≤ fuel →
  g_outcome (gen_consume fuel g st)
  = Failed MultipartParam.boundary_found_in_file.
Proof.
  induction fuel as [|fuel IH];
    intros g st lb eb c t f fo seen pre post Hr Hf Hst Hbs Hlb Hdata
      Hpre Hpost Hlt Hfuel.
  { apply (f_equal length) in Hdata. rewrite !length_app in Hdata. lia. }
  cbn [gen_consume]. rewrite (gen_next_reading _ _ _ _ _ _ Hr).
  unfold MultipartParam.read_step. rewrite Hf.
  destruct (file_read_lookup (MultipartParam.g_blocksize g) f st fo Hst)
    as (block & -> & Hsplit & Hne).
  assert (HR : drop (position fo) (content fo) ≠ []).
  { intros E. rewrite E, app_nil_r in Hdata.
    apply (f_equal length) in Hdata. rewrite !length_app in Hdata. lia. }
  specialize (Hne Hbs HR).
  destruct block as [|b0 block]; [done|]. clear Hne.
  set (blk := b0 :: block) in *.
  destruct (re_search_line eb (lb ++ blk)) eqn:Hsearch; [done|].
  cbn [g_outcome].
  assert (Hlt' : length (seen ++ blk) < length pre + length eb).
  { destruct (decide (length pre + length eb ≤ length seen + length blk))
      as [Hle|]; [|rewrite length_app; lia].
    assert (line_of eb (lb ++ blk)) as Hl.
    { rewrite Hlb. rewrite <- Hsplit in Hdata.
      eapply window_hit; eauto. lia. }
    apply re_search_line_true in Hl. congruence. }
  eapply (IH _ _ _ eb _ t f _ (seen ++ blk) pre post).
  - left. reflexivity.
  - done.
  - apply lookup_insert_eq.
  - done.
  - rewrite Hlb. apply last_bytes_app.
  - cbn [content position]. rewrite <- app_assoc, Hsplit. done.
  - done.
  - done.
  - done.
  - cbn [content position].
    apply (f_equal length) in Hsplit. rewrite length_app in Hsplit.
    subst blk. simpl in Hsplit |- *. lia.
Qed.

Lemma encode_hdr_quote_ascii p boundary hdr q :
  MultipartParam.encode_hdr p boundary = Ok hdr →
  quote_plus boundary = Ok q →
  encode_ascii q = Ok q.
Proof.
  rewrite encode_hdr_eq. intros H Hq. rewrite Hq in H.
  cbn [mbind result_bind] in H. unfold encode_ascii in H |- *.
  destruct (forallb is_ascii (render_header_words (drop_empty p) q)) eqn:E;
    [|done].
  unfold render_header_words in E. rewrite !forallb_app in E.
  apply andb_prop in E as [_ E]. apply andb_prop in E as [E _].
  by rewrite E.
Qed.

(** C5, as stated, fails: the streamed check looks for the boundary
    quoted once more, so with the boundary [a+b] a body line [--a+b],
    split over two reads, goes through. *)
Lemma stream_collision_counterexample :
  line_of (lit "--" ++ lit "a+b") (lit "--a+b")
  ∧ g_outcome
      (gen_consume 10
         (MultipartParam.iter_encode
            (MultipartParam.mk (lit "f") None None None (Some 5) (Some 0)
               false)
            (lit "a+b") 3)
         {[ 0 := FileLike (lit "--a+b") 0 ]}) = Exhausted
  ∧ tail (g_chunks
      (gen_consume 10
         (MultipartParam.iter_encode
            (MultipartParam.mk (lit "f") None None None (Some 5) (Some 0)
               false)
            (lit "a+b") 3)
         {[ 0 := FileLike (lit "--a+b") 0 ]}))
    = [lit "--a"; lit "+b"; CRLF].
Proof.
  split; [|split; vm_compute; reflexivity].
  exists [], []. split; [reflexivity|]. split; by left.
Qed.

(** C5, amended. A Stream field whose body has a line equal to [--]
    followed by [quote_plus(boundary)], the marker its header carries,
    a line that begins the body or follows a line feed and ends the
    body or is followed by a line feed, fails with the collision error
    however the reads cut the body: for every positive block size, and
    for -1, which reads to the end, and so when the line is split
    between two consecutive reads. *)
Theorem stream_collision_raises (p : MultipartParam.t) (boundary q : str)
    (blocksize : Z) (st : store) (source known_size : nat) (fo : filelike)
    (hdr : bytes) (fuel : nat) :
  Stream p source known_size →
  st !! source = Some fo →
  MultipartParam.encode_hdr p boundary = Ok hdr →
  quote_plus boundary = Ok q →
  line_of (lit "--" ++ q) (drop (position fo) (content fo)) →
  (0 < blocksize ∨ blocksize = -1)%Z →
  length (content fo) < fuel →
  g_outcome
    (gen_consume fuel (MultipartParam.iter_encode p boundary blocksize) st)
  = Failed MultipartParam.boundary_found_in_file.
Proof.
  intros (Hv & Hf & Hn) Hst Hh Hq (pre & post & Hdata & Hpre & Hpost)
    Hsize Hfuel.
  assert (Hbs : blocksize ≠ 0%Z) by lia.
  destruct fuel as [|fuel]; [lia|].
  cbn [gen_consume]. unfold MultipartParam.gen_next.
  cbn [MultipartParam.iter_encode MultipartParam.g_state
       MultipartParam.g_self MultipartParam.g_boundary].
  unfold MultipartParam.get_size. rewrite Hn. cbn [mbind result_bind].
  rewrite Hh. cbn [mbind result_bind]. rewrite Hv. cbn [g_outcome].
  eapply (reading_detects fuel _ st [] (lit "--" ++ q) _ _ source fo []
            pre post).
  - right. split; [reflexivity|]. split; [done|].
    exists q. split; [done|]. split; [|done].
    by eapply encode_hdr_quote_ascii.
  - done.
  - done.
  - done.
  - reflexivity.
  - done.
  - done.
  - done.
  - rewrite length_app. simpl. lia.
  - rewrite length_drop. lia.
Qed.

Lemma stream_collision_raises_witness :
  Stream (MultipartParam.mk (lit "f") None None None (Some 12) (Some 0) false)
         0 12
  ∧ line_of (lit "--" ++ lit "XYZ") (lit "ab" ++ [LF] ++ lit "--XYZ" ++ [LF]
                                      ++ lit "cde")
  ∧ g_outcome
      (gen_consume 13
         (MultipartParam.iter_encode
            (MultipartParam.mk (lit "f") None None None (Some 12) (Some 0)
               false)
            (lit "XYZ") 5)
         {[ 0 := FileLike (lit "ab" ++ [LF] ++ lit "--XYZ" ++ [LF]
                            ++ lit "cde") 0 ]})
    = Failed MultipartParam.boundary_found_in_file.
Proof.
  assert (HS : Stream (MultipartParam.mk (lit "f") None None None (Some 12)
                         (Some 0) false) 0 12) by (repeat split).
  assert (Hl : line_of (lit "--" ++ lit "XYZ")
                 (lit "ab" ++ [LF] ++ lit "--XYZ" ++ [LF] ++ lit "cde")).
  { exists (lit "ab" ++ [LF]), ([LF] ++ lit "cde").
    split; [reflexivity|]. split; right; eauto. }
  split; [exact HS|]. split; [exact Hl|].
  eapply (stream_collision_raises _ (lit "XYZ") (lit "XYZ") 5 _ 0 12
            (FileLike (lit "ab" ++ [LF] ++ lit "--XYZ" ++ [LF] ++ lit "cde")
               0) _ 13 HS).
  - reflexivity.
  - vm_compute. reflexivity.
  - reflexivity.
  - exact Hl.
  - left. lia.
  - vm_compute. lia.
Defined.

(** ** The streamed check is not line-anchored at the edges of a read *)

(** C6 fails on the code for Stream fields. Read through the yielder,
    with the boundary [B] and blocks of 4096 bytes: a body whose only
    line with the marker is [--Bxyz], cut by the first read after
    [--B], and a body where [--B] only ends a longer line, cut five
    bytes before the end of the first read, both raise the collision
    error, though neither has a line equal to [--B]. *)
Theorem stream_false_collision :
  let field n :=
    MultipartParam.mk (lit "f") None None None (Some n) (Some 0) false in
  let run_on data :=
    match MultipartYielder.init [field (length data)] (lit "B") false with
    | Ok y => outcome (consume 10 y {[ 0 := FileLike data 0 ]})
    | Raise e => Failed e
    end in
  let cut_after := replicate 4092 97%Z ++ [LF] ++ lit "--Bxyz" in
  let mid_line := replicate 4091 122%Z ++ lit "--B" ++ [LF] ++ lit "qr" in
  re_search_line (lit "--B") cut_after = false
  ∧ run_on cut_after = Failed MultipartParam.boundary_found_in_file
  ∧ re_search_line (lit "--B") mid_line = false
  ∧ run_on mid_line = Failed MultipartParam.boundary_found_in_file.
Proof. repeat split; vm_compute; reflexivity. Qed.

(** The codecs raise nothing but [UnicodeEncodeError]. *)
Lemma encode_utf8_Raise s e : encode_utf8 s = Raise e → e = UnicodeEncodeError.
Proof.
  induction s as [|c s IH]; simpl; [done|].
  destruct (utf8_char c) as [x|e'] eqn:Hc.
  - simpl. destruct (encode_utf8 s) as [y|e'']; simpl; [done|].
    intros [= <-]. by apply IH.
  - simpl. intros [= <-]. unfold utf8_char in Hc.
    repeat (match type of Hc with
            | context [if ?b then _ else _] => destruct b
            end; try congruence).
Qed.

Lemma encode_ascii_Raise s e : encode_ascii s = Raise e → e = UnicodeEncodeError.
Proof. unfold encode_ascii. destruct (forallb is_ascii s); congruence. Qed.

Lemma encode_hdr_Raise p boundary e :
  MultipartParam.encode_hdr p boundary = Raise e → e = UnicodeEncodeError.
Proof.
  rewrite encode_hdr_eq. unfold quote_plus.
  destruct (encode_utf8 boundary) as [b|e'] eqn:Hb; simpl.
  - apply encode_ascii_Raise.
  - intros [= <-]. by eapply encode_utf8_Raise.
Qed.

(** The text half of C6 holds: [encode] raises the collision error only
    for a text with a whole line equal to [--boundary]. *)
Lemma inline_collision_only_lines p boundary text st st' :
  MultipartParam.value p = Some text →
  MultipartParam.encode p boundary st
  = (Raise MultipartParam.boundary_found_in_string, st') →
  ∃ v b, encode_utf8 text = Ok v ∧ encode_utf8 boundary = Ok b
         ∧ line_of (lit "--" ++ b) v.
Proof.
  intros Hv. unfold MultipartParam.encode. rewrite Hv.
  destruct (encode_utf8 text) as [v|e] eqn:Ht.
  2:{ intros [= -> _]. by apply encode_utf8_Raise in Ht. }
  destruct (encode_utf8 boundary) as [b|e] eqn:Hb.
  2:{ intros [= -> _]. by apply encode_utf8_Raise in Hb. }
  cbn [mbind result_bind].
  destruct (re_search_line (lit "--" ++ b) v) eqn:E.
  - intros _. exists v, b. by rewrite <- re_search_line_true.
  - destruct (MultipartParam.encode_hdr p boundary) as [h|e] eqn:Hh; [done|].
    intros [= -> _]. by apply encode_hdr_Raise in Hh.
Qed.

(** ** One pull of a generator *)

Lemma encode_hdr_nonempty p boundary hdr :
  MultipartParam.encode_hdr p boundary = Ok hdr → hdr ≠ [].
Proof.
  rewrite encode_hdr_eq. intros H. apply bind_Ok in H as (q & _ & H).
  apply encode_ascii_Ok in H as [-> _]. done.
Qed.

Lemma get_size_Ok p boundary n :
  MultipartParam.get_size p boundary = Ok n →
  ∃ hdr,
    MultipartParam.encode_hdr p boundary = Ok hdr
    ∧ ((∃ k, MultipartParam.filesize p = Some k
             ∧ n = length hdr + 2 + k)
       ∨ (∃ text v, MultipartParam.filesize p = None
                    ∧ MultipartParam.value p = Some text
                    ∧ encode_utf8 text = Ok v
                    ∧ n = length hdr + 2 + length v)).
Proof.
  unfold MultipartParam.get_size. intros H.
  apply bind_Ok in H as (vs & Hvs & H).
  apply bind_Ok in H as (hdr & Hh & [= <-]).
  exists hdr. split; [done|].
  destruct (MultipartParam.filesize p) as [k|].
  - left. exists k. by injection Hvs as <-.
  - right. destruct (MultipartParam.value p) as [text|]; [|done].
    apply bind_Ok in Hvs as (v & Hv & [= <-]). eauto 6.
Qed.

Lemma gen_next_reading_inv g lb eb c t st rem calls r g' st' :
  reading g lb eb c t →
  (∃ f fo,
      MultipartParam.fileobj (MultipartParam.g_self g) = Some f
      ∧ st !! f = Some fo
      ∧ rem = length (drop (position fo) (content fo)) + 2
      ∧ c + rem = t) →
  MultipartParam.g_blocksize g ≠ 0%Z →
  MultipartParam.gen_next g st = (calls, r, g', st') →
  match r with
  | Yield block =>
      block ≠ []
      ∧ ∃ rem', rem = length block + rem' ∧ gen_inv g' st' rem'
                ∧ gen_counters g' = Some (c + length block, t)
  | StopIteration => False
  | Raised _ => True
  end.
Proof.
  intros Hr (f & fo & Hf & Hst & Hrem & Hc) Hbs.
  rewrite (gen_next_reading _ _ _ _ _ _ Hr).
  unfold MultipartParam.read_step. rewrite Hf.
  destruct (file_read_lookup (MultipartParam.g_blocksize g) f st fo Hst)
    as (block & -> & Hsplit & Hne).
  apply (f_equal length) in Hsplit. rewrite length_app in Hsplit.
  destruct block as [|b0 block].
  - intros [= _ <- <- _]. split; [done|]. exists 0.
    assert (drop (position fo) (content fo) = []) as HR.
    { destruct (drop (position fo) (content fo)) eqn:E; [done|].
      by destruct (Hne Hbs). }
    rewrite HR in Hrem. simpl in Hrem.
    unfold gen_inv, gen_counters. simpl.
    repeat split; try lia; do 2 f_equal; lia.
  - destruct (re_search_line eb (lb ++ b0 :: block)).
    + by intros [= _ <- _ _].
    + intros [= _ <- <- <-]. split; [done|].
      exists (length (drop (position fo + length (b0 :: block)) (content fo))
              + 2).
      split; [cbn [length] in *; lia|]. split; [|done].
      unfold gen_inv. cbn [MultipartParam.set_state MultipartParam.g_state
                           MultipartParam.g_self].
      eexists f, _. split; [done|]. split; [apply lookup_insert_eq|].
      cbn [content position]. split; [done|]. cbn [length] in *. lia.
Qed.

Lemma gen_next_inv g st rem calls r g' st' :
  gen_inv g st rem →
  MultipartParam.g_blocksize g ≠ 0%Z →
  MultipartParam.gen_next g st = (calls, r, g', st') →
  match r with
  | Yield block =>
      block ≠ [] ∧ ∃ rem', rem = length block + rem' ∧ gen_inv g' st' rem'
  | StopIteration =>
      rem = 0 ∧ st' = st
      ∧ MultipartParam.g_state g ≠ MultipartParam.GStart
  | Raised _ => True
  end.
Proof.
  intros Hinv Hbs Hn. unfold gen_inv in Hinv.
  destruct (MultipartParam.g_state g) as [|c t|c t|lb eb c t|c t|] eqn:Hs.
  - (* not started *)
    destruct Hinv as [Hv Hsz].
    unfold MultipartParam.gen_next in Hn. rewrite Hs, Hsz in Hn.
    apply get_size_Ok in Hsz as (hdr & Hh & Hsz).
    destruct Hv as [(text & Hval & Hfo & Hfs)
                   |(f & fo & (Hval & Hfo & Hfs) & Hst & Hpos)].
    + destruct Hsz as [(k & Hk & _)|(text' & v & _ & Hval' & Hv & ->)];
        [congruence|].
      rewrite Hval in Hn. unfold MultipartParam.encode in Hn.
      rewrite Hval in Hn. rewrite Hval in Hval'. injection Hval' as <-.
      rewrite Hv, Hh in Hn. cbn [mbind result_bind] in Hn.
      destruct (encode_utf8 (MultipartParam.g_boundary g)) as [b|];
        cbn [mbind result_bind] in Hn; [|by injection Hn as _ <- _ _].
      destruct (re_search_line (lit "--" ++ b) v);
        [by injection Hn as _ <- _ _|].
      injection Hn as _ <- <- <-. split.
      { intros E. apply (f_equal length) in E.
        rewrite !length_app in E. simpl in E. lia. }
      exists 0. unfold gen_inv. simpl.
      rewrite !length_app. simpl. lia.
    + destruct Hsz as [(k & Hk & ->)|(? & ? & Hk & _)]; [|congruence].
      rewrite Hfs in Hk. injection Hk as <-.
      rewrite Hval, Hh in Hn. injection Hn as _ <- <- <-.
      split; [by eapply encode_hdr_nonempty|].
      exists (length (content fo) + 2). split; [lia|].
      unfold gen_inv. simpl. exists f, fo. rewrite Hpos, drop_0.
      repeat split; try done. lia.
  - unfold MultipartParam.gen_next in Hn. rewrite Hs in Hn.
    injection Hn as _ <- _ <-. destruct Hinv. done.
  - destruct (quote_plus (MultipartParam.g_boundary g)
              ≫= (fun q => encode_ascii q)) as [q|e] eqn:Hq.
    + apply bind_Ok in Hq as (q' & Hq & Ha).
      pose proof Ha as Ha'. apply encode_ascii_Ok in Ha' as [-> _].
      assert (reading g [] (lit "--" ++ q') c t) as Hr.
      { right. split; [done|]. split; [done|]. eauto. }
      pose proof (gen_next_reading_inv _ _ _ _ _ _ _ _ _ _ _ Hr Hinv Hbs Hn)
        as H.
      destruct r; [|done..]. destruct H as (? & rem' & ? & ? & _). eauto.
    + unfold MultipartParam.gen_next in Hn. rewrite Hs in Hn.
      unfold encode_and_quote in Hn. rewrite Hq in Hn.
      by injection Hn as _ <- _ _.
  - assert (reading g lb eb c t) as Hr by (by left).
    pose proof (gen_next_reading_inv _ _ _ _ _ _ _ _ _ _ _ Hr Hinv Hbs Hn)
      as H.
    destruct r; [|done..]. destruct H as (? & rem' & ? & ? & _). eauto.
  - unfold MultipartParam.gen_next in Hn. rewrite Hs in Hn.
    injection Hn as _ <- _ <-. destruct Hinv. done.
  - unfold MultipartParam.gen_next in Hn. rewrite Hs in Hn.
    injection Hn as _ <- _ <-. done.
Qed.

Lemma file_read_frame size f st block st' :
  file_read size f st = (block, st') →
  (∀ f', f' ≠ f → st' !! f' = st !! f')
  ∧ (∀ f', content <$> st' !! f' = content <$> st !! f').
Proof.
  unfold file_read. destruct (st !! f) as [fo|] eqn:Hf.
  - unfold read_block. intros [= _ <-]. split.
    + intros f' Hne. by rewrite lookup_insert_ne.
    + intros f'. destruct (decide (f' = f)) as [->|Hne].
      * by rewrite lookup_insert_eq, Hf.
      * by rewrite lookup_insert_ne.
  - intros [= _ <-]. done.
Qed.

(** What a pull leaves unchanged, the callback it runs and how the
    counters move. *)
Lemma gen_next_shape g st calls r g' st' :
  MultipartParam.gen_next g st = (calls, r, g', st') →
  MultipartParam.g_self g' = MultipartParam.g_self g
  ∧ MultipartParam.g_boundary g' = MultipartParam.g_boundary g
  ∧ MultipartParam.g_blocksize g' = MultipartParam.g_blocksize g
  ∧ calls = match gen_counters g with
            | Some (c, t) =>
                MultipartParam.call_cb (MultipartParam.g_self g) c t
            | None => []
            end
  ∧ (∀ block, r = Yield block →
       match gen_counters g with
       | Some (c, t) => gen_counters g' = Some (c + length block, t)
       | None =>
           ∃ t, gen_counters g' = Some (length block, t)
                ∧ MultipartParam.get_size (MultipartParam.g_self g)
                    (MultipartParam.g_boundary g) = Ok t
       end)
  ∧ (∀ f, MultipartParam.fileobj (MultipartParam.g_self g) ≠ Some f →
       st' !! f = st !! f)
  ∧ (∀ f, content <$> st' !! f = content <$> st !! f).
Proof.
  assert (Hread : ∀ lb eb c t r g' st',
    MultipartParam.read_step g lb eb c t st = (r, g', st') →
    MultipartParam.g_self g' = MultipartParam.g_self g
    ∧ MultipartParam.g_boundary g' = MultipartParam.g_boundary g
    ∧ MultipartParam.g_blocksize g' = MultipartParam.g_blocksize g
    ∧ (∀ block, r = Yield block →
         gen_counters g' = Some (c + length block, t))
    ∧ (∀ f, MultipartParam.fileobj (MultipartParam.g_self g) ≠ Some f →
         st' !! f = st !! f)
    ∧ (∀ f, content <$> st' !! f = content <$> st !! f)).
  { clear. intros lb eb c t r g' st'. unfold MultipartParam.read_step.
    destruct (MultipartParam.fileobj (MultipartParam.g_self g)) as [f|].
    2:{ intros [= <- <- <-]. by repeat split. }
    destruct (file_read (MultipartParam.g_blocksize g) f st)
      as [block st1] eqn:Hfr.
    apply file_read_frame in Hfr as [Hfr1 Hfr2].
    assert (∀ f', Some f ≠ Some f' → st1 !! f' = st !! f') as Hfr1'.
    { intros f' Hne. apply Hfr1. congruence. }
    destruct block as [|b0 block].
    - intros [= <- <- <-]. repeat split; try done.
      intros block [= <-]. reflexivity.
    - destruct (re_search_line eb (lb ++ b0 :: block)).
      + intros [= <- <- <-]. by repeat split.
      + intros [= <- <- <-]. repeat split; try done.
        intros blk [= <-]. reflexivity. }
  unfold MultipartParam.gen_next, gen_counters.
  destruct (MultipartParam.g_state g) as [|c t|c t|lb eb c t|c t|] eqn:Hs.
  - destruct (MultipartParam.get_size _ _) as [total|e] eqn:Hsz.
    2:{ intros [= <- <- <- <-]. by repeat split. }
    destruct (MultipartParam.value (MultipartParam.g_self g)) as [v|] eqn:Hv.
    + unfold MultipartParam.encode. rewrite Hv.
      destruct (encode_utf8 v ≫= _) as [block|e].
      * intros [= <- <- <- <-]. repeat split; try done.
        intros blk [= <-]. eauto.
      * intros [= <- <- <- <-]. by repeat split.
    + destruct (MultipartParam.encode_hdr _ _) as [block|e].
      * intros [= <- <- <- <-]. repeat split; try done.
        intros blk [= <-]. eauto.
      * intros [= <- <- <- <-]. by repeat split.
  - intros [= <- <- <- <-]. by repeat split.
  - destruct (encode_and_quote _ ≫= _) as [q|e].
    + destruct (MultipartParam.read_step _ _ _ _ _ _) as [[r1 g1] st1] eqn:Hr.
      intros [= <- <- <- <-].
      apply Hread in Hr as (? & ? & ? & ? & ? & ?). by repeat split.
    + intros [= <- <- <- <-]. by repeat split.
  - destruct (MultipartParam.read_step _ _ _ _ _ _) as [[r1 g1] st1] eqn:Hr.
    intros [= <- <- <- <-].
      apply Hread in Hr as (? & ? & ? & ? & ? & ?). by repeat split.
  - intros [= <- <- <- <-]. by repeat split.
  - intros [= <- <- <- <-]. by repeat split.
Qed.

(** ** The callback of a field *)

Lemma gen_inv_finished g st c t :
  gen_inv g st 0 → gen_counters g = Some (c, t) → c = t.
Proof.
  unfold gen_inv, gen_counters.
  destruct (MultipartParam.g_state g); try done.
  - by intros [_ ->] [= <- <-].
  - intros (f & fo & _ & _ & H & _). lia.
  - intros (f & fo & _ & _ & H & _). lia.
  - by intros [_ ->] [= <- <-].
Qed.

Lemma gen_consume_calls fuel : ∀ g st rem c t,
  gen_inv g st rem →
  MultipartParam.g_blocksize g ≠ 0%Z →
  gen_counters g = Some (c, t) →
  MultipartParam.cb (MultipartParam.g_self g) = true →
  g_outcome (gen_consume fuel g st) = Exhausted →
  Forall (fun x => c ≤ x.1 ∧ x.2 = t) (g_calls (gen_consume fuel g st))
  ∧ StronglySorted le (g_calls (gen_consume fuel g st)).*1
  ∧ last (g_calls (gen_consume fuel g st)) = Some (t, t).
Proof.
  induction fuel as [|fuel IH]; intros g st rem c t Hinv Hbs Hct Hcb Hout;
    [done|].
  cbn [gen_consume] in *.
  destruct (MultipartParam.gen_next g st) as [[[calls r] g'] st'] eqn:Hn.
  destruct (gen_next_shape _ _ _ _ _ _ Hn)
    as (Hself & _ & Hbsz & Hcalls & Hyield & _).
  pose proof (gen_next_inv _ _ _ _ _ _ _ Hinv Hbs Hn) as Hstep.
  rewrite Hct in Hcalls, Hyield.
  unfold MultipartParam.call_cb in Hcalls. rewrite Hcb in Hcalls.
  subst calls. destruct r as [block| |e]; cbn in Hout |- *; [| |done].
  - destruct Hstep as (_ & rem' & -> & Hinv').
    destruct (IH g' st' rem' (c + length block) t Hinv'
                ltac:(congruence) (Hyield block eq_refl)
                ltac:(congruence) Hout) as (HF & HS & HL).
    split; [|split].
    + constructor; [simpl; lia|].
      eapply Forall_impl; [exact HF|]. intros x [??]. split; [lia|done].
    + constructor; [done|]. apply Forall_fmap.
      eapply Forall_impl; [exact HF|]. intros x [??]. simpl. lia.
    + by rewrite last_cons, HL.
  - destruct Hstep as (-> & _ & _).
    rewrite (gen_inv_finished _ _ _ _ Hinv Hct).
    repeat split.
    + constructor; [simpl; lia|constructor].
    + simpl. repeat constructor.
Qed.

(** ** One pull of the yielder *)

Lemma sources_elem p params f :
  p ∈ params → MultipartParam.fileobj p = Some f → f ∈ sources params.
Proof. intros Hp Hf. apply list_elem_of_omap. eauto. Qed.

Lemma valid_field_frame st st' p :
  (∀ f, MultipartParam.fileobj p = Some f → st' !! f = st !! f) →
  valid_field st p → valid_field st' p.
Proof.
  intros Hfr [Hi|(f & fo & HS & Hst & Hpos)]; [by left|].
  right. exists f, fo. split; [done|]. split; [|done].
  rewrite Hfr; [done|]. by destruct HS as (_ & ? & _).
Qed.

Lemma valid_params_cons st q rest :
  valid_params st (q :: rest) →
  valid_field st q ∧ valid_params st rest
  ∧ ∀ f, MultipartParam.fileobj q = Some f → f ∉ sources rest.
Proof.
  intros [HF HN]. apply Forall_cons in HF as [Hq HF].
  unfold sources in HN. cbn [omap list_omap] in HN. fold (sources rest) in HN.
  destruct (MultipartParam.fileobj q) as [f|].
  - apply NoDup_cons in HN as [Hnot HN]. repeat split; try done.
    by intros f' [= <-].
  - by repeat split.
Qed.

Lemma top_calls_app evs1 evs2 :
  top_calls (evs1 ++ evs2) = top_calls evs1 ++ top_calls evs2.
Proof. apply omap_app. Qed.

Lemma top_calls_field_events g calls :
  top_calls (MultipartYielder.field_events g calls) = [].
Proof. induction calls as [|c calls IH]; [done|]. exact IH. Qed.

Lemma top_calls_call_cb y :
  top_calls (MultipartYielder.call_cb y)
  = if MultipartYielder.cb y
    then [(MultipartYielder.current y, MultipartYielder.total y)]
    else [].
Proof. unfold MultipartYielder.call_cb. by destruct (MultipartYielder.cb y). Qed.

Lemma step_ok_transfer y1 y res :
  MultipartYielder.params y1 = MultipartYielder.params y →
  MultipartYielder.boundary y1 = MultipartYielder.boundary y →
  MultipartYielder.cb y1 = MultipartYielder.cb y →
  MultipartYielder.total y1 = MultipartYielder.total y →
  MultipartYielder.current y1 = MultipartYielder.current y →
  (MultipartYielder.i y1 = None → MultipartYielder.i y = None) →
  step_ok y1 res → step_ok y res.
Proof.
  intros Hp Hb Hc Ht Hcur Hi. destruct res as [[[evs r] y'] st'].
  unfold step_ok. rewrite Hp, Hb, Hc, Ht, Hcur.
  intros (? & ? & ? & ? & H). repeat split; try done.
  destruct r; [done| |done]. destruct H. split; auto.
Qed.

Lemma pull_ok y st g calls r g' st' :
  MultipartYielder.param_iter y = Some g →
  yielder_inv y st →
  MultipartParam.gen_next g st = (calls, r, g', st') →
  match r with
  | Yield block =>
      let y' := MultipartYielder.add_current
                  (MultipartYielder.set_iter y (MultipartYielder.p y)
                     (Some g')) (length block) in
      step_ok y (MultipartYielder.field_events g calls
                   ++ MultipartYielder.call_cb y', Yield block, y', st')
  | StopIteration =>
      MultipartParam.g_state g ≠ MultipartParam.GStart
      ∧ st' = st
      ∧ yielder_inv (MultipartYielder.set_iter
                       (MultipartYielder.set_iter y (MultipartYielder.p y)
                          (Some g')) None None) st
  | Raised _ => True
  end.
Proof.
  intros Hit (rem & sizes & Hg & Hsz & Hvalid & Hi) Hn.
  rewrite Hit in Hg. destruct Hg as (Hinv & Hbs & Hb & Hsrc).
  destruct (gen_next_shape _ _ _ _ _ _ Hn)
    as (Hself & Hb' & Hbs' & _ & _ & Hframe & _).
  pose proof (gen_next_inv _ _ _ _ _ _ _ Hinv Hbs Hn) as Hstep.
  destruct r as [block| |e]; [| |done].
  - destruct Hstep as (Hne & rem' & -> & Hinv').
    cbn zeta. unfold step_ok. repeat split; try done.
    + exists rem', sizes.
      cbn [MultipartYielder.add_current MultipartYielder.set_iter
           MultipartYielder.param_iter MultipartYielder.boundary
           MultipartYielder.i MultipartYielder.params
           MultipartYielder.current MultipartYielder.total pending].
      fold (pending y). split; [|split; [done|split]].
      * repeat split; try congruence. intros f Hf. apply Hsrc. congruence.
      * destruct Hvalid as [HF HN]. split; [|done].
        apply Forall_forall. intros q Hq.
        eapply valid_field_frame; [|by eapply Forall_forall in HF].
        intros f Hf. apply Hframe. intros Hg.
        apply (Hsrc f Hg). by eapply sources_elem.
      * destruct (MultipartYielder.i y) as [n|].
        -- destruct Hi as [? Hi]. split; [done|]. lia.
        -- destruct Hi as [Hi _]. congruence.
    + rewrite top_calls_app, top_calls_field_events, top_calls_call_cb.
      reflexivity.
    + cbn. intros Hnone. rewrite Hnone in Hi. destruct Hi as [Hi _].
      congruence.
  - destruct Hstep as (-> & -> & Hs). repeat split; try done.
    exists 0, sizes.
    cbn [MultipartYielder.set_iter MultipartYielder.param_iter
         MultipartYielder.boundary MultipartYielder.i
         MultipartYielder.params MultipartYielder.current
         MultipartYielder.total pending].
    fold (pending y). split; [done|]. split; [done|]. split; [done|].
    destruct (MultipartYielder.i y) as [n|]; [exact Hi|].
    destruct Hi as [Hi _]. congruence.
Qed.

Lemma advance_ok again evs y st :
  yielder_inv y st →
  MultipartYielder.param_iter y = None →
  top_calls evs = [] →
  (∀ y1 st1 g,
     MultipartYielder.param_iter y1 = Some g →
     MultipartParam.g_state g = MultipartParam.GStart →
     yielder_inv y1 st1 → step_ok y1 (again y1 st1)) →
  step_ok y (MultipartYielder.advance again evs y st).
Proof.
  intros (rem & sizes & Hg & Hsz & Hvalid & Hi) Hit Hevs Hagain.
  rewrite Hit in Hg. subst rem.
  unfold MultipartYielder.advance, pending in *.
  destruct (MultipartYielder.i y) as [n|] eqn:Hn; [|by repeat split].
  destruct Hi as [Hle Htot]. case_decide as Hend.
  - (* the closing boundary *)
    rewrite drop_ge in Hsz by done. apply Forall2_nil_inv_l in Hsz as ->.
    cbn [MultipartYielder.set_i MultipartYielder.set_iter
         MultipartYielder.boundary].
    destruct (encode_ascii _) as [block|e] eqn:Hblock; [|by repeat split].
    apply encode_ascii_Ok in Hblock as [-> _].
    unfold step_ok. repeat split; try done.
    + exists 0, []. cbn. repeat split; try constructor.
      rewrite !length_app. simpl in *. lia.
    + rewrite top_calls_app, Hevs, top_calls_call_cb. reflexivity.
  - (* the next field *)
    destruct (lookup_lt_is_Some_2 (MultipartYielder.params y) n
                ltac:(lia)) as [q Hq].
    rewrite Hq. rewrite (drop_S _ _ _ Hq) in Hsz, Hvalid.
    apply Forall2_cons_inv_l in Hsz as (sq & sizes' & Hsq & Hsz & ->).
    apply valid_params_cons in Hvalid as (Hvq & Hvrest & Hsrc).
    set (y1 := MultipartYielder.set_i _ _).
    assert (yielder_inv y1 st) as Hinv1.
    { exists sq, sizes'. subst y1.
      cbn [MultipartYielder.set_i MultipartYielder.set_iter
           MultipartYielder.param_iter MultipartYielder.boundary
           MultipartYielder.i MultipartYielder.params
           MultipartYielder.current MultipartYielder.total pending].
      rewrite Nat.add_1_r. destruct Hvrest as [? ?].
      repeat split; try done.
      - lia.
      - simpl in Htot. lia. }
    specialize (Hagain y1 st _ eq_refl eq_refl Hinv1).
    destruct (again y1 st) as [[[evs' r] y2] st2].
    apply (step_ok_transfer y1 y) in Hagain; try done.
    unfold step_ok in *. destruct Hagain as (? & ? & ? & ? & H).
    repeat split; try done.
    destruct r as [block| |e]; [|destruct H; congruence|done].
    destruct H as (? & ? & ? & H & ?). repeat split; try done.
    by rewrite top_calls_app, Hevs.
Qed.

Lemma next_start_ok d y st g :
  MultipartYielder.param_iter y = Some g →
  MultipartParam.g_state g = MultipartParam.GStart →
  yielder_inv y st →
  step_ok y (MultipartYielder.next (S d) y st).
Proof.
  intros Hit Hs Hinv. cbn [MultipartYielder.next]. rewrite Hit.
  destruct (MultipartParam.gen_next g st) as [[[calls r] g'] st'] eqn:Hn.
  pose proof (pull_ok _ _ _ _ _ _ _ Hit Hinv Hn) as H.
  destruct r as [block| |e]; [exact H| |by repeat split].
  by destruct H as [H _].
Qed.

Lemma next_ok d y st :
  yielder_inv y st → step_ok y (MultipartYielder.next (S (S d)) y st).
Proof.
  intros Hinv. cbn [MultipartYielder.next].
  destruct (MultipartYielder.param_iter y) as [g|] eqn:Hit.
  - destruct (MultipartParam.gen_next g st) as [[[calls r] g'] st'] eqn:Hn.
    pose proof (pull_ok _ _ _ _ _ _ _ Hit Hinv Hn) as H.
    destruct r as [block| |e]; [exact H| |by repeat split].
    destruct H as (_ & -> & Hinv2).
    eapply step_ok_transfer;
      [..|apply advance_ok; [exact Hinv2|done| |]]; try done.
    + apply top_calls_field_events.
    + intros y1 st1 g1. apply next_start_ok.
  - apply advance_ok; try done. intros y1 st1 g1. apply next_start_ok.
Qed.

(** ** Consuming the yielder *)

Lemma yielder_inv_le y st :
  yielder_inv y st → MultipartYielder.current y ≤ MultipartYielder.total y.
Proof.
  intros (rem & sizes & _ & _ & _ & Hi).
  destruct (MultipartYielder.i y); destruct Hi; lia.
Qed.

Lemma consume_finished fuel y st :
  yielder_inv y st → MultipartYielder.i y = None →
  outcome (consume fuel y st) = Exhausted →
  events (consume fuel y st) = [] ∧ chunks (consume fuel y st) = []
  ∧ MultipartYielder.current y = MultipartYielder.total y.
Proof.
  intros (rem & sizes & _ & _ & _ & Hi) Hnone. rewrite Hnone in Hi.
  destruct Hi as [Hit Hcur]. destruct fuel as [|fuel]; [done|].
  cbn [consume]. unfold next_depth. cbn [MultipartYielder.next].
  rewrite Hit. unfold MultipartYielder.advance. rewrite Hnone. done.
Qed.

Lemma consume_inv fuel : ∀ y st,
  yielder_inv y st →
  (MultipartYielder.total y - MultipartYielder.current y < fuel →
   outcome (consume fuel y st) ≠ OutOfFuel)
  ∧ (outcome (consume fuel y st) = Exhausted →
     MultipartYielder.current y + length (concat (chunks (consume fuel y st)))
     = MultipartYielder.total y
     ∧ Forall (fun x => MultipartYielder.current y ≤ x.1
                        ∧ x.2 = MultipartYielder.total y)
              (top_calls (events (consume fuel y st)))
     ∧ StronglySorted le (top_calls (events (consume fuel y st))).*1
     ∧ (MultipartYielder.i y ≠ None →
        last (chunks (consume fuel y st))
        = Some (lit "--" ++ MultipartYielder.boundary y ++ lit "--" ++ CRLF)
        ∧ (MultipartYielder.cb y = true →
           last (top_calls (events (consume fuel y st)))
           = Some (MultipartYielder.total y, MultipartYielder.total y)))).
Proof.
  induction fuel as [|fuel IH]; intros y st Hinv.
  { split; [lia|done]. }
  cbn [consume]. pose proof (next_ok 0 y st Hinv) as Hstep.
  unfold next_depth.
  destruct (MultipartYielder.next 2 y st) as [[[evs r] y'] st'].
  destruct Hstep as (Hp & Hb & Hcb & Ht & Hstep).
  destruct r as [block| |e]; cbn [outcome chunks events].
  - destruct Hstep as (Hne & Hinv' & Hcur & Htop & Hclose).
    destruct (IH y' st' Hinv') as [IH1 IH2]. split.
    + intros Hfuel. apply IH1. destruct block; [done|].
      simpl in Hcur. pose proof (yielder_inv_le _ _ Hinv'). lia.
    + intros Hout. destruct (IH2 Hout) as (Hlen & HF & HS & Hlast).
      assert (HF' : Forall (fun x => MultipartYielder.current y ≤ x.1
                                     ∧ x.2 = MultipartYielder.total y)
                      (top_calls (events (consume fuel y' st')))).
      { eapply Forall_impl; [exact HF|]. intros x [??]. split; [lia|].
        congruence. }
      rewrite top_calls_app, Htop. cbn [concat]. rewrite length_app.
      split; [lia|]. split; [|split; [|intros _]].
      * apply Forall_app. split; [|done].
        destruct (MultipartYielder.cb y); repeat constructor; simpl; lia.
      * destruct (MultipartYielder.cb y); [|done]. simpl.
        constructor; [done|]. apply Forall_fmap.
        eapply Forall_impl; [exact HF|]. intros x [??]. simpl. lia.
      * destruct (MultipartYielder.i y') as [n|] eqn:Hi'.
        -- destruct Hlast as [Hl1 Hl2]; [done|]. split.
           ++ rewrite last_cons, Hl1. by rewrite Hb.
           ++ intros Hc. rewrite last_app, Hl2 by congruence. by rewrite Ht.
        -- destruct (consume_finished fuel y' st' Hinv' Hi' Hout)
             as (-> & -> & Hfin).
           split; [by rewrite Hclose|].
           intros ->. simpl. do 2 f_equal. congruence.
  - split; [done|]. intros _. destruct Hstep as [Hnone Htop].
    rewrite Htop. simpl.
    destruct Hinv as (rem & sizes & _ & _ & _ & Hi). rewrite Hnone in Hi.
    destruct Hi as [_ Hi]. repeat split; try constructor; try lia; done.
  - split; [done|]. done.
Qed.

Lemma sum_sizes_Ok params boundary n :
  sum_sizes params boundary = Ok n →
  ∃ sizes,
    Forall2 (fun p k => MultipartParam.get_size p boundary = Ok k)
            params sizes
    ∧ sum_list sizes = n.
Proof.
  revert n. induction params as [|p params IH]; intros n; simpl.
  - intros [= <-]. exists []. by split.
  - intros H. apply bind_Ok in H as (k & Hk & H).
    apply bind_Ok in H as (m & Hm & [= <-]).
    destruct (IH m Hm) as (sizes & HF & Hs).
    exists (k :: sizes). split; [by constructor|]. simpl. lia.
Qed.

Lemma init_inv params boundary cb st y :
  valid_params st params →
  MultipartYielder.init params boundary cb = Ok y →
  yielder_inv y st
  ∧ y = MultipartYielder.mk params boundary cb (Some 0) None None 0
          (MultipartYielder.total y)
  ∧ get_body_size params boundary = Ok (MultipartYielder.total y).
Proof.
  intros Hvalid. unfold MultipartYielder.init. intros H.
  apply bind_Ok in H as (total & Htot & [= <-]).
  split; [|by split]. unfold get_body_size, MultipartParam.from_params in Htot.
  apply bind_Ok in Htot as (size & Hsize & [= <-]).
  apply sum_sizes_Ok in Hsize as (sizes & HF & <-).
  exists 0, sizes. cbn. rewrite drop_0. destruct Hvalid.
  repeat split; try done; lia.
Qed.

Lemma example_valid : valid_params Ex.disk [Ex.text_field; Ex.file_field].
Proof.
  split.
  - constructor; [|constructor; [|constructor]].
    + left. exists (lit "value1"). repeat split.
    + right. exists 0, (FileLike (lit "abcdefghi") 0). repeat split.
  - apply NoDup_singleton.
Qed.

(** ** Progress *)

(** C9. The progress a callback is told never goes down and ends at the
    total: for the callback of a valid field, over one full run of
    [iter_encode], where the total is [get_size]; and for the callback
    of the yielder over a valid field list, over one full consumption,
    where the total is [get_body_size]. *)
Theorem progress_monotone :
  (∀ (p : MultipartParam.t) (boundary : str) (blocksize : Z) (st : store)
     (fuel total : nat),
     valid_field st p → blocksize ≠ 0%Z → MultipartParam.cb p = true →
     MultipartParam.get_size p boundary = Ok total →
     let r := gen_consume fuel
                (MultipartParam.iter_encode p boundary blocksize) st in
     g_outcome r = Exhausted →
     StronglySorted le (g_calls r).*1
     ∧ Forall (fun x => x.2 = total) (g_calls r)
     ∧ last (g_calls r) = Some (total, total))
  ∧ (∀ (params : list MultipartParam.t) (boundary : str) (st : store)
       (y : MultipartYielder.t) (fuel : nat),
       valid_params st params →
       MultipartYielder.init params boundary true = Ok y →
       let r := consume fuel y st in
       outcome r = Exhausted →
       get_body_size params boundary = Ok (MultipartYielder.total y)
       ∧ StronglySorted le (top_calls (events r)).*1
       ∧ Forall (fun x => x.2 = MultipartYielder.total y)
                (top_calls (events r))
       ∧ last (top_calls (events r))
         = Some (MultipartYielder.total y, MultipartYielder.total y)).
Proof.
  split.
  - intros p boundary blocksize st fuel total Hv Hbs Hcb Hsz r Hout.
    subst r. destruct fuel as [|fuel]; [done|].
    cbn [gen_consume] in *.
    set (g := MultipartParam.iter_encode p boundary blocksize) in *.
    destruct (MultipartParam.gen_next g st) as [[[calls o] g'] st'] eqn:Hn.
    assert (Hinv : gen_inv g st total) by (by split).
    destruct (gen_next_shape _ _ _ _ _ _ Hn)
      as (Hself & _ & Hbsz & Hcalls & Hyield & _).
    pose proof (gen_next_inv _ _ _ _ _ _ _ Hinv Hbs Hn) as Hstep.
    cbn in Hcalls. subst calls.
    destruct o as [block| |e]; cbn in Hout |- *; [| |done].
    + destruct Hstep as (_ & rem' & _ & Hinv').
      destruct (Hyield block eq_refl) as (t & Hct & Ht).
      cbn in Ht. rewrite Hsz in Ht. injection Ht as <-.
      destruct (gen_consume_calls fuel g' st' rem' (length block) total
                  Hinv' ltac:(by rewrite Hbsz) Hct
                  ltac:(by rewrite Hself) Hout) as (HF & HS & HL).
      split; [done|]. split; [|done].
      eapply Forall_impl; [exact HF|]. by intros x [_ ?].
    + by destruct Hstep as (_ & _ & ?).
  - intros params boundary st y fuel Hvalid Hinit r Hout. subst r.
    destruct (init_inv _ _ _ _ _ Hvalid Hinit) as (Hinv & Hy & Hsize).
    destruct (proj2 (consume_inv fuel y st Hinv) Hout)
      as (_ & HF & HS & Hlast).
    split; [done|]. split; [done|]. split.
    + eapply Forall_impl; [exact HF|]. by intros x [_ ?].
    + apply Hlast; rewrite Hy; done.
Qed.

Lemma progress_monotone_witness :
  (g_calls (gen_consume 6
      (MultipartParam.iter_encode Ex.file_field (lit "XYZ") 4) Ex.disk)).*1
  = [115; 119; 123; 124; 126]
  ∧ last (g_calls (gen_consume 6
      (MultipartParam.iter_encode Ex.file_field (lit "XYZ") 4) Ex.disk))
    = Some (126, 126)
  ∧ last (top_calls (events
      (consume 238
         (MultipartYielder.mk [Ex.text_field; Ex.file_field] (lit "XYZ") true
            (Some 0) None None 0 237) Ex.disk)))
    = Some (237, 237).
Proof.
  split; [vm_compute; reflexivity|]. split.
  - refine (proj2 (proj2 (proj1 progress_monotone Ex.file_field (lit "XYZ") 4%Z
              Ex.disk 6 126 _ _ _ _ _))); try (vm_compute; reflexivity).
    + right. exists 0, (FileLike (lit "abcdefghi") 0). repeat split.
    + discriminate.
  - refine (proj2 (proj2 (proj2 (proj2 progress_monotone
              [Ex.text_field; Ex.file_field] (lit "XYZ") Ex.disk _ 238
              example_valid _ _))));
      vm_compute; reflexivity.
Defined.

(** ** Replay *)

Lemma same_files_refl srcs st : same_files srcs st st.
Proof. by intros f. Qed.

Lemma same_files_trans srcs st1 st2 st3 :
  same_files srcs st1 st2 → same_files srcs st2 st3 →
  same_files srcs st1 st3.
Proof.
  intros H1 H2 f. destruct (H1 f) as [Ha Hb]. destruct (H2 f) as [Hc Hd].
  split; [congruence|]. intros Hf. rewrite Hd, Hb; done.
Qed.

Lemma gen_next_same_files g st calls r g' st' params :
  MultipartParam.g_self g ∈ params →
  MultipartParam.gen_next g st = (calls, r, g', st') →
  same_files (sources params) st st'.
Proof.
  intros Hin Hn f.
  destruct (gen_next_shape _ _ _ _ _ _ Hn) as (_ & _ & _ & _ & _ & H1 & H2).
  split; [done|]. intros Hf. apply H1. intros Hsrc. apply Hf.
  by eapply sources_elem.
Qed.

Lemma advance_keeps again evs y st :
  wf_yielder y →
  MultipartYielder.param_iter y = None →
  (∀ y1 st1, wf_yielder y1 → next_keeps y1 st1 (again y1 st1)) →
  next_keeps y st (MultipartYielder.advance again evs y st).
Proof.
  intros [Hwf1 Hwf2] Hit Hagain. unfold MultipartYielder.advance.
  destruct (MultipartYielder.i y) as [n|] eqn:Hn.
  2:{ repeat split; try done. by apply Hwf1. }
  case_decide.
  - destruct (encode_ascii _) as [block|e]; by repeat split.
  - destruct (MultipartYielder.params y !! n) as [q|] eqn:Hq.
    2:{ by repeat split. }
    set (y1 := MultipartYielder.set_i _ _).
    assert (wf_yielder y1) as Hwf.
    { split; [done|]. intros g [= <-]. cbn.
      by eapply list_elem_of_lookup_2. }
    specialize (Hagain y1 st Hwf).
    by destruct (again y1 st) as [[[evs' r] y2] st2].
Qed.

Lemma next_keeps_depth d : ∀ y st,
  wf_yielder y → next_keeps y st (MultipartYielder.next d y st).
Proof.
  induction d as [|d IH]; intros y st Hwf.
  { repeat split; try done; apply Hwf. }
  cbn [MultipartYielder.next].
  destruct (MultipartYielder.param_iter y) as [g|] eqn:Hit.
  2:{ by apply advance_keeps. }
  destruct (MultipartParam.gen_next g st) as [[[calls r] g'] st'] eqn:Hn.
  destruct (gen_next_shape _ _ _ _ _ _ Hn) as (Hself & _).
  assert (Hin : MultipartParam.g_self g ∈ MultipartYielder.params y)
    by (by apply Hwf).
  pose proof (gen_next_same_files _ _ _ _ _ _ _ Hin Hn) as Hsame.
  assert (Hwf' : wf_yielder
            (MultipartYielder.set_iter y (MultipartYielder.p y) (Some g'))).
  { split; [done|]. intros g1 [= <-]. by rewrite Hself. }
  destruct r as [block| |e].
  - repeat split; try done; try apply Hsame.
    intros g1 [= <-]. cbn. by rewrite Hself.
  - set (y2 := MultipartYielder.set_iter _ None None).
    assert (wf_yielder y2) as Hwf2 by (by split).
    pose proof (advance_keeps (MultipartYielder.next d)
                  (MultipartYielder.field_events g calls) y2 st'
                  Hwf2 eq_refl IH) as H.
    destruct (MultipartYielder.advance _ _ y2 st') as [[[evs r] y3] st3].
    destruct H as (? & ? & ? & ? & ? & Hsame' & ?).
    split; [done|]. do 4 (split; [done|]). split; [|done].
    eapply same_files_trans; [apply Hsame|exact Hsame'].
  - split; [done|]. do 4 (split; [done|]). by split.
Qed.

Lemma consume_keeps fuel : ∀ y st,
  wf_yielder y →
  MultipartYielder.params (yielder (consume fuel y st))
  = MultipartYielder.params y
  ∧ MultipartYielder.boundary (yielder (consume fuel y st))
    = MultipartYielder.boundary y
  ∧ MultipartYielder.cb (yielder (consume fuel y st)) = MultipartYielder.cb y
  ∧ MultipartYielder.total (yielder (consume fuel y st))
    = MultipartYielder.total y
  ∧ same_files (sources (MultipartYielder.params y)) st
      (files (consume fuel y st))
  ∧ (outcome (consume fuel y st) = Exhausted →
     MultipartYielder.i (yielder (consume fuel y st)) = None
     ∧ MultipartYielder.param_iter (yielder (consume fuel y st)) = None
     ∧ MultipartYielder.p (yielder (consume fuel y st)) = None).
Proof.
  induction fuel as [|fuel IH]; intros y st Hwf.
  { cbn. repeat split; try done; apply same_files_refl. }
  cbn [consume].
  pose proof (next_keeps_depth next_depth y st Hwf) as H.
  destruct (MultipartYielder.next next_depth y st) as [[[evs r] y'] st'].
  destruct H as (Hwf' & Hp & Hb & Hc & Ht & Hsame & Hstop).
  destruct r as [block| |e]; cbn [yielder files outcome].
  - destruct (IH y' st' Hwf') as (? & ? & ? & ? & Hsame' & ?).
    repeat split; try congruence; try tauto.
    + eapply same_files_trans; [exact Hsame|]. by rewrite <- Hp.
    + eapply same_files_trans; [exact Hsame|]. by rewrite <- Hp.
  - repeat split; try done; try apply Hsame; by apply Hstop.
  - repeat split; try done; try apply Hsame.
Qed.

Lemma seek0_twice (o : option filelike) : seek0 <$> (seek0 <$> o) = seek0 <$> o.
Proof. by destruct o. Qed.

Lemma reset_params_lookup params : ∀ st,
  Forall (fun p => MultipartParam.value p ≠ None
                   ∨ MultipartParam.fileobj p ≠ None) params →
  ∃ st',
    MultipartYielder.reset_params params st = (Ok (), st')
    ∧ ∀ f, st' !! f = if decide (f ∈ sources params)
                      then seek0 <$> st !! f else st !! f.
Proof.
  induction params as [|p params IH]; intros st HF.
  { exists st. split; [done|]. intros f. case_decide as H; [|done].
    by apply elem_of_nil in H. }
  apply Forall_cons in HF as [Hp HF].
  cbn [MultipartYielder.reset_params]. unfold MultipartParam.reset.
  unfold sources. cbn [omap list_omap]. fold (sources params).
  destruct (MultipartParam.fileobj p) as [f0|].
  - destruct (IH (file_seek0 f0 st) HF) as (st' & -> & Hst').
    exists st'. split; [done|]. intros f. rewrite Hst'.
    unfold file_seek0. rewrite lookup_alter.
    repeat case_decide; subst; try done; try apply seek0_twice;
      exfalso; rewrite ?elem_of_cons in *; intuition congruence.
  - destruct (MultipartParam.value p); [|by destruct Hp].
    destruct (IH st HF) as (st' & -> & Hst'). eauto.
Qed.

(** C8. After a full consumption of a yielder whose fields each have a
    value or a source, the sources at their start when it began,
    [reset] succeeds, and consuming again yields the same chunks, byte
    for byte, and ends the same way. *)
Theorem replay_same (params : list MultipartParam.t) (boundary : str)
    (cb : bool) (st : store) (y : MultipartYielder.t) (fuel : nat) :
  MultipartYielder.init params boundary cb = Ok y →
  Forall (fun p => MultipartParam.value p ≠ None
                   ∨ MultipartParam.fileobj p ≠ None) params →
  (∀ f, f ∈ sources params →
        ∃ fo, st !! f = Some fo ∧ position fo = 0) →
  outcome (consume fuel y st) = Exhausted →
  ∃ y2 st2,
    MultipartYielder.reset (yielder (consume fuel y st))
      (files (consume fuel y st)) = (Ok (), y2, st2)
    ∧ chunks (consume fuel y2 st2) = chunks (consume fuel y st)
    ∧ outcome (consume fuel y2 st2) = Exhausted.
Proof.
  intros Hinit Hfields Hstart Hout.
  unfold MultipartYielder.init in Hinit.
  apply bind_Ok in Hinit as (total & _ & [= <-]).
  set (y := MultipartYielder.mk params boundary cb (Some 0) None None 0 total)
    in *.
  assert (wf_yielder y) as Hwf by (by split).
  destruct (consume_keeps fuel y st Hwf)
    as (Hp & Hb & Hc & Ht & Hsame & Hend).
  destruct (Hend Hout) as (Hi & Hit & Hpp).
  destruct (reset_params_lookup params (files (consume fuel y st)) Hfields)
    as (st2 & Hreset & Hst2).
  assert (st2 = st) as ->.
  { apply map_eq. intros f. rewrite Hst2. destruct (Hsame f) as [Hcont Hout'].
    case_decide as Hf; [|by apply Hout'].
    destruct (Hstart f Hf) as (fo & Hfo & Hpos).
    rewrite Hfo in Hcont |- *.
    destruct (files (consume fuel y st) !! f) as [fo'|]; [|done].
    injection Hcont as Hcont. destruct fo, fo'.
    simpl in Hcont, Hpos |- *. unfold seek0. simpl. congruence. }
  exists y, st. split; [|done].
  unfold MultipartYielder.reset.
  cbn [MultipartYielder.set_i MultipartYielder.params
       MultipartYielder.boundary MultipartYielder.cb MultipartYielder.i
       MultipartYielder.p MultipartYielder.param_iter
       MultipartYielder.total].
  rewrite Hp, Hb, Hc, Ht, Hit, Hpp. subst y. cbn.
  by rewrite Hreset.
Qed.

Lemma replay_same_witness :
  outcome (consume 238
     (MultipartYielder.mk [Ex.text_field; Ex.file_field] (lit "XYZ") true
        (Some 0) None None 0 237) Ex.disk) = Exhausted
  ∧ ∃ y2 st2,
      MultipartYielder.reset
        (yielder (consume 238
           (MultipartYielder.mk [Ex.text_field; Ex.file_field] (lit "XYZ")
              true (Some 0) None None 0 237) Ex.disk))
        (files (consume 238
           (MultipartYielder.mk [Ex.text_field; Ex.file_field] (lit "XYZ")
              true (Some 0) None None 0 237) Ex.disk)) = (Ok (), y2, st2)
      ∧ chunks (consume 238 y2 st2)
        = chunks (consume 238
            (MultipartYielder.mk [Ex.text_field; Ex.file_field] (lit "XYZ")
               true (Some 0) None None 0 237) Ex.disk)
      ∧ outcome (consume 238 y2 st2) = Exhausted.
Proof.
  split; [vm_compute; reflexivity|].
  apply (replay_same [Ex.text_field; Ex.file_field] (lit "XYZ") true Ex.disk).
  - vm_compute. reflexivity.
  - constructor; [left; discriminate|].
    constructor; [right; discriminate|constructor].
  - intros f Hf. apply list_elem_of_singleton in Hf as ->.
    exists (FileLike (lit "abcdefghi") 0). split; reflexivity.
  - vm_compute. reflexivity.
Defined.

(** ** Bodies without the marker are encoded to the end *)

Lemma collision_free_frame st st' boundary p :
  (∀ f, content <$> st' !! f = content <$> st !! f) →
  collision_free st boundary p → collision_free st' boundary p.
Proof.
  intros Hfr. unfold collision_free.
  destruct (MultipartParam.value p); [done|].
  intros H f fo' q Hf Hst' Hq. specialize (Hfr f). rewrite Hst' in Hfr.
  destruct (st !! f) as [fo|] eqn:Hst; [|done].
  injection Hfr as ->. by eapply H.
Qed.

Lemma encode_hdr_boundary_Ok p boundary hdr :
  MultipartParam.encode_hdr p boundary = Ok hdr →
  ∃ b q, encode_utf8 boundary = Ok b ∧ quote_plus boundary = Ok q
         ∧ encode_ascii q = Ok q.
Proof.
  intros Hh. pose proof Hh as Hh'. rewrite encode_hdr_eq in Hh'.
  apply bind_Ok in Hh' as (q & Hq & _).
  pose proof Hq as Hq'. unfold quote_plus in Hq'.
  apply bind_Ok in Hq' as (b & Hb & _).
  exists b, q. split; [done|]. split; [done|].
  by eapply encode_hdr_quote_ascii.
Qed.

Lemma read_step_clean g lb eb c t st f fo r g' st' :
  MultipartParam.fileobj (MultipartParam.g_self g) = Some f →
  st !! f = Some fo →
  no_marker eb (content fo) →
  (∃ before, take (position fo) (content fo) = before ++ lb) →
  MultipartParam.read_step g lb eb c t st = (r, g', st') →
  match r with
  | Yield _ => gen_clean g' st'
  | StopIteration => True
  | Raised _ => False
  end.
Proof.
  intros Hf Hst Hno [before Hlb]. unfold MultipartParam.read_step.
  rewrite Hf.
  destruct (file_read_lookup (MultipartParam.g_blocksize g) f st fo Hst)
    as (block & -> & Hsplit & _).
  assert (Hcontent : content fo
                     = before ++ (lb ++ block)
                       ++ drop (position fo + length block) (content fo)).
  { rewrite <- (take_drop (position fo) (content fo)) at 1.
    rewrite Hlb, <- Hsplit, <- !app_assoc. reflexivity. }
  destruct block as [|b0 block]; [by intros [= <- <- <-]|].
  destruct (re_search_line eb (lb ++ b0 :: block)) eqn:Hsearch.
  - apply re_search_line_true in Hsearch as (pre & post & Hl & _ & _).
    exfalso. apply (Hno (before ++ pre)
      (post ++ drop (position fo + length (b0 :: block)) (content fo))).
    etrans; [exact Hcontent|]. rewrite Hl, <- !app_assoc. reflexivity.
  - intros [= <- <- <-]. unfold gen_clean.
    cbn [MultipartParam.set_state MultipartParam.g_state
         MultipartParam.g_self].
    intros f1 fo1 Hf1 Hst1. rewrite Hf in Hf1. injection Hf1 as <-.
    rewrite lookup_insert_eq in Hst1. injection Hst1 as <-.
    cbn [content position]. split; [done|].
    unfold last_bytes.
    exists (before ++ take (length (lb ++ b0 :: block) - (length eb + 2))
                       (lb ++ b0 :: block)).
    rewrite <- app_assoc, take_drop.
    assert (b0 :: block
            = take (length (b0 :: block)) (drop (position fo) (content fo)))
      as Hblock.
    { rewrite <- Hsplit. by rewrite take_app_length. }
    change (S (length block)) with (length (b0 :: block)).
    rewrite <- take_take_drop, Hlb, <- Hblock, <- app_assoc. reflexivity.
Qed.

Lemma gen_next_clean g st rem calls r g' st' :
  gen_inv g st rem → gen_clean g st →
  MultipartParam.gen_next g st = (calls, r, g', st') →
  match r with
  | Yield _ => gen_clean g' st'
  | StopIteration => True
  | Raised _ => False
  end.
Proof.
  intros Hinv Hclean Hn. unfold gen_inv in Hinv. unfold gen_clean in Hclean.
  unfold MultipartParam.gen_next in Hn.
  destruct (MultipartParam.g_state g) as [|c t|c t|lb eb c t|c t|] eqn:Hs.
  - destruct Hinv as [Hv Hsz]. rewrite Hsz in Hn.
    apply get_size_Ok in Hsz as (hdr & Hh & Hsz).
    destruct (encode_hdr_boundary_Ok _ _ _ Hh) as (b & q & Hb & Hq & Ha).
    unfold collision_free in Hclean.
    destruct Hv as [(text & Hval & Hfo & Hfs)
                   |(f & fo & (Hval & Hfo & Hfs) & Hst & Hpos)].
    + destruct Hsz as [(k & Hk & _)|(text' & v & _ & Hval' & Hv & ->)];
        [congruence|].
      rewrite Hval in Hn, Hclean. unfold MultipartParam.encode in Hn.
      rewrite Hval in Hn. rewrite Hval in Hval'. injection Hval' as <-.
      rewrite Hv, Hb, Hh in Hn. cbn [mbind result_bind] in Hn.
      destruct (re_search_line (lit "--" ++ b) v) eqn:Hsearch.
      * apply re_search_line_true in Hsearch. by destruct (Hclean v b).
      * by injection Hn as _ <- <- <-.
    + rewrite Hval in Hn, Hclean. rewrite Hh in Hn.
      injection Hn as _ <- <- <-. unfold gen_clean. cbn. split; [eauto|].
      exact Hclean.
  - by injection Hn as _ <- _ _.
  - destruct Hinv as (f & fo & Hf & Hst & _).
    destruct Hclean as [(q & Hq & Ha) Hclean].
    unfold encode_and_quote in Hn. rewrite Hq in Hn.
    cbn [mbind result_bind] in Hn. rewrite Ha in Hn.
    destruct (MultipartParam.read_step _ _ _ _ _ _) as [[r1 g1] st1] eqn:Hr.
    injection Hn as _ <- <- <-.
    eapply read_step_clean; [exact Hf|exact Hst| | |exact Hr].
    + by eapply Hclean.
    + exists (take (position fo) (content fo)). by rewrite app_nil_r.
  - destruct Hinv as (f & fo & Hf & Hst & _).
    destruct (Hclean f fo Hf Hst) as [Hno Hlb].
    destruct (MultipartParam.read_step _ _ _ _ _ _) as [[r1 g1] st1] eqn:Hr.
    injection Hn as _ <- <- <-.
    by eapply read_step_clean.
  - by injection Hn as _ <- _ _.
  - by injection Hn as _ <- _ _.
Qed.

Lemma start_field_inv y st n q :
  yielder_inv y st →
  MultipartYielder.param_iter y = None →
  MultipartYielder.i y = Some n →
  MultipartYielder.params y !! n = Some q →
  yielder_inv
    (MultipartYielder.set_i
       (MultipartYielder.set_iter y (Some q)
          (Some (MultipartParam.iter_encode q (MultipartYielder.boundary y)
                   MultipartYielder.default_blocksize)))
       (Some (n + 1))) st.
Proof.
  intros (rem & sizes & Hg & Hsz & Hvalid & Hi) Hit Hn Hq.
  rewrite Hit in Hg. subst rem. unfold pending in *. rewrite Hn in *.
  destruct Hi as [Hle Htot].
  rewrite (drop_S _ _ _ Hq) in Hsz, Hvalid.
  apply Forall2_cons_inv_l in Hsz as (sq & sizes' & Hsq & Hsz & ->).
  apply valid_params_cons in Hvalid as (Hvq & [? ?] & Hsrc).
  apply lookup_lt_Some in Hq.
  exists sq, sizes'.
  cbn [MultipartYielder.set_i MultipartYielder.set_iter
       MultipartYielder.param_iter MultipartYielder.boundary
       MultipartYielder.i MultipartYielder.params
       MultipartYielder.current MultipartYielder.total pending].
  rewrite Nat.add_1_r. repeat split; try done.
  simpl in Htot. lia.
Qed.

Lemma pull_clean y st g calls r g' st' :
  MultipartYielder.param_iter y = Some g →
  yielder_inv y st → yielder_clean y st →
  MultipartParam.gen_next g st = (calls, r, g', st') →
  match r with
  | Yield block =>
      yielder_clean
        (MultipartYielder.add_current
           (MultipartYielder.set_iter y (MultipartYielder.p y) (Some g'))
           (length block)) st'
  | StopIteration =>
      yielder_clean
        (MultipartYielder.set_iter
           (MultipartYielder.set_iter y (MultipartYielder.p y) (Some g'))
           None None) st'
  | Raised _ => False
  end.
Proof.
  intros Hit (rem & sizes & Hg & _) (Ha & Hfree & Hgc) Hn.
  rewrite Hit in Hg, Hgc. destruct Hg as (Hinv & _).
  pose proof (gen_next_clean _ _ _ _ _ _ _ Hinv Hgc Hn) as Hstep.
  destruct (gen_next_shape _ _ _ _ _ _ Hn) as (_ & _ & _ & _ & _ & _ & Hfr).
  assert (Forall (collision_free st' (MultipartYielder.boundary y))
                 (pending y)) as Hfree'.
  { eapply Forall_impl; [exact Hfree|]. intros q.
    by apply collision_free_frame. }
  destruct r as [block| |e]; [| |done]; by repeat split.
Qed.

Lemma closing_ascii boundary :
  encode_ascii boundary = Ok boundary →
  encode_ascii (lit "--" ++ boundary ++ lit "--" ++ CRLF)
  = Ok (lit "--" ++ boundary ++ lit "--" ++ CRLF).
Proof.
  unfold encode_ascii. rewrite !forallb_app.
  destruct (forallb is_ascii boundary); [|done]. reflexivity.
Qed.

Lemma advance_clean again evs y st :
  yielder_inv y st → yielder_clean y st →
  MultipartYielder.param_iter y = None →
  (∀ y1 st1 g,
     MultipartYielder.param_iter y1 = Some g →
     MultipartParam.g_state g = MultipartParam.GStart →
     yielder_inv y1 st1 → yielder_clean y1 st1 →
     step_clean (again y1 st1)) →
  step_clean (MultipartYielder.advance again evs y st).
Proof.
  intros Hinv (Ha & Hfree & _) Hit Hagain.
  pose proof Hinv as (rem & sizes & _ & _ & _ & Hi).
  unfold MultipartYielder.advance.
  destruct (MultipartYielder.i y) as [n|] eqn:Hn; [|done].
  destruct Hi as [Hle _]. case_decide as Hend.
  - cbn [MultipartYielder.set_i MultipartYielder.set_iter
         MultipartYielder.boundary].
    rewrite (closing_ascii _ Ha). by repeat split.
  - destruct (lookup_lt_is_Some_2 (MultipartYielder.params y) n
                ltac:(lia)) as [q Hq].
    rewrite Hq.
    pose proof (start_field_inv _ _ _ _ Hinv Hit Hn Hq) as Hinv1.
    set (y1 := MultipartYielder.set_i _ _) in *.
    assert (yielder_clean y1 st) as Hclean1.
    { unfold pending in Hfree. rewrite Hn, (drop_S _ _ _ Hq) in Hfree.
      apply Forall_cons in Hfree as [Hq1 Hrest].
      subst y1. unfold yielder_clean, pending. cbn. rewrite Nat.add_1_r.
      by repeat split. }
    specialize (Hagain y1 st _ eq_refl eq_refl Hinv1 Hclean1).
    by destruct (again y1 st) as [[[evs' r] y2] st2].
Qed.

Lemma next_start_clean d y st g :
  MultipartYielder.param_iter y = Some g →
  MultipartParam.g_state g = MultipartParam.GStart →
  yielder_inv y st → yielder_clean y st →
  step_clean (MultipartYielder.next (S d) y st).
Proof.
  intros Hit Hs Hinv Hclean. cbn [MultipartYielder.next]. rewrite Hit.
  destruct (MultipartParam.gen_next g st) as [[[calls r] g'] st'] eqn:Hn.
  pose proof (pull_clean _ _ _ _ _ _ _ Hit Hinv Hclean Hn) as H.
  pose proof (pull_ok _ _ _ _ _ _ _ Hit Hinv Hn) as H'.
  destruct r as [block| |e]; [exact H| |done].
  by destruct H' as [H' _].
Qed.

Lemma next_clean d y st :
  yielder_inv y st → yielder_clean y st →
  step_clean (MultipartYielder.next (S (S d)) y st).
Proof.
  intros Hinv Hclean. cbn [MultipartYielder.next].
  destruct (MultipartYielder.param_iter y) as [g|] eqn:Hit.
  - destruct (MultipartParam.gen_next g st) as [[[calls r] g'] st'] eqn:Hn.
    pose proof (pull_clean _ _ _ _ _ _ _ Hit Hinv Hclean Hn) as H.
    pose proof (pull_ok _ _ _ _ _ _ _ Hit Hinv Hn) as H'.
    destruct r as [block| |e]; [exact H| |done].
    destruct H' as (_ & -> & Hinv2).
    apply advance_clean; try done.
    intros y1 st1 g1. apply next_start_clean.
  - apply advance_clean; try done. intros y1 st1 g1. apply next_start_clean.
Qed.

Lemma consume_clean fuel : ∀ y st e,
  yielder_inv y st → yielder_clean y st →
  outcome (consume fuel y st) ≠ Failed e.
Proof.
  induction fuel as [|fuel IH]; intros y st e Hinv Hclean; [done|].
  cbn [consume]. unfold next_depth.
  pose proof (next_ok 0 y st Hinv) as Hstep.
  pose proof (next_clean 0 y st Hinv Hclean) as Hstep'.
  destruct (MultipartYielder.next 2 y st) as [[[evs r] y'] st'].
  destruct Hstep as (_ & _ & _ & _ & Hstep).
  destruct r as [block| |e']; cbn [outcome]; [|done|done].
  apply IH; [by destruct Hstep as (_ & ? & _)|done].
Qed.

(** ** The nesting of [__next__]

    The call of [__next__] by itself always finds a fresh generator,
    which yields or raises at its first pull: depth two is never
    exceeded, whatever the state. *)

Lemma bind_Raise {A B} (m : result A) (f : A → result B) (e : exn) :
  m ≫= f = Raise e → m = Raise e ∨ ∃ a, m = Ok a ∧ f a = Raise e.
Proof. destruct m as [a|e']; simpl; [eauto|]. intros [= ->]. by left. Qed.

Lemma quote_plus_Raise s e : quote_plus s = Raise e → e = UnicodeEncodeError.
Proof.
  unfold quote_plus. intros [H|(b & _ & H)]%bind_Raise; [|done].
  by eapply encode_utf8_Raise.
Qed.

Lemma get_size_Raise p boundary e :
  MultipartParam.get_size p boundary = Raise e →
  e = UnicodeEncodeError ∨ e = AttributeError.
Proof.
  unfold MultipartParam.get_size.
  intros [H|(n & _ & [H|(hdr & _ & H)]%bind_Raise)]%bind_Raise.
  - destruct (MultipartParam.filesize p); [done|].
    destruct (MultipartParam.value p); [|injection H as <-; by right].
    apply bind_Raise in H as [H|(b & _ & H)]; [|done].
    left. by eapply encode_utf8_Raise.
  - left. by eapply encode_hdr_Raise.
  - done.
Qed.

Lemma encode_Raise p boundary st e st' :
  MultipartParam.encode p boundary st = (Raise e, st') →
  e ≠ RecursionError.
Proof.
  unfold MultipartParam.encode.
  destruct (MultipartParam.value p) as [v|].
  - intros [= H _].
    apply bind_Raise in H as [H|(x & _ & H)];
      [apply encode_utf8_Raise in H; by subst|].
    apply bind_Raise in H as [H|(b & _ & H)];
      [apply encode_utf8_Raise in H; by subst|].
    destruct (re_search_line _ _); [by injection H as <-|].
    apply bind_Raise in H as [H|(hdr & _ & H)]; [|done].
    apply encode_hdr_Raise in H. by subst.
  - destruct (MultipartParam.fileobj p) as [f|]; [|by intros [= <- _]].
    destruct (file_read _ _ _) as [x st1]. intros [= H _].
    apply bind_Raise in H as [H|(hdr & _ & H)]; [|done].
    apply encode_hdr_Raise in H. by subst.
Qed.

Lemma read_step_Raised g lb eb c t st e g' st' :
  MultipartParam.read_step g lb eb c t st = (Raised e, g', st') →
  e ≠ RecursionError.
Proof.
  unfold MultipartParam.read_step.
  destruct (MultipartParam.fileobj _) as [f|]; [|by intros [= <- _ _]].
  destruct (file_read _ _ _) as [[|b0 block] st1]; [done|].
  destruct (re_search_line _ _); [by intros [= <- _ _]|done].
Qed.

Lemma gen_next_Raised g st calls e g' st' :
  MultipartParam.gen_next g st = (calls, Raised e, g', st') →
  e ≠ RecursionError.
Proof.
  unfold MultipartParam.gen_next.
  destruct (MultipartParam.g_state g) as [|c t|c t|lb eb c t|c t|]; try done.
  - destruct (MultipartParam.get_size _ _) as [total|e0] eqn:Hsz.
    2:{ intros [= _ <- _ _]. by destruct (get_size_Raise _ _ _ Hsz) as [->| ->]. }
    destruct (MultipartParam.value _).
    + destruct (MultipartParam.encode _ _ _) as [[block|e0] st1] eqn:He;
        [done|]. intros [= _ <- _ _]. by eapply encode_Raise.
    + destruct (MultipartParam.encode_hdr _ _) as [hdr|e0] eqn:Hh; [done|].
      intros [= _ <- _ _]. apply encode_hdr_Raise in Hh. by subst.
  - destruct (encode_and_quote _ ≫= _) as [q|e0] eqn:Hq.
    + destruct (MultipartParam.read_step _ _ _ _ _ _)
        as [[r1 g1] st1] eqn:Hr.
      intros [= _ -> _ _]. by eapply read_step_Raised.
    + intros [= _ <- _ _].
      apply bind_Raise in Hq as [Hq|(q & _ & Hq)].
      * apply quote_plus_Raise in Hq. by subst.
      * apply encode_ascii_Raise in Hq. by subst.
  - destruct (MultipartParam.read_step _ _ _ _ _ _) as [[r1 g1] st1] eqn:Hr.
    intros [= _ -> _ _]. by eapply read_step_Raised.
Qed.

Lemma gen_next_start g st calls g' st' :
  MultipartParam.g_state g = MultipartParam.GStart →
  MultipartParam.gen_next g st ≠ (calls, StopIteration, g', st').
Proof.
  intros Hs. unfold MultipartParam.gen_next. rewrite Hs.
  destruct (MultipartParam.get_size _ _); [|done].
  destruct (MultipartParam.value _).
  - by destruct (MultipartParam.encode _ _ _) as [[?|?] ?].
  - by destruct (MultipartParam.encode_hdr _ _).
Qed.

Lemma next_depth_enough y st evs e y' st' :
  MultipartYielder.next next_depth y st = (evs, Raised e, y', st') →
  e ≠ RecursionError.
Proof.
  assert (Hfresh : ∀ y1 st1 g evs1 e1 y2 st2,
    MultipartYielder.param_iter y1 = Some g →
    MultipartParam.g_state g = MultipartParam.GStart →
    MultipartYielder.next 1 y1 st1 = (evs1, Raised e1, y2, st2) →
    e1 ≠ RecursionError).
  { intros y1 st1 g evs1 e1 y2 st2 Hit Hs. cbn [MultipartYielder.next].
    rewrite Hit.
    destruct (MultipartParam.gen_next g st1) as [[[calls r] g1] st3] eqn:Hn.
    destruct r as [block| |e0]; [done| |].
    - by apply gen_next_start in Hn.
    - intros [= _ <- _ _]. by eapply gen_next_Raised. }
  assert (Hadv : ∀ evs0 y0 st0,
    MultipartYielder.advance (MultipartYielder.next 1) evs0 y0 st0
    = (evs, Raised e, y', st') → e ≠ RecursionError).
  { intros evs0 y0 st0. unfold MultipartYielder.advance.
    destruct (MultipartYielder.i y0) as [n|]; [|done].
    case_decide.
    - destruct (encode_ascii _) as [block|e0] eqn:Ha; [done|].
      intros [= _ <- _ _]. apply encode_ascii_Raise in Ha. by subst.
    - destruct (MultipartYielder.params y0 !! n) as [q|];
        [|by intros [= _ <- _ _]].
      destruct (MultipartYielder.next 1 _ st0)
        as [[[evs1 r1] y2] st2] eqn:Hn.
      intros [= _ -> _ _]. by eapply Hfresh in Hn. }
  unfold next_depth. cbn [MultipartYielder.next].
  destruct (MultipartYielder.param_iter y) as [g|]; [|apply Hadv].
  destruct (MultipartParam.gen_next g st) as [[[calls r] g1] st1] eqn:Hn.
  destruct r as [block| |e0]; [done|apply Hadv|].
  intros [= _ <- _ _]. by eapply gen_next_Raised.
Qed.

(** ** Size and stream agree *)

(** C1. Over a valid field list, consuming the yielder ends, with fuel
    above the computed total; it ends without an exception when the
    boundary is ASCII and no body holds the marker; and whenever it ends
    without an exception the chunks it yielded, the closing boundary
    last, add up to exactly [get_body_size]. *)
Theorem size_stream_agreement (params : list MultipartParam.t)
    (boundary : str) (cb : bool) (st : store) (y : MultipartYielder.t) :
  valid_params st params →
  MultipartYielder.init params boundary cb = Ok y →
  (∀ fuel, MultipartYielder.total y < fuel →
     outcome (consume fuel y st) ≠ OutOfFuel)
  ∧ (encode_ascii boundary = Ok boundary →
     Forall (collision_free st boundary) params →
     ∀ fuel, MultipartYielder.total y < fuel →
       outcome (consume fuel y st) = Exhausted)
  ∧ (∀ fuel, outcome (consume fuel y st) = Exhausted →
       get_body_size params boundary
       = Ok (length (concat (chunks (consume fuel y st))))
       ∧ last (chunks (consume fuel y st))
         = Some (lit "--" ++ boundary ++ lit "--" ++ CRLF)).
Proof.
  intros Hvalid Hinit.
  destruct (init_inv _ _ _ _ _ Hvalid Hinit) as (Hinv & Hy & Hsize).
  assert (Hfuel : ∀ fuel, MultipartYielder.total y < fuel →
                    outcome (consume fuel y st) ≠ OutOfFuel).
  { intros fuel Hfuel. apply (consume_inv fuel y st Hinv). lia. }
  split; [exact Hfuel|]. split.
  - intros Ha Hfree fuel Hlt.
    assert (yielder_clean y st) as Hclean.
    { rewrite Hy. unfold yielder_clean, pending. cbn. by rewrite drop_0. }
    pose proof (Hfuel fuel Hlt) as H1.
    pose proof (fun e => consume_clean fuel y st e Hinv Hclean) as H2.
    destruct (outcome (consume fuel y st)) as [|e|]; [done| |done].
    by destruct (H2 e).
  - intros fuel Hout.
    destruct (proj2 (consume_inv fuel y st Hinv) Hout)
      as (Hlen & _ & _ & Hlast).
    rewrite Hy in Hlen, Hlast. cbn in Hlen, Hlast.
    destruct Hlast as [Hlast _]; [done|]. rewrite <- Hy in Hlast.
    split; [|done]. rewrite Hsize. f_equal. rewrite <- Hy in Hlen. lia.
Qed.

Lemma size_stream_agreement_witness :
  valid_params Ex.disk [Ex.text_field; Ex.file_field]
  ∧ get_body_size [Ex.text_field; Ex.file_field] (lit "XYZ") = Ok 237
  ∧ outcome (consume 238
      (MultipartYielder.mk [Ex.text_field; Ex.file_field] (lit "XYZ") true
         (Some 0) None None 0 237) Ex.disk) = Exhausted
  ∧ get_body_size [Ex.text_field; Ex.file_field] (lit "XYZ")
    = Ok (length (concat (chunks
        (consume 238
           (MultipartYielder.mk [Ex.text_field; Ex.file_field] (lit "XYZ")
              true (Some 0) None None 0 237) Ex.disk)))).
Proof.
  pose proof example_valid as Hv.
  assert (Hi : MultipartYielder.init [Ex.text_field; Ex.file_field]
                 (lit "XYZ") true
               = Ok (MultipartYielder.mk [Ex.text_field; Ex.file_field]
                       (lit "XYZ") true (Some 0) None None 0 237))
    by (vm_compute; reflexivity).
  destruct (size_stream_agreement _ _ _ _ _ Hv Hi) as (_ & _ & H).
  assert (Ho : outcome (consume 238
      (MultipartYielder.mk [Ex.text_field; Ex.file_field] (lit "XYZ") true
         (Some 0) None None 0 237) Ex.disk) = Exhausted)
    by (vm_compute; reflexivity).
  split; [exact Hv|]. split; [vm_compute; reflexivity|].
  split; [exact Ho|]. exact (proj1 (H 238 Ho)).
Defined.


(** * Further properties of the encoder *)

(** ** Progress is the count of the bytes yielded *)

Lemma advance_counts again evs y st :
  top_calls evs = [] →
  (∀ y1 st1,
     let '(evs', r, y', st') := again y1 st1 in
     MultipartYielder.total y' = MultipartYielder.total y1
     ∧ MultipartYielder.cb y' = MultipartYielder.cb y1
     ∧ match r with
       | Yield block =>
           MultipartYielder.current y'
           = MultipartYielder.current y1 + length block
           ∧ top_calls evs'
             = (if MultipartYielder.cb y1
                then [(MultipartYielder.current y', MultipartYielder.total y1)]
                else [])
       | _ => MultipartYielder.current y' = MultipartYielder.current y1
              ∧ top_calls evs' = []
       end) →
  let '(evs', r, y', st') := MultipartYielder.advance again evs y st in
  MultipartYielder.total y' = MultipartYielder.total y
  ∧ MultipartYielder.cb y' = MultipartYielder.cb y
  ∧ match r with
    | Yield block =>
        MultipartYielder.current y'
        = MultipartYielder.current y + length block
        ∧ top_calls evs'
          = (if MultipartYielder.cb y
             then [(MultipartYielder.current y', MultipartYielder.total y)]
             else [])
    | _ => MultipartYielder.current y' = MultipartYielder.current y
           ∧ top_calls evs' = []
    end.
Proof.
  intros Hevs Hagain. unfold MultipartYielder.advance.
  destruct (MultipartYielder.i y) as [n|]; [|done].
  case_decide.
  - cbn [MultipartYielder.set_i MultipartYielder.set_iter
         MultipartYielder.boundary].
    destruct (encode_ascii _) as [block|e]; [|done].
    repeat split; try done.
    by rewrite top_calls_app, Hevs, top_calls_call_cb.
  - destruct (MultipartYielder.params y !! n) as [q|]; [|done].
    match goal with |- context [again ?y1 ?st1] =>
      specialize (Hagain y1 st1); destruct (again y1 st1)
        as [[[evs' r] y2] st2] end.
    cbn in Hagain. destruct Hagain as (? & ? & Hr).
    split; [done|]. split; [done|]. rewrite top_calls_app, Hevs.
    destruct r; done.
Qed.

Lemma next_counts d : ∀ y st,
  let '(evs, r, y', st') := MultipartYielder.next d y st in
  MultipartYielder.total y' = MultipartYielder.total y
  ∧ MultipartYielder.cb y' = MultipartYielder.cb y
  ∧ match r with
    | Yield block =>
        MultipartYielder.current y'
        = MultipartYielder.current y + length block
        ∧ top_calls evs
          = (if MultipartYielder.cb y
             then [(MultipartYielder.current y', MultipartYielder.total y)]
             else [])
    | _ => MultipartYielder.current y' = MultipartYielder.current y
           ∧ top_calls evs = []
    end.
Proof.
  induction d as [|d IH]; intros y st; [done|].
  cbn [MultipartYielder.next].
  destruct (MultipartYielder.param_iter y) as [g|].
  2:{ by apply (advance_counts (MultipartYielder.next d) [] y st). }
  destruct (MultipartParam.gen_next g st) as [[[calls r] g'] st'].
  destruct r as [block| |e].
  - repeat split; try done.
    by rewrite top_calls_app, top_calls_field_events, top_calls_call_cb.
  - apply (advance_counts (MultipartYielder.next d)
             (MultipartYielder.field_events g calls)
             (MultipartYielder.set_iter
                (MultipartYielder.set_iter y (MultipartYielder.p y) (Some g'))
                None None) st'); [apply top_calls_field_events|done].
  - repeat split; try done. apply top_calls_field_events.
Qed.

(** X1. Whatever the fields and however the consumption ends, the
    counter of the yielder grows by exactly the bytes yielded, and the
    callback of the yielder is told, after each chunk, the number of
    bytes yielded up to and with that chunk, with the same total. *)
Theorem progress_counts_bytes (fuel : nat) (y : MultipartYielder.t)
    (st : store) :
  MultipartYielder.current (yielder (consume fuel y st))
  = MultipartYielder.current y + length (concat (chunks (consume fuel y st)))
  ∧ (MultipartYielder.cb y = true →
     top_calls (events (consume fuel y st))
     = (fun k => (k, MultipartYielder.total y))
       <$> running (MultipartYielder.current y)
             (length <$> chunks (consume fuel y st))).
Proof.
  revert y st. induction fuel as [|fuel IH]; intros y st.
  { cbn. split; [lia|done]. }
  cbn [consume]. pose proof (next_counts next_depth y st) as H.
  destruct (MultipartYielder.next next_depth y st) as [[[evs r] y'] st'].
  destruct H as (Ht & Hc & H). destruct r as [block| |e].
  - destruct H as [Hcur Htop]. destruct (IH y' st') as [IH1 IH2].
    cbn [yielder chunks events concat]. split.
    + rewrite IH1, Hcur, length_app. lia.
    + intros Hcb. rewrite top_calls_app, Htop, Hcb, IH2 by congruence.
      cbn. by rewrite Hcur, Ht.
  - destruct H as [Hcur Htop]. cbn [yielder chunks events concat].
    rewrite Htop. cbn. split; [lia|done].
  - destruct H as [Hcur Htop]. cbn [yielder chunks events concat].
    rewrite Htop. cbn. split; [lia|done].
Qed.

Lemma progress_counts_bytes_witness :
  top_calls (events (consume 238
     (MultipartYielder.mk [Ex.text_field; Ex.file_field] (lit "XYZ") true
        (Some 0) None None 0 237) Ex.disk))
  = [(102, 237); (217, 237); (226, 237); (228, 237); (237, 237)].
Proof.
  rewrite (proj2 (progress_counts_bytes 238
     (MultipartYielder.mk [Ex.text_field; Ex.file_field] (lit "XYZ") true
        (Some 0) None None 0 237) Ex.disk) eq_refl).
  vm_compute. reflexivity.
Defined.

(** ** The end of the sequence *)

(** X2. Once the yielder has raised [StopIteration], every later pull
    raises it again, yields nothing, runs no callback and changes
    neither the yielder nor the sources. *)
Theorem exhausted_stays (params : list MultipartParam.t) (boundary : str)
    (cb : bool) (st : store) (y : MultipartYielder.t) (fuel : nat) :
  MultipartYielder.init params boundary cb = Ok y →
  outcome (consume fuel y st) = Exhausted →
  MultipartYielder.next next_depth (yielder (consume fuel y st))
    (files (consume fuel y st))
  = ([], StopIteration, yielder (consume fuel y st),
     files (consume fuel y st)).
Proof.
  intros Hinit Hout. unfold MultipartYielder.init in Hinit.
  apply bind_Ok in Hinit as (total & _ & [= <-]).
  match type of Hout with context [consume fuel ?y0 st] =>
    assert (wf_yielder y0) as Hwf by (by split);
    destruct (consume_keeps fuel y0 st Hwf) as (_ & _ & _ & _ & _ & Hend)
  end.
  destruct (Hend Hout) as (Hi & Hit & _).
  unfold next_depth. cbn [MultipartYielder.next]. rewrite Hit.
  unfold MultipartYielder.advance. by rewrite Hi.
Qed.

Lemma exhausted_stays_witness :
  MultipartYielder.next next_depth
    (yielder (consume 238
       (MultipartYielder.mk [Ex.text_field; Ex.file_field] (lit "XYZ") true
          (Some 0) None None 0 237) Ex.disk))
    (files (consume 238
       (MultipartYielder.mk [Ex.text_field; Ex.file_field] (lit "XYZ") true
          (Some 0) None None 0 237) Ex.disk))
  = ([], StopIteration,
     yielder (consume 238
       (MultipartYielder.mk [Ex.text_field; Ex.file_field] (lit "XYZ") true
          (Some 0) None None 0 237) Ex.disk),
     files (consume 238
       (MultipartYielder.mk [Ex.text_field; Ex.file_field] (lit "XYZ") true
          (Some 0) None None 0 237) Ex.disk)).
Proof.
  apply (exhausted_stays [Ex.text_field; Ex.file_field] (lit "XYZ") true);
    vm_compute; reflexivity.
Defined.

(** ** Streaming and encoding at once agree *)

Lemma file_read_all f st fo :
  st !! f = Some fo →
  file_read (-1) f st
  = (drop (position fo) (content fo),
     <[f := FileLike (content fo)
              (position fo + length (drop (position fo) (content fo)))]> st).
Proof. intros Hf. unfold file_read, read_block. by rewrite Hf. Qed.

Lemma read_step_rest g lb eb c t st r g' st' :
  MultipartParam.g_blocksize g ≠ 0%Z →
  MultipartParam.read_step g lb eb c t st = (r, g', st') →
  match r with
  | Yield block =>
      ∀ out fin, gen_rest g' st' = Some (out, fin) →
        match MultipartParam.fileobj (MultipartParam.g_self g) with
        | Some f => let '(data, st1) := file_read (-1) f st in
                    Some (data ++ CRLF, st1)
        | None => None
        end = Some (block ++ out, fin)
  | StopIteration => False
  | Raised _ => True
  end.
Proof.
  intros Hbs. unfold MultipartParam.read_step.
  destruct (MultipartParam.fileobj (MultipartParam.g_self g)) as [f|] eqn:Hf;
    [|by intros [= <- _ _]].
  destruct (st !! f) as [fo|] eqn:Hst.
  - destruct (file_read_lookup (MultipartParam.g_blocksize g) f st fo Hst)
      as (block & -> & Hsplit & Hne).
    rewrite (file_read_all _ _ _ Hst).
    destruct block as [|b0 block].
    + intros [= <- <- <-]. intros out fin [= <- <-].
      assert (drop (position fo) (content fo) = []) as ->.
      { destruct (drop (position fo) (content fo)) eqn:E; [done|].
        by destruct (Hne Hbs). }
      reflexivity.
    + destruct (re_search_line eb (lb ++ b0 :: block));
        [by intros [= <- _ _]|].
      intros [= <- <- <-]. intros out fin.
      unfold gen_rest.
      cbn [MultipartParam.set_state MultipartParam.g_state
           MultipartParam.g_self].
      rewrite Hf.
      rewrite (file_read_all f _ (FileLike (content fo)
                 (position fo + length (b0 :: block))))
        by apply lookup_insert_eq.
      cbn [content position]. intros [= <- <-].
      rewrite insert_insert_eq, <- Hsplit, <- app_assoc.
      do 4 f_equal. rewrite length_app. cbn [length]. lia.
  - unfold file_read. rewrite Hst.
    intros [= <- <- <-]. by intros out fin [= <- <-].
Qed.

Lemma gen_next_rest g st calls r g' st' :
  MultipartParam.g_blocksize g ≠ 0%Z →
  MultipartParam.gen_next g st = (calls, r, g', st') →
  match r with
  | Yield block =>
      ∀ out fin, gen_rest g' st' = Some (out, fin) →
                 gen_rest g st = Some (block ++ out, fin)
  | StopIteration => gen_rest g st = Some ([], st) ∧ st' = st
  | Raised _ => True
  end.
Proof.
  intros Hbs Hn. unfold MultipartParam.gen_next in Hn.
  destruct (MultipartParam.g_state g) as [|c t|c t|lb eb c t|c t|] eqn:Hs.
  - destruct (MultipartParam.get_size _ _) as [total|e];
      [|by injection Hn as _ <- _ _].
    destruct (MultipartParam.value (MultipartParam.g_self g)) as [v|] eqn:Hv.
    + destruct (MultipartParam.encode _ _ st) as [[block|e] st1] eqn:He;
        [|by injection Hn as _ <- _ _].
      injection Hn as _ <- <- <-. intros out fin. unfold gen_rest.
      rewrite Hs, He. cbn. intros [= <- <-]. by rewrite app_nil_r.
    + destruct (MultipartParam.encode_hdr _ _) as [hdr|e] eqn:Hh;
        [|by injection Hn as _ <- _ _].
      injection Hn as _ <- <- <-. intros out fin. unfold gen_rest.
      rewrite Hs. unfold MultipartParam.encode. rewrite Hv. cbn.
      destruct (MultipartParam.fileobj (MultipartParam.g_self g)) as [f|];
        [|done].
      destruct (file_read (-1) f st) as [data st1].
      intros [= <- <-]. rewrite Hh. reflexivity.
  - injection Hn as _ <- _ <-. unfold gen_rest. by rewrite Hs.
  - destruct (encode_and_quote _ ≫= _) as [q|e];
      [|by injection Hn as _ <- _ _].
    destruct (MultipartParam.read_step _ _ _ _ _ _) as [[r1 g1] st1] eqn:Hr.
    injection Hn as _ <- <- <-.
    pose proof (read_step_rest _ _ _ _ _ _ _ _ _ Hbs Hr) as H.
    destruct r1; [|done..]. intros out fin Hg. unfold gen_rest at 1.
    rewrite Hs. by apply H.
  - destruct (MultipartParam.read_step _ _ _ _ _ _) as [[r1 g1] st1] eqn:Hr.
    injection Hn as _ <- <- <-.
    pose proof (read_step_rest _ _ _ _ _ _ _ _ _ Hbs Hr) as H.
    destruct r1; [|done..]. intros out fin Hg. unfold gen_rest at 1.
    rewrite Hs. by apply H.
  - injection Hn as _ <- _ <-. unfold gen_rest. by rewrite Hs.
  - injection Hn as _ <- _ <-. unfold gen_rest. by rewrite Hs.
Qed.

Lemma gen_consume_rest fuel : ∀ g st,
  MultipartParam.g_blocksize g ≠ 0%Z →
  g_outcome (gen_consume fuel g st) = Exhausted →
  gen_rest g st
  = Some (concat (g_chunks (gen_consume fuel g st)),
          g_files (gen_consume fuel g st)).
Proof.
  induction fuel as [|fuel IH]; intros g st Hbs Hout; [done|].
  cbn [gen_consume] in *.
  destruct (MultipartParam.gen_next g st) as [[[calls r] g'] st'] eqn:Hn.
  pose proof (gen_next_rest _ _ _ _ _ _ Hbs Hn) as Hstep.
  destruct (gen_next_shape _ _ _ _ _ _ Hn) as (_ & _ & Hbs' & _).
  destruct r as [block| |e]; cbn in Hout |- *; [| |done].
  - apply Hstep, IH; [congruence|done].
  - by destruct Hstep as [-> ->].
Qed.

(** X3. A field streamed to its end, by blocks of any size but zero,
    has yielded exactly the bytes [encode] returns for it at once, and
    leaves its source where [encode] leaves it. *)
Theorem stream_equals_encode (p : MultipartParam.t) (boundary : str)
    (blocksize : Z) (st : store) (fuel : nat) :
  blocksize ≠ 0%Z →
  g_outcome
    (gen_consume fuel (MultipartParam.iter_encode p boundary blocksize) st)
  = Exhausted →
  MultipartParam.encode p boundary st
  = (Ok (concat (g_chunks
           (gen_consume fuel
              (MultipartParam.iter_encode p boundary blocksize) st))),
     g_files
       (gen_consume fuel
          (MultipartParam.iter_encode p boundary blocksize) st)).
Proof.
  intros Hbs Hout.
  pose proof (gen_consume_rest fuel
                (MultipartParam.iter_encode p boundary blocksize) st
                Hbs Hout) as H.
  unfold gen_rest in H. cbn in H.
  destruct (MultipartParam.encode p boundary st) as [[block|e] st1];
    [|done].
  by injection H as -> ->.
Qed.

Lemma stream_equals_encode_witness :
  MultipartParam.encode Ex.file_field (lit "XYZ") Ex.disk
  = (Ok (render_header_words Ex.file_field (lit "XYZ")
         ++ lit "abcdefghi" ++ CRLF),
     {[ 0 := FileLike (lit "abcdefghi") 9 ]}).
Proof.
  rewrite (stream_equals_encode Ex.file_field (lit "XYZ") 4 Ex.disk 6);
    [vm_compute; reflexivity | discriminate | vm_compute; reflexivity].
Defined.

(** ** The stream is the fields in order and the closing line *)

Lemma yielder_rest_no_iter y st :
  MultipartYielder.param_iter y = None →
  yielder_rest y st
  = match encode_all (pending y) (MultipartYielder.boundary y) st with
    | (Raise _, _) => None
    | (Ok body, st2) =>
        match MultipartYielder.i y with
        | None => Some (body, st2)
        | Some _ =>
            match encode_ascii (lit "--" ++ MultipartYielder.boundary y
                                ++ lit "--" ++ CRLF) with
            | Ok closing => Some (body ++ closing, st2)
            | Raise _ => None
            end
        end
    end.
Proof. intros Hit. unfold yielder_rest. by rewrite Hit. Qed.

Lemma yielder_rest_start y st n q :
  MultipartYielder.param_iter y = None →
  MultipartYielder.i y = Some n →
  MultipartYielder.params y !! n = Some q →
  yielder_rest
    (MultipartYielder.set_i
       (MultipartYielder.set_iter y (Some q)
          (Some (MultipartParam.iter_encode q (MultipartYielder.boundary y)
                   MultipartYielder.default_blocksize)))
       (Some (n + 1))) st
  = yielder_rest y st.
Proof.
  intros Hit Hn Hq. rewrite (yielder_rest_no_iter y st Hit).
  unfold yielder_rest, pending, gen_rest. rewrite Hn.
  cbn [MultipartYielder.set_i MultipartYielder.set_iter
       MultipartYielder.param_iter MultipartYielder.boundary
       MultipartYielder.i MultipartYielder.params
       MultipartParam.iter_encode MultipartParam.g_state
       MultipartParam.g_self MultipartParam.g_boundary].
  rewrite (drop_S _ _ _ Hq), Nat.add_1_r. cbn [encode_all].
  destruct (MultipartParam.encode q _ st) as [[block|e] st1]; [|done].
  destruct (encode_all _ _ st1) as [[body|e] st2]; [|done].
  cbn [mbind result_bind].
  destruct (encode_ascii _) as [closing|e]; [|done].
  by rewrite <- app_assoc.
Qed.

Lemma advance_rest again evs y st :
  MultipartYielder.param_iter y = None →
  (∀ y1 st1, gen_bound y1 → rest_step y1 st1 (again y1 st1)) →
  rest_step y st (MultipartYielder.advance again evs y st).
Proof.
  intros Hit Hagain. unfold MultipartYielder.advance.
  destruct (MultipartYielder.i y) as [n|] eqn:Hn.
  2:{ cbn. rewrite (yielder_rest_no_iter y st Hit).
      unfold pending. by rewrite Hn. }
  case_decide as Hend.
  - cbn [MultipartYielder.set_i MultipartYielder.set_iter
         MultipartYielder.boundary].
    destruct (encode_ascii _) as [block|e] eqn:Hblock; [|done].
    split; [done|]. intros out fin.
    rewrite !yielder_rest_no_iter by done. unfold pending.
    cbn [MultipartYielder.add_current MultipartYielder.set_i
         MultipartYielder.set_iter MultipartYielder.i
         MultipartYielder.boundary MultipartYielder.params encode_all].
    rewrite Hn, drop_ge by done. cbn [encode_all]. rewrite Hblock.
    intros [= <- <-]. by rewrite app_nil_r.
  - destruct (MultipartYielder.params y !! n) as [q|] eqn:Hq; [|done].
    pose proof (yielder_rest_start y st n q Hit Hn Hq) as Hsame.
    set (y1 := MultipartYielder.set_i _ _) in *.
    assert (gen_bound y1) as Hb1.
    { intros g [= <-]. by split. }
    specialize (Hagain y1 st Hb1).
    destruct (again y1 st) as [[[evs' r] y2] st2].
    unfold rest_step in *. rewrite <- Hsame. by destruct r.
Qed.

Lemma next_rest d : ∀ y st,
  gen_bound y → rest_step y st (MultipartYielder.next d y st).
Proof.
  induction d as [|d IH]; intros y st Hb; [done|].
  cbn [MultipartYielder.next].
  destruct (MultipartYielder.param_iter y) as [g|] eqn:Hit.
  2:{ by apply advance_rest. }
  destruct (Hb g Hit) as [Hbs Hbd].
  destruct (MultipartParam.gen_next g st) as [[[calls r] g'] st'] eqn:Hn.
  pose proof (gen_next_rest _ _ _ _ _ _ Hbs Hn) as Hstep.
  destruct (gen_next_shape _ _ _ _ _ _ Hn) as (_ & Hbd' & Hbs' & _).
  destruct r as [block| |e]; [| |done].
  - split.
    { intros g1 [= <-]. split; [by rewrite Hbs'|]. cbn. by rewrite Hbd'. }
    intros out fin. unfold yielder_rest.
    cbn [MultipartYielder.add_current MultipartYielder.set_iter
         MultipartYielder.param_iter MultipartYielder.boundary
         MultipartYielder.i MultipartYielder.params pending].
    fold (pending y). rewrite Hit.
    destruct (gen_rest g' st') as [[head s1]|] eqn:Hg'; [|done].
    rewrite (Hstep head s1 eq_refl).
    destruct (encode_all _ _ s1) as [[body|e] s2]; [|done].
    destruct (MultipartYielder.i y).
    + destruct (encode_ascii _) as [closing|e]; [|done].
      intros [= <- <-]. by rewrite <- app_assoc.
    + intros [= <- <-]. by rewrite <- app_assoc.
  - destruct Hstep as [Hg ->].
    set (y2 := MultipartYielder.set_iter _ None None).
    assert (yielder_rest y st = yielder_rest y2 st) as Hsame.
    { unfold yielder_rest. rewrite Hit, Hg. reflexivity. }
    pose proof (advance_rest (MultipartYielder.next d)
                  (MultipartYielder.field_events g calls) y2 st
                  eq_refl IH) as H.
    destruct (MultipartYielder.advance _ _ y2 st) as [[[evs r] y3] st3].
    unfold rest_step in *. rewrite Hsame. by destruct r.
Qed.

Lemma consume_rest fuel : ∀ y st,
  gen_bound y →
  outcome (consume fuel y st) = Exhausted →
  yielder_rest y st
  = Some (concat (chunks (consume fuel y st)), files (consume fuel y st)).
Proof.
  induction fuel as [|fuel IH]; intros y st Hb Hout; [done|].
  cbn [consume] in *. pose proof (next_rest next_depth y st Hb) as H.
  destruct (MultipartYielder.next next_depth y st) as [[[evs r] y'] st'].
  destruct r as [block| |e]; cbn in Hout |- *; [|done|done].
  destruct H as [Hb' H]. apply H, IH; done.
Qed.

(** X4. A consumption that ends without an exception has yielded, in
    the order of the fields, what [encode] returns for each of them at
    once, followed by the closing line, and leaves every source where
    those calls of [encode] leave it: no field is skipped, repeated or
    reordered, whatever the sizes declared. *)
Theorem stream_is_fields_in_order (params : list MultipartParam.t)
    (boundary : str) (cb : bool) (st : store) (y : MultipartYielder.t)
    (fuel : nat) :
  MultipartYielder.init params boundary cb = Ok y →
  outcome (consume fuel y st) = Exhausted →
  ∃ body,
    encode_all params boundary st = (Ok body, files (consume fuel y st))
    ∧ concat (chunks (consume fuel y st))
      = body ++ lit "--" ++ boundary ++ lit "--" ++ CRLF.
Proof.
  intros Hinit Hout. unfold MultipartYielder.init in Hinit.
  apply bind_Ok in Hinit as (total & _ & [= <-]).
  match type of Hout with context [consume fuel ?y0 st] =>
    assert (gen_bound y0) as Hb by (by intros g);
    pose proof (consume_rest fuel y0 st Hb Hout) as H;
    rewrite (yielder_rest_no_iter y0 st eq_refl) in H
  end.
  unfold pending in H. cbn in H. rewrite drop_0 in H.
  destruct (encode_all params boundary st) as [[body|e] st2]; [|done].
  destruct (encode_ascii _) as [closing|e] eqn:Hc; [|done].
  apply encode_ascii_Ok in Hc as [-> _].
  injection H as H1 H2. exists body. by rewrite <- H1, H2.
Qed.

Lemma stream_is_fields_in_order_witness :
  ∃ body,
    encode_all [Ex.text_field; Ex.file_field] (lit "XYZ") Ex.disk
    = (Ok body,
       files (consume 238
         (MultipartYielder.mk [Ex.text_field; Ex.file_field] (lit "XYZ") true
            (Some 0) None None 0 237) Ex.disk))
    ∧ concat (chunks (consume 238
         (MultipartYielder.mk [Ex.text_field; Ex.file_field] (lit "XYZ") true
            (Some 0) None None 0 237) Ex.disk))
      = body ++ lit "--" ++ lit "XYZ" ++ lit "--" ++ CRLF.
Proof.
  apply (stream_is_fields_in_order [Ex.text_field; Ex.file_field]
           (lit "XYZ") true Ex.disk); vm_compute; reflexivity.
Defined.

(** ** No collision is reported where the marker is absent *)

Lemma encode_not_file_collision p boundary st e st' :
  MultipartParam.encode p boundary st = (Raise e, st') →
  e ≠ MultipartParam.boundary_found_in_file.
Proof.
  unfold MultipartParam.encode.
  destruct (MultipartParam.value p) as [v|].
  - intros [= H _].
    apply bind_Raise in H as [H|(x & _ & H)];
      [apply encode_utf8_Raise in H; by subst|].
    apply bind_Raise in H as [H|(b & _ & H)];
      [apply encode_utf8_Raise in H; by subst|].
    destruct (re_search_line _ _); [by injection H as <-|].
    apply bind_Raise in H as [H|(hdr & _ & H)]; [|done].
    apply encode_hdr_Raise in H. by subst.
  - destruct (MultipartParam.fileobj p) as [f|]; [|by intros [= <- _]].
    destruct (file_read _ _ _) as [x st1]. intros [= H _].
    apply bind_Raise in H as [H|(hdr & _ & H)]; [|done].
    apply encode_hdr_Raise in H. by subst.
Qed.

Lemma read_step_quiet g lb eb c t st r g' st' :
  (∀ f fo,
     MultipartParam.fileobj (MultipartParam.g_self g) = Some f →
     st !! f = Some fo →
     no_marker eb (content fo)
     ∧ ∃ before, take (position fo) (content fo) = before ++ lb) →
  MultipartParam.read_step g lb eb c t st = (r, g', st') →
  r ≠ Raised MultipartParam.boundary_found_in_file
  ∧ (∀ block, r = Yield block → gen_quiet g' st').
Proof.
  intros Hq Hr.
  destruct (MultipartParam.fileobj (MultipartParam.g_self g)) as [f|] eqn:Hf.
  2:{ unfold MultipartParam.read_step in Hr. rewrite Hf in Hr.
      by injection Hr as <- _ _. }
  destruct (st !! f) as [fo|] eqn:Hst.
  - destruct (Hq f fo eq_refl Hst) as [Hno Hlb].
    pose proof (read_step_clean _ _ _ _ _ _ _ _ _ _ _ Hf Hst Hno Hlb Hr) as H.
    destruct r as [block| |e]; [|done|done]. split; [done|].
    intros ? _. apply read_step_Yield in Hr as [[_ ->]|(_ & _ & Hg')].
    + intros f1 fo1 _ _. by cbn.
    + intros f1 fo1 Hf1 Hst1. unfold gen_clean in H. subst g'.
      cbn [MultipartParam.set_state MultipartParam.g_state
           MultipartParam.g_self] in *.
      by apply (H f1 fo1).
  - unfold MultipartParam.read_step, file_read in Hr.
    rewrite Hf, Hst in Hr. injection Hr as <- <- <-. split; [done|].
    intros ? _ f1 fo1 _ _. by cbn.
Qed.

Lemma gen_next_quiet g st calls r g' st' :
  gen_quiet g st →
  MultipartParam.gen_next g st = (calls, r, g', st') →
  r ≠ Raised MultipartParam.boundary_found_in_file
  ∧ (∀ block, r = Yield block → gen_quiet g' st').
Proof.
  intros Hq Hn. unfold gen_quiet in Hq. unfold MultipartParam.gen_next in Hn.
  destruct (MultipartParam.g_state g) as [|c t|c t|lb eb c t|c t|] eqn:Hs.
  - destruct (MultipartParam.get_size _ _) as [total|e] eqn:Hsz.
    2:{ injection Hn as _ <- _ _. split; [|done].
        by destruct (get_size_Raise _ _ _ Hsz) as [->| ->]. }
    destruct (MultipartParam.value _) eqn:Hv.
    + destruct (MultipartParam.encode _ _ _) as [[block|e] st1] eqn:He.
      * injection Hn as _ <- <- _. split; [done|].
        intros ? _ ? ? _ _. by cbn.
      * injection Hn as _ <- _ _. split; [|done].
        intros [= ->]. by eapply encode_not_file_collision.
    + destruct (MultipartParam.encode_hdr _ _) as [hdr|e] eqn:Hh.
      * injection Hn as _ <- <- <-. split; [done|].
        intros ? _ f fo Hf Hst. cbn. by apply (Hq f fo).
      * injection Hn as _ <- _ _. split; [|done].
        apply encode_hdr_Raise in Hh. by subst.
  - by injection Hn as _ <- _ _.
  - destruct (encode_and_quote _ ≫= _) as [q|e] eqn:Hquote.
    + apply bind_Ok in Hquote as (q' & Hq' & Ha).
      apply encode_ascii_Ok in Ha as [-> _].
      destruct (MultipartParam.read_step _ _ _ _ _ _)
        as [[r1 g1] st1] eqn:Hr.
      injection Hn as _ <- <- <-.
      eapply read_step_quiet; [|exact Hr].
      intros f fo Hf Hst. split; [by apply (Hq f fo)|].
      exists (take (position fo) (content fo)). by rewrite app_nil_r.
    + injection Hn as _ <- _ _. split; [|done].
      apply bind_Raise in Hquote as [H|(q & _ & H)].
      * apply quote_plus_Raise in H. by subst.
      * apply encode_ascii_Raise in H. by subst.
  - destruct (MultipartParam.read_step _ _ _ _ _ _) as [[r1 g1] st1] eqn:Hr.
    injection Hn as _ <- <- <-. by eapply read_step_quiet.
  - by injection Hn as _ <- _ _.
  - by injection Hn as _ <- _ _.
Qed.

(** X5. The streamed check never reports a collision for a source in
    which the bytes of the marker, [--] and the quoted boundary, occur
    nowhere: whatever the block size and however the run ends, it does
    not end by "boundary found in file data". *)
Theorem no_marker_no_collision (p : MultipartParam.t) (boundary : str)
    (blocksize : Z) (st : store) (fuel : nat) :
  (∀ f fo q,
     MultipartParam.fileobj p = Some f → st !! f = Some fo →
     quote_plus boundary = Ok q →
     no_marker (lit "--" ++ q) (content fo)) →
  g_outcome
    (gen_consume fuel (MultipartParam.iter_encode p boundary blocksize) st)
  ≠ Failed MultipartParam.boundary_found_in_file.
Proof.
  intros Hno.
  assert (Hq : gen_quiet (MultipartParam.iter_encode p boundary blocksize) st).
  { intros f fo Hf Hst. cbn. intros q. by apply (Hno f fo). }
  revert Hq. generalize (MultipartParam.iter_encode p boundary blocksize).
  clear Hno. revert st.
  induction fuel as [|fuel IH]; intros st g Hq; [done|].
  cbn [gen_consume].
  destruct (MultipartParam.gen_next g st) as [[[calls r] g'] st'] eqn:Hn.
  destruct (gen_next_quiet _ _ _ _ _ _ Hq Hn) as [Hr Hq'].
  destruct r as [block| |e]; cbn [g_outcome]; [|done|congruence].
  by eapply IH, Hq'.
Qed.

Lemma no_marker_no_collision_witness :
  g_outcome
    (gen_consume 3 (MultipartParam.iter_encode Ex.file_field (lit "XYZ") 4)
       {[ 0 := FileLike (lit "-") 0 ]})
  ≠ Failed MultipartParam.boundary_found_in_file.
Proof.
  apply (no_marker_no_collision Ex.file_field (lit "XYZ") 4
           {[ 0 := FileLike (lit "-") 0 ]} 3).
  intros f fo q [= <-] Hst Hq pre post H.
  assert (fo = FileLike (lit "-") 0) as ->
    by (vm_compute in Hst |- *; congruence).
  assert (q = lit "XYZ") as -> by (vm_compute in Hq |- *; congruence).
  apply (f_equal length) in H. rewrite !length_app in H.
  simpl in H. lia.
Defined.

(** ** Collisions in text fields, both ways *)

(** X6. For a field with a text value, [encode] raises "boundary found
    in encoded string" exactly when the encoded text has a whole line,
    between line feeds, equal to [--] followed by the encoded boundary:
    the boundary inside a longer line is accepted. *)
Theorem inline_collision_iff (p : MultipartParam.t) (boundary text : str)
    (v b : bytes) (st : store) :
  MultipartParam.value p = Some text →
  encode_utf8 text = Ok v →
  encode_utf8 boundary = Ok b →
  (MultipartParam.encode p boundary st).1
  = Raise MultipartParam.boundary_found_in_string
  ↔ line_of (lit "--" ++ b) v.
Proof.
  intros Hv Ht Hb. split.
  - intros H.
    destruct (MultipartParam.encode p boundary st) as [r st'] eqn:He.
    simpl in H. subst r.
    destruct (inline_collision_only_lines _ _ _ _ _ Hv He)
      as (v' & b' & Hv' & Hb' & Hl).
    congruence.
  - intros Hl. unfold MultipartParam.encode. rewrite Hv, Ht, Hb.
    cbn [mbind result_bind]. apply re_search_line_true in Hl.
    by rewrite Hl.
Qed.

Lemma inline_collision_iff_witness :
  (MultipartParam.encode Ex.text_field (lit "value1") ∅).1
  ≠ Raise MultipartParam.boundary_found_in_string
  ∧ ¬ line_of (lit "--" ++ lit "value1") (lit "value1").
Proof.
  assert (H : (MultipartParam.encode Ex.text_field (lit "value1") ∅).1
              ≠ Raise MultipartParam.boundary_found_in_string)
    by (vm_compute; discriminate).
  split; [exact H|]. intros Hl. apply H.
  apply (inline_collision_iff Ex.text_field (lit "value1") (lit "value1")
           (lit "value1") (lit "value1") ∅); try reflexivity. exact Hl.
Defined.

(** ** A reset that fails *)

Lemma reset_params_app before after st :
  MultipartYielder.reset_params (before ++ after) st
  = match MultipartYielder.reset_params before st with
    | (Ok _, st1) => MultipartYielder.reset_params after st1
    | (Raise e, st1) => (Raise e, st1)
    end.
Proof.
  revert st. induction before as [|p before IH]; intros st; [done|].
  cbn [app MultipartYielder.reset_params].
  destruct (MultipartParam.reset p st) as [[u|e] st1]; [apply IH|done].
Qed.

(** X7. When a field has neither a value nor a source, [reset] of the
    yielder raises "Don't know how to reset this parameter" with the
    yielder left half reset: the position and the counter are back at
    zero and the sources of the fields before that one are rewound,
    those of the fields after it are not touched. *)
Theorem reset_stops_at_unresettable (y : MultipartYielder.t)
    (before after : list MultipartParam.t) (bad : MultipartParam.t)
    (st st1 : store) :
  MultipartYielder.params y = before ++ bad :: after →
  MultipartYielder.reset_params before st = (Ok (), st1) →
  MultipartParam.value bad = None →
  MultipartParam.fileobj bad = None →
  MultipartYielder.reset y st
  = (Raise MultipartParam.cannot_reset,
     MultipartYielder.mk (MultipartYielder.params y)
       (MultipartYielder.boundary y) (MultipartYielder.cb y) (Some 0)
       (MultipartYielder.p y) (MultipartYielder.param_iter y) 0
       (MultipartYielder.total y),
     st1).
Proof.
  intros Hp Hbefore Hv Hf. unfold MultipartYielder.reset.
  cbn [MultipartYielder.set_i MultipartYielder.params
       MultipartYielder.boundary MultipartYielder.cb MultipartYielder.i
       MultipartYielder.p MultipartYielder.param_iter
       MultipartYielder.total].
  rewrite Hp at 1. rewrite reset_params_app, Hbefore.
  cbn [MultipartYielder.reset_params]. unfold MultipartParam.reset.
  by rewrite Hf, Hv.
Qed.

Lemma reset_stops_at_unresettable_witness :
  (MultipartYielder.reset
     (MultipartYielder.mk
        [Ex.file_field;
         MultipartParam.mk (lit "x") None None None (Some 3) None false;
         MultipartParam.mk (lit "g") None None None (Some 2) (Some 1) false]
        (lit "XYZ") false None None None 9 9)
     {[ 0 := FileLike (lit "abcdefghi") 9; 1 := FileLike (lit "zz") 2 ]}).2
  = {[ 0 := FileLike (lit "abcdefghi") 0; 1 := FileLike (lit "zz") 2 ]}.
Proof.
  rewrite (reset_stops_at_unresettable _ [Ex.file_field]
             [MultipartParam.mk (lit "g") None None None (Some 2) (Some 1)
                false]
             (MultipartParam.mk (lit "x") None None None (Some 3) None false)
             _ {[ 0 := FileLike (lit "abcdefghi") 0;
                  1 := FileLike (lit "zz") 2 ]});
    reflexivity.
Defined.

(** * The public functions around the encoder *)

(** ** The headers of [multipart_encode] *)

Lemma get_headers_Ok params boundary headers :
  get_headers params boundary = Ok headers →
  ∃ q n,
    quote_plus boundary = Ok q
    ∧ get_body_size params q = Ok n
    ∧ headers !! "Content-Type"
      = Some (lit "multipart/form-data; boundary=" ++ q)
    ∧ headers !! "Content-Length" = Some (str_of_nat n).
Proof.
  unfold get_headers. intros H.
  apply bind_Ok in H as (q & Hq & H).
  apply bind_Ok in H as (n & Hn & [= <-]).
  exists q, n. split; [done|]. split; [done|]. split.
  - rewrite lookup_insert_ne by done. by rewrite lookup_insert_eq.
  - by rewrite lookup_insert_eq.
Qed.

Lemma multipart_encode_Ok gen_boundary params boundary cb y headers :
  multipart_encode gen_boundary params boundary cb = Ok (y, headers) →
  ∃ b,
    match boundary with
    | None => b = gen_boundary
    | Some boundary => quote_plus boundary = Ok b
    end
    ∧ get_headers params b = Ok headers
    ∧ MultipartYielder.init params b cb = Ok y.
Proof.
  unfold multipart_encode, MultipartParam.from_params. intros H.
  apply bind_Ok in H as (b & Hb & H).
  apply bind_Ok in H as (h & Hh & H).
  apply bind_Ok in H as (y' & Hy & [= <- <-]).
  exists b. split; [|done].
  destruct boundary as [boundary|]; [done|]. by injection Hb as <-.
Qed.

(** X8. With a boundary of letters, digits and [_.-~], given or
    generated, the Content-Length header of [multipart_encode] is the
    decimal count of the bytes its yielder produces over a valid field
    list, and the Content-Type header names the boundary that ends the
    stream. *)
Theorem content_length_is_stream_length (gen_boundary : str)
    (params : list MultipartParam.t) (boundary : option str) (cb : bool)
    (st : store) (y : MultipartYielder.t) (headers : gmap string str)
    (fuel : nat) :
  valid_params st params →
  forallb always_safe (default gen_boundary boundary) = true →
  multipart_encode gen_boundary params boundary cb = Ok (y, headers) →
  outcome (consume fuel y st) = Exhausted →
  headers !! "Content-Length"
  = Some (str_of_nat (length (concat (chunks (consume fuel y st)))))
  ∧ headers !! "Content-Type"
    = Some (lit "multipart/form-data; boundary="
            ++ default gen_boundary boundary)
  ∧ last (chunks (consume fuel y st))
    = Some (lit "--" ++ default gen_boundary boundary ++ lit "--" ++ CRLF).
Proof.
  intros Hvalid Hsafe Hm Hout.
  apply multipart_encode_Ok in Hm as (b & Hb & Hh & Hinit).
  assert (b = default gen_boundary boundary) as ->.
  { destruct boundary as [b0|]; [|done]. cbn in Hsafe |- *.
    rewrite (quote_plus_safe _ Hsafe) in Hb. by injection Hb as <-. }
  apply get_headers_Ok in Hh as (q & n & Hq & Hn & Hct & Hcl).
  rewrite (quote_plus_safe _ Hsafe) in Hq. injection Hq as <-.
  destruct (init_inv _ _ _ _ _ Hvalid Hinit) as (Hinv & Hy & Hsize).
  destruct (proj2 (consume_inv fuel y st Hinv) Hout)
    as (Hlen & _ & _ & Hlast).
  rewrite Hn in Hsize. injection Hsize as ->.
  split; [|split; [done|]].
  - rewrite Hcl. do 2 f_equal. rewrite Hy in Hlen at 1. cbn in Hlen. lia.
  - destruct Hlast as [Hlast _]; [by rewrite Hy|]. rewrite Hlast.
    by rewrite Hy.
Qed.

Lemma content_length_is_stream_length_witness :
  ∃ y headers,
    multipart_encode (lit "0f3c") [Ex.text_field; Ex.file_field]
      (Some (lit "XYZ")) false = Ok (y, headers)
    ∧ headers !! "Content-Length" = Some (lit "237")
    ∧ length (concat (chunks (consume 238 y Ex.disk))) = 237.
Proof.
  destruct (multipart_encode (lit "0f3c") [Ex.text_field; Ex.file_field]
              (Some (lit "XYZ")) false) as [[y headers]|e] eqn:Hm;
    [|by vm_compute in Hm].
  exists y, headers. split; [done|].
  assert (Hout : outcome (consume 238 y Ex.disk) = Exhausted).
  { vm_compute in Hm. injection Hm as <- _. by vm_compute. }
  destruct (content_length_is_stream_length (lit "0f3c")
              [Ex.text_field; Ex.file_field] (Some (lit "XYZ")) false
              Ex.disk y headers 238 example_valid eq_refl Hm Hout)
    as (Hcl & _ & _).
  assert (Hlen : length (concat (chunks (consume 238 y Ex.disk))) = 237).
  { vm_compute in Hm. injection Hm as <- _. by vm_compute. }
  split; [|done]. rewrite Hcl, Hlen. by vm_compute.
Defined.

(** ** A boundary that [quote_plus] rewrites *)

Lemma lor_high_byte K x :
  (128 ≤ K < 256)%Z → (0 ≤ x < 256)%Z → (128 ≤ Z.lor K x < 256)%Z.
Proof.
  intros HK Hx.
  assert (H0 : (0 ≤ Z.lor K x)%Z) by (apply Z.lor_nonneg; lia).
  assert (HlK : Z.log2 K = 7%Z).
  { apply Z.log2_unique; [lia|]. change (2 ^ 7)%Z with 128%Z.
    change (2 ^ Z.succ 7)%Z with 256%Z. lia. }
  assert (Hlx : (Z.log2 x < 8)%Z).
  { destruct (decide (x = 0%Z)) as [->|]; [done|].
    apply Z.log2_lt_pow2; [lia|]. change (2 ^ 8)%Z with 256%Z. lia. }
  assert (Hl : Z.log2 (Z.lor K x) = 7%Z).
  { rewrite Z.log2_lor by lia. lia. }
  assert (Hpos : (0 < Z.lor K x)%Z).
  { destruct (decide (Z.lor K x = 0%Z)) as [E|]; [|lia].
    apply Z.lor_eq_0_iff in E. lia. }
  split.
  - change 128%Z with (2 ^ 7)%Z. apply Z.log2_le_pow2; [done|lia].
  - change 256%Z with (2 ^ 8)%Z. apply Z.log2_lt_pow2; [done|lia].
Qed.

Lemma land_low x : (0 ≤ Z.land x 63 < 64)%Z.
Proof.
  change 63%Z with (Z.ones 6). rewrite Z.land_ones by done.
  change (2 ^ 6)%Z with 64%Z. apply Z.mod_pos_bound. lia.
Qed.

Lemma shiftr_small c k n :
  (0 ≤ c < n * 2 ^ k)%Z → (0 ≤ k)%Z → (0 ≤ Z.shiftr c k < n)%Z.
Proof.
  intros Hc Hk. rewrite Z.shiftr_div_pow2 by done.
  assert (0 < 2 ^ k)%Z by (apply Z.pow_pos_nonneg; lia).
  split; [apply Z.div_pos; lia|].
  apply Z.div_lt_upper_bound; lia.
Qed.

(** The bytes of one code point: itself when it is ASCII, bytes from 128
    to 255 otherwise. *)
Lemma utf8_char_bytes c bs :
  utf8_char c = Ok bs →
  ((0 ≤ c < 128)%Z ∧ bs = [c])
  ∨ ((128 ≤ c)%Z ∧ bs ≠ [] ∧ Forall (fun b => (128 ≤ b < 256)%Z) bs).
Proof.
  unfold utf8_char.
  destruct (Z.ltb_spec c 0); [done|].
  destruct (Z.ltb_spec c 128); [intros [= <-]; left; split; [lia|done]|].
  pose proof (land_low c) as L0.
  pose proof (land_low (Z.shiftr c 6)) as L1.
  pose proof (land_low (Z.shiftr c 12)) as L2.
  destruct (Z.ltb_spec c 2048).
  { intros [= <-]. right. split; [lia|]. split; [done|].
    pose proof (shiftr_small c 6 32 ltac:(lia) ltac:(lia)).
    repeat constructor; apply lor_high_byte; lia. }
  destruct (Z.ltb_spec c 65536).
  { destruct ((55296 <=? c)%Z && (c <? 57344)%Z); [done|].
    intros [= <-]. right. split; [lia|]. split; [done|].
    pose proof (shiftr_small c 12 16 ltac:(lia) ltac:(lia)).
    repeat constructor; apply lor_high_byte; lia. }
  destruct (Z.ltb_spec c 1114112); [|done].
  intros [= <-]. right. split; [lia|]. split; [done|].
  pose proof (shiftr_small c 18 8 ltac:(lia) ltac:(lia)).
  repeat constructor; apply lor_high_byte; lia.
Qed.

Lemma quote_byte_high b :
  (128 ≤ b < 256)%Z →
  quote_byte b = [37%Z; hex_digit (b / 16); hex_digit (b mod 16)].
Proof.
  intros Hb. unfold quote_byte.
  destruct (Z.eqb_spec b 32); [lia|].
  destruct (always_safe b) eqn:E; [|done].
  apply always_safe_ascii in E. lia.
Qed.

Lemma quote_byte_length b : 1 ≤ length (quote_byte b).
Proof.
  unfold quote_byte. destruct (b =? 32)%Z; [simpl; lia|].
  destruct (always_safe b); simpl; lia.
Qed.

Lemma quote_bytes_length bs : length bs ≤ length (bs ≫= quote_byte).
Proof.
  induction bs as [|b bs IH]; [done|].
  change ((b :: bs) ≫= quote_byte) with (quote_byte b ++ (bs ≫= quote_byte)).
  rewrite length_app. pose proof (quote_byte_length b). simpl. lia.
Qed.

Lemma quote_plus_cons c s q :
  quote_plus (c :: s) = Ok q →
  ∃ bs q', utf8_char c = Ok bs ∧ quote_plus s = Ok q'
           ∧ q = (bs ≫= quote_byte) ++ q'.
Proof.
  unfold quote_plus. cbn [encode_utf8]. intros H.
  apply bind_Ok in H as (v & Hv & [= <-]).
  apply bind_Ok in Hv as (bs & Hbs & Hv).
  apply bind_Ok in Hv as (r & Hr & [= <-]).
  exists bs, (r ≫= quote_byte). rewrite Hr. split; [done|]. split; [done|].
  by rewrite bind_app.
Qed.

(** What one code point becomes is not shorter; it is longer by two and
    has a [%] when the code point is [+] or [%]; it has a [+] or a [%]
    when the code point is not one of the safe ones. *)
Lemma quote_char c bs :
  utf8_char c = Ok bs →
  1 ≤ length (bs ≫= quote_byte)
  ∧ (c = 43%Z ∨ c = 37%Z →
     3 ≤ length (bs ≫= quote_byte) ∧ 37%Z ∈ bs ≫= quote_byte)
  ∧ (always_safe c = false →
     43%Z ∈ bs ≫= quote_byte ∨ 37%Z ∈ bs ≫= quote_byte).
Proof.
  intros Hc. split; [|split].
  - pose proof (quote_bytes_length bs).
    apply utf8_char_bytes in Hc as [[_ ->]|(_ & Hne & _)]; [simpl in *; lia|].
    destruct bs; [done|simpl in *; lia].
  - intros Hpm.
    assert (bs = [c]) as ->.
    { apply utf8_char_bytes in Hc as [[_ ->]|(? & _)]; [done|lia]. }
    destruct Hpm as [-> | ->];
      (split; [vm_compute; lia|apply list_elem_of_In; vm_compute; auto]).
  - intros Hs.
    apply utf8_char_bytes in Hc as [[Hc ->]|(_ & Hne & Hall)].
    + change ([c] ≫= quote_byte) with (quote_byte c ++ []).
      rewrite app_nil_r. unfold quote_byte. rewrite Hs.
      destruct (c =? 32)%Z; [left|right]; rewrite elem_of_cons; auto.
    + destruct bs as [|b bs]; [done|]. right.
      change ((b :: bs) ≫= quote_byte)
        with (quote_byte b ++ (bs ≫= quote_byte)).
      rewrite quote_byte_high by (by inversion Hall).
      rewrite elem_of_app, elem_of_cons. auto.
Qed.

Lemma quote_plus_length s q : quote_plus s = Ok q → length s ≤ length q.
Proof.
  revert q. induction s as [|c s IH]; intros q H; [simpl; lia|].
  apply quote_plus_cons in H as (bs & q' & Hc & Hq & ->).
  destruct (quote_char c bs Hc) as (H1 & _). specialize (IH _ Hq).
  rewrite length_app. simpl. lia.
Qed.

Lemma quote_plus_grows s q :
  quote_plus s = Ok q → 43%Z ∈ s ∨ 37%Z ∈ s →
  length s + 2 ≤ length q ∧ 37%Z ∈ q.
Proof.
  revert q. induction s as [|c s IH]; intros q H Hin.
  { destruct Hin as [Hin|Hin]; by apply elem_of_nil in Hin. }
  apply quote_plus_cons in H as (bs & q' & Hc & Hq & ->).
  destruct (quote_char c bs Hc) as (H1 & H2 & _).
  rewrite length_app, elem_of_app. cbn [length].
  destruct (decide (c = 43%Z ∨ c = 37%Z)) as [Hpm|Hpm].
  - destruct (H2 Hpm) as [H3 H4]. pose proof (quote_plus_length _ _ Hq).
    split; [lia|auto].
  - assert (43%Z ∈ s ∨ 37%Z ∈ s) as Hin'.
    { rewrite !elem_of_cons in Hin. intuition congruence. }
    destruct (IH _ Hq Hin') as [H3 H4]. split; [lia|auto].
Qed.

Lemma quote_plus_marks s q :
  quote_plus s = Ok q → forallb always_safe s = false →
  43%Z ∈ q ∨ 37%Z ∈ q.
Proof.
  revert q. induction s as [|c s IH]; intros q H Hs; [done|].
  apply quote_plus_cons in H as (bs & q' & Hc & Hq & ->).
  destruct (quote_char c bs Hc) as (_ & _ & H3).
  rewrite !elem_of_app. cbn [forallb] in Hs.
  destruct (always_safe c) eqn:E.
  - destruct (IH _ Hq Hs); auto.
  - destruct (H3 eq_refl); auto.
Qed.

Lemma render_header_words_length p q :
  length (render_header_words p q)
  = length q + length (render_header_words p []).
Proof. unfold render_header_words. rewrite !length_app. simpl. lia. Qed.

Lemma encode_hdr_length p boundary hdr :
  MultipartParam.encode_hdr p boundary = Ok hdr →
  ∃ q, quote_plus boundary = Ok q
       ∧ length hdr
         = length q + length (render_header_words (drop_empty p) []).
Proof.
  rewrite encode_hdr_eq. intros H. apply bind_Ok in H as (q & Hq & H).
  apply encode_ascii_Ok in H as [-> _]. exists q. split; [done|].
  apply render_header_words_length.
Qed.

(** The sizes under two boundaries differ by what the quoted boundaries
    differ, once a field. *)
Lemma sum_sizes_shift params b1 b2 s1 s2 d :
  (∀ q1 q2, quote_plus b1 = Ok q1 → quote_plus b2 = Ok q2 →
            length q1 + d ≤ length q2) →
  sum_sizes params b1 = Ok s1 → sum_sizes params b2 = Ok s2 →
  s1 + length params * d ≤ s2.
Proof.
  intros Hd. revert s1 s2.
  induction params as [|p params IH]; intros s1 s2 H1 H2.
  { injection H1 as <-. simpl. lia. }
  cbn [sum_sizes] in H1, H2.
  apply bind_Ok in H1 as (n1 & Hn1 & H1).
  apply bind_Ok in H1 as (m1 & Hm1 & [= <-]).
  apply bind_Ok in H2 as (n2 & Hn2 & H2).
  apply bind_Ok in H2 as (m2 & Hm2 & [= <-]).
  specialize (IH _ _ Hm1 Hm2).
  apply get_size_Ok in Hn1 as (h1 & Hh1 & Hv1).
  apply get_size_Ok in Hn2 as (h2 & Hh2 & Hv2).
  apply encode_hdr_length in Hh1 as (q1 & Hq1 & Hl1).
  apply encode_hdr_length in Hh2 as (q2 & Hq2 & Hl2).
  specialize (Hd _ _ Hq1 Hq2). cbn [length].
  destruct Hv1 as [(k1 & Hf1 & ->)|(t1 & v1 & Hf1 & Ht1 & He1 & ->)];
    destruct Hv2 as [(k2 & Hf2 & ->)|(t2 & v2 & Hf2 & Ht2 & He2 & ->)];
    try congruence.
  - assert (k1 = k2) by congruence. lia.
  - assert (v1 = v2) by congruence. subst. lia.
Qed.

(** X9. When the boundary given to [multipart_encode] has a character
    that [quote_plus] rewrites (anything but letters, digits and
    [_.-~]), the Content-Length header is larger than the stream of the
    yielder, by two bytes at least for each field and two more: the
    headers are computed from the boundary quoted once more than the
    stream uses. *)
Theorem content_length_overstated (gen_boundary : str)
    (params : list MultipartParam.t) (boundary : str) (cb : bool)
    (st : store) (y : MultipartYielder.t) (headers : gmap string str)
    (fuel : nat) :
  valid_params st params →
  forallb always_safe boundary = false →
  multipart_encode gen_boundary params (Some boundary) cb
  = Ok (y, headers) →
  outcome (consume fuel y st) = Exhausted →
  ∃ n,
    headers !! "Content-Length" = Some (str_of_nat n)
    ∧ length (concat (chunks (consume fuel y st)))
      + 2 * (length params + 1) ≤ n.
Proof.
  intros Hvalid Hunsafe Hm Hout.
  apply multipart_encode_Ok in Hm as (q1 & Hq1 & Hh & Hinit).
  apply get_headers_Ok in Hh as (q2 & n & Hq2 & Hn & _ & Hcl).
  exists n. split; [done|].
  destruct (init_inv _ _ _ _ _ Hvalid Hinit) as (Hinv & Hy & Hsize).
  destruct (proj2 (consume_inv fuel y st Hinv) Hout) as (Hlen & _).
  rewrite Hy in Hlen at 1. cbn in Hlen.
  pose proof (quote_plus_marks _ _ Hq1 Hunsafe) as Hmark.
  destruct (quote_plus_grows _ _ Hq2 Hmark) as [Hg2 Hpc].
  unfold get_body_size, MultipartParam.from_params in Hn, Hsize.
  apply bind_Ok in Hn as (s2 & Hs2 & [= <-]).
  apply bind_Ok in Hsize as (s1 & Hs1 & [= Hs1']).
  assert (s1 + length params * 2 ≤ s2).
  { apply (sum_sizes_shift params q1 q2); [|done|done].
    intros q1' q3 Hq1' Hq3. rewrite Hq2 in Hq1'. injection Hq1' as <-.
    apply (quote_plus_grows _ _ Hq3). by right. }
  lia.
Qed.

Lemma content_length_overstated_witness :
  ∃ y headers,
    multipart_encode (lit "0f3c") [Ex.text_field; Ex.file_field]
      (Some (lit "X Z")) false = Ok (y, headers)
    ∧ headers !! "Content-Length" = Some (lit "247")
    ∧ length (concat (chunks (consume 238 y Ex.disk))) = 241.
Proof.
  destruct (multipart_encode (lit "0f3c") [Ex.text_field; Ex.file_field]
              (Some (lit "X Z")) false) as [[y headers]|e] eqn:Hm;
    [|by vm_compute in Hm].
  exists y, headers. split; [done|].
  assert (Hout : outcome (consume 238 y Ex.disk) = Exhausted).
  { vm_compute in Hm. injection Hm as <- _. by vm_compute. }
  destruct (content_length_overstated (lit "0f3c")
              [Ex.text_field; Ex.file_field] (lit "X Z") false
              Ex.disk y headers 238 example_valid eq_refl Hm Hout)
    as (n & Hcl & Hle).
  vm_compute in Hm. injection Hm as <- <-. by vm_compute.
Defined.

(** ** The blocks of a streamed body *)

Lemma read_step_block g lb eb current total st r g' st' :
  (0 < MultipartParam.g_blocksize g)%Z →
  MultipartParam.read_step g lb eb current total st = (r, g', st') →
  MultipartParam.g_blocksize g' = MultipartParam.g_blocksize g
  ∧ match r with
    | Yield block =>
        block ≠ []
        ∧ (length block ≤ Z.to_nat (MultipartParam.g_blocksize g)
           ∨ block = CRLF)
        ∧ match MultipartParam.g_state g' with
          | MultipartParam.GBody _ _ _ _ | MultipartParam.GTail _ _ => True
          | _ => False
          end
    | _ => True
    end.
Proof.
  intros Hpos. unfold MultipartParam.read_step.
  destruct (MultipartParam.fileobj (MultipartParam.g_self g)) as [f|];
    [|by intros [= <- <- <-]].
  destruct (file_read (MultipartParam.g_blocksize g) f st)
    as [block st1] eqn:Hr.
  assert (length block ≤ Z.to_nat (MultipartParam.g_blocksize g)) as Hlen.
  { unfold file_read in Hr. destruct (st !! f) as [fo|].
    - unfold read_block in Hr.
      destruct (Z.ltb_spec (MultipartParam.g_blocksize g) 0); [lia|].
      injection Hr as <- _. rewrite length_take. lia.
    - injection Hr as <- _. simpl. lia. }
  destruct block as [|b block].
  - intros [= <- <- <-]. split; [done|]. split; [done|]. split; [by right|done].
  - destruct (re_search_line eb (lb ++ b :: block)).
    + by intros [= <- <- <-].
    + intros [= <- <- <-]. split; [done|]. split; [done|].
      split; [by left|done].
Qed.

Lemma body_blocks fuel : ∀ g st,
  (0 < MultipartParam.g_blocksize g)%Z →
  match MultipartParam.g_state g with
  | MultipartParam.GStart | MultipartParam.GInline _ _ => False
  | _ => True
  end →
  Forall (fun c => c ≠ []
                   ∧ (length c ≤ Z.to_nat (MultipartParam.g_blocksize g)
                      ∨ c = CRLF))
         (g_chunks (gen_consume fuel g st)).
Proof.
  induction fuel as [|fuel IH]; intros g st Hpos Hs; [constructor|].
  cbn [gen_consume].
  destruct (MultipartParam.gen_next g st) as [[[calls r] g'] st'] eqn:Hn.
  assert (MultipartParam.g_blocksize g' = MultipartParam.g_blocksize g
          ∧ match r with
            | Yield block =>
                block ≠ []
                ∧ (length block ≤ Z.to_nat (MultipartParam.g_blocksize g)
                   ∨ block = CRLF)
                ∧ match MultipartParam.g_state g' with
                  | MultipartParam.GBody _ _ _ _
                  | MultipartParam.GTail _ _ => True
                  | _ => False
                  end
            | _ => True
            end) as [Hb Hr].
  { unfold MultipartParam.gen_next in Hn.
    destruct (MultipartParam.g_state g) as [|c t|c t|lb eb c t|c t|] eqn:E;
      try done.
    - destruct (encode_and_quote (MultipartParam.g_boundary g) ≫= encode_ascii)
        as [q|e]; [|by injection Hn as _ <- <- _].
      destruct (MultipartParam.read_step g [] (lit "--" ++ q) c t st)
        as [[r1 g1] st1] eqn:Hrs.
      injection Hn as _ <- <- _.
      by apply (read_step_block _ _ _ _ _ _ _ _ _ Hpos Hrs).
    - destruct (MultipartParam.read_step g lb eb c t st)
        as [[r1 g1] st1] eqn:Hrs.
      injection Hn as _ <- <- _.
      by apply (read_step_block _ _ _ _ _ _ _ _ _ Hpos Hrs).
    - by injection Hn as _ <- <- _.
    - by injection Hn as _ <- <- _. }
  destruct r as [block| |e]; cbn [g_chunks]; [|constructor..].
  destruct Hr as (Hne & Hlen & Hs').
  constructor; [done|].
  rewrite <- Hb. apply IH; [by rewrite Hb|].
  by destruct (MultipartParam.g_state g').
Qed.

(** X10. A streamed field is read by blocks: with a positive block
    size, after the header every chunk [iter_encode] yields is not
    empty and is at most a block long, or is the CRLF that ends the
    field. *)
Theorem body_blocks_bounded (p : MultipartParam.t) (boundary : str)
    (blocksize : Z) (st : store) (fuel : nat) (hdr : bytes)
    (rest : list bytes) :
  MultipartParam.value p = None →
  (0 < blocksize)%Z →
  g_chunks (gen_consume fuel (MultipartParam.iter_encode p boundary blocksize)
              st)
  = hdr :: rest →
  MultipartParam.encode_hdr p boundary = Ok hdr
  ∧ Forall (fun c => c ≠ [] ∧ (length c ≤ Z.to_nat blocksize ∨ c = CRLF))
           rest.
Proof.
  intros Hv Hpos. destruct fuel as [|fuel]; [done|].
  cbn [gen_consume]. unfold MultipartParam.gen_next.
  cbn [MultipartParam.iter_encode MultipartParam.g_state
       MultipartParam.g_self MultipartParam.g_boundary].
  destruct (MultipartParam.get_size p boundary) as [total|e]; [|done].
  rewrite Hv.
  destruct (MultipartParam.encode_hdr p boundary) as [block|e]; [|done].
  cbn [g_chunks]. intros [= -> <-]. split; [done|].
  by apply (body_blocks fuel
              (MultipartParam.set_state
                 (MultipartParam.iter_encode p boundary blocksize)
                 (MultipartParam.GHeader (0 + length hdr) total))).
Qed.

Lemma body_blocks_bounded_witness :
  Forall (fun c => c ≠ [] ∧ (length c ≤ 4 ∨ c = CRLF))
    [lit "abcd"; lit "efgh"; lit "i"; CRLF].
Proof.
  refine (proj2 (body_blocks_bounded Ex.file_field (lit "XYZ") 4 Ex.disk 6
                   _ [lit "abcd"; lit "efgh"; lit "i"; CRLF]
                   eq_refl eq_refl _)).
  by vm_compute.
Defined.

(** ** When the header can be rendered *)

Lemma quote_byte_ascii b :
  (0 ≤ b < 256)%Z → forallb is_ascii (quote_byte b) = true.
Proof.
  intros Hb. unfold quote_byte.
  destruct (b =? 32)%Z; [done|].
  destruct (always_safe b) eqn:E.
  - apply always_safe_ascii in E. cbn. unfold is_ascii. lia.
  - assert (0 ≤ b / 16 < 16)%Z by (split; [apply Z.div_pos|
      apply Z.div_lt_upper_bound]; lia).
    assert (0 ≤ b mod 16 < 16)%Z by (apply Z.mod_pos_bound; lia).
    cbn. unfold is_ascii, hex_digit.
    destruct (Z.ltb_spec (b / 16) 10), (Z.ltb_spec (b mod 16) 10); lia.
Qed.

Lemma quote_plus_ascii s q :
  quote_plus s = Ok q → forallb is_ascii q = true.
Proof.
  revert q. induction s as [|c s IH]; intros q H.
  { by injection H as <-. }
  apply quote_plus_cons in H as (bs & q' & Hc & Hq & ->).
  rewrite forallb_app, (IH _ Hq), andb_true_r.
  assert (Forall (fun b => (0 ≤ b < 256)%Z) bs) as Hall.
  { apply utf8_char_bytes in Hc as [[Hc ->]|(_ & _ & Hall)].
    - constructor; [lia|constructor].
    - eapply Forall_impl; [exact Hall|]. simpl. lia. }
  clear Hc. induction Hall as [|b bs Hb _ IHb]; [done|].
  change ((b :: bs) ≫= quote_byte) with (quote_byte b ++ (bs ≫= quote_byte)).
  by rewrite forallb_app, quote_byte_ascii, IHb.
Qed.

Ltac lit_ascii :=
  repeat match goal with
         | |- context [forallb is_ascii (lit ?s)] =>
             change (forallb is_ascii (lit s)) with true
         end.

Lemma render_header_words_ascii p q :
  forallb is_ascii (render_header_words (drop_empty p) q)
  = forallb is_ascii q
    && (forallb is_ascii (MultipartParam.name p)
        && (forallb is_ascii
              (default [] (MultipartParam.truthy (MultipartParam.filename p)))
            && forallb is_ascii
                 (default MultipartParam.default_filetype
                    (MultipartParam.truthy (MultipartParam.filetype p))))).
Proof.
  unfold render_header_words, drop_empty.
  cbn [MultipartParam.name MultipartParam.filename MultipartParam.filetype].
  destruct (MultipartParam.truthy (MultipartParam.filename p)) as [fn|];
    cbn [default from_option id];
    rewrite !forallb_app; lit_ascii;
    change (forallb is_ascii CRLF) with true;
    change (forallb is_ascii [DQUOTE]) with true;
    change (forallb is_ascii []) with true;
    cbn [andb]; rewrite ?andb_true_r; reflexivity.
Qed.

(** X11. [encode_hdr] gives a header exactly when the boundary encodes
    to UTF-8 (it has no lone surrogate) and the name, the file name
    shown and the content type shown are ASCII; whatever the characters
    of the boundary, quoting makes it ASCII. Otherwise it raises
    UnicodeEncodeError. *)
Theorem encode_hdr_succeeds_iff (p : MultipartParam.t) (boundary : str) :
  ((∃ hdr, MultipartParam.encode_hdr p boundary = Ok hdr)
   ↔ (∃ b, encode_utf8 boundary = Ok b)
     ∧ forallb is_ascii (MultipartParam.name p) = true
     ∧ forallb is_ascii
         (default [] (MultipartParam.truthy (MultipartParam.filename p)))
       = true
     ∧ forallb is_ascii
         (default MultipartParam.default_filetype
            (MultipartParam.truthy (MultipartParam.filetype p)))
       = true)
  ∧ ((∀ hdr, MultipartParam.encode_hdr p boundary ≠ Ok hdr)
     → MultipartParam.encode_hdr p boundary = Raise UnicodeEncodeError).
Proof.
  split.
  - rewrite encode_hdr_eq. unfold quote_plus at 1.
    destruct (encode_utf8 boundary) as [b|e] eqn:Hb; cbn [mbind result_bind].
    + assert (Hq : forallb is_ascii (b ≫= quote_byte) = true).
      { apply (quote_plus_ascii boundary). unfold quote_plus.
        by rewrite Hb. }
      unfold encode_ascii. rewrite render_header_words_ascii, Hq.
      cbn [andb]. split.
      * intros [hdr Hh].
        destruct (forallb is_ascii (MultipartParam.name p)); [|done].
        destruct (forallb is_ascii
                    (default []
                       (MultipartParam.truthy (MultipartParam.filename p))));
          [|done].
        destruct (forallb is_ascii
                    (default MultipartParam.default_filetype
                       (MultipartParam.truthy (MultipartParam.filetype p))));
          [|done].
        eauto.
      * intros (_ & -> & -> & ->). eauto.
    + split; [by intros [hdr [=]]|by intros [[b [=]] _]].
  - intros Hno.
    destruct (MultipartParam.encode_hdr p boundary) as [hdr|e] eqn:He.
    + by destruct (Hno hdr).
    + f_equal. by eapply encode_hdr_Raise.
Qed.

(** ** The file name the constructor stores *)

Lemma quoted_ok_app a : ∀ b,
  quoted_ok a = true → quoted_ok (a ++ b) = quoted_ok b.
Proof.
  assert (H : ∀ n a, length a ≤ n → ∀ b,
            quoted_ok a = true → quoted_ok (a ++ b) = quoted_ok b).
  { clear a. induction n as [|n IH]; intros a Hn b Ha.
    - destruct a; [done|simpl in Hn; lia].
    - destruct a as [|c a]; [done|]. cbn [quoted_ok app] in Ha |- *.
      destruct (c =? 92)%Z.
      + destruct a as [|d a]; [done|]. cbn [app].
        apply andb_prop in Ha as [Hd Ha]. rewrite Hd. cbn [andb].
        apply IH; [simpl in Hn; lia|done].
      + apply andb_prop in Ha as [Hc Ha]. rewrite Hc. cbn [andb].
        apply IH; [simpl in Hn; lia|done]. }
  intros b. by apply (H (length a)).
Qed.

Lemma quoted_ok_printable s :
  quoted_ok s = true → forallb printable s = true.
Proof.
  assert (H : ∀ n s, length s ≤ n →
            quoted_ok s = true → forallb printable s = true).
  { clear s. induction n as [|n IH]; intros s Hn Hs.
    - destruct s; [done|simpl in Hn; lia].
    - destruct s as [|c s]; [done|]. cbn [quoted_ok forallb] in Hs |- *.
      destruct (Z.eqb_spec c 92) as [->|_].
      + destruct s as [|d s]; [done|].
        apply andb_prop in Hs as [Hd Hs]. cbn [forallb]. rewrite Hd.
        cbn [andb]. change (printable 92) with true. cbn [andb].
        apply IH; [simpl in Hn; lia|done].
      + apply andb_prop in Hs as [Hc Hs]. apply andb_prop in Hc as [Hc _].
        rewrite Hc. cbn [andb]. apply IH; [simpl in Hn; lia|done]. }
  by apply (H (length s)).
Qed.

(** One ASCII character, escaped and with its quote replaced. *)
Lemma escape_ascii_small :
  forallb (fun n => quoted_ok
                      (replace_char DQUOTE [92%Z; DQUOTE]
                         (unicode_escape_char (Z.of_nat n))))
          (seq 0 128)
  = true.
Proof. by vm_compute. Qed.

Lemma escape_ascii_char c :
  is_ascii c = true →
  quoted_ok (replace_char DQUOTE [92%Z; DQUOTE] (unicode_escape_char c))
  = true.
Proof.
  intros Hc. unfold is_ascii in Hc.
  pose proof escape_ascii_small as H. rewrite forallb_forall in H.
  specialize (H (Z.to_nat c)). rewrite Z2Nat.id in H by lia.
  apply H. apply in_seq. lia.
Qed.

Lemma escape_ascii s :
  forallb is_ascii s = true →
  quoted_ok (replace_char DQUOTE [92%Z; DQUOTE] (unicode_escape s)) = true.
Proof.
  induction s as [|c s IH]; [done|]. cbn [forallb].
  intros [Hc Hs]%andb_prop. unfold unicode_escape, replace_char in *.
  change ((c :: s) ≫= unicode_escape_char)
    with (unicode_escape_char c ++ (s ≫= unicode_escape_char)).
  rewrite bind_app, quoted_ok_app; [by apply IH|].
  by apply escape_ascii_char.
Qed.

Lemma uint_digits d :
  forallb is_ascii (lit (NilEmpty.string_of_uint d)) = true.
Proof. induction d; [done|exact IHd..]. Qed.

Lemma str_of_nat_ascii n : forallb is_ascii (str_of_nat n) = true.
Proof.
  unfold str_of_nat, NilZero.string_of_uint.
  destruct (Nat.to_uint n) eqn:E; [done|rewrite <- E..]; apply uint_digits.
Qed.

Lemma xmlcharrefreplace_ascii s :
  forallb is_ascii (xmlcharrefreplace s) = true.
Proof.
  unfold xmlcharrefreplace. induction s as [|c s IH]; [done|].
  change ((c :: s) ≫= xmlcharref) with (xmlcharref c ++ (s ≫= xmlcharref)).
  rewrite forallb_app, IH, andb_true_r. unfold xmlcharref.
  destruct (is_ascii c) eqn:E; [by cbn; rewrite E|].
  by rewrite !forallb_app, str_of_nat_ascii.
Qed.

(** X12. Whatever file name is given to the constructor, the one it
    stores, [escape_filename] of it, is safe between the quotes of the
    header: printable ASCII only, so no CR or LF, and no double quote or
    backslash outside a backslash pair. *)
Theorem filename_is_quoted_safely (fstat_size : nat → option nat)
    (name : str) (value : option str) (filename : str)
    (filetype : option str) (filesize fileobj : option nat) (cb : bool)
    (st st' : store) (p : MultipartParam.t) :
  MultipartParam_init fstat_size name value (Some filename) filetype
    filesize fileobj cb st = (Ok p, st') →
  MultipartParam.filename p = Some (escape_filename filename)
  ∧ quoted_ok (escape_filename filename) = true
  ∧ forallb printable (escape_filename filename) = true.
Proof.
  intros Hinit.
  assert (Hok : quoted_ok (escape_filename filename) = true).
  { unfold escape_filename. apply escape_ascii, xmlcharrefreplace_ascii. }
  split; [|split; [done|by apply quoted_ok_printable]].
  unfold MultipartParam_init in Hinit.
  destruct (header_text name) as [name'|e]; [|done].
  cbn [fmap option_fmap option_map] in Hinit.
  destruct value as [v|], fileobj as [f|], filesize as [k|];
    try destruct (fstat_size f) as [size|];
    try done; by injection Hinit as <- _.
Qed.

Lemma filename_is_quoted_safely_witness :
  quoted_ok (escape_filename [97; 34; 13; 10; 233; 92]%Z) = true.
Proof.
  refine (proj1 (proj2 (filename_is_quoted_safely (fun _ => None) (lit "f")
                          None [97; 34; 13; 10; 233; 92]%Z None None (Some 0)
                          false Ex.disk _ _ _))).
  reflexivity.
Defined.

(** ** Fields the constructor builds *)

(** X13. A field built by the constructor without a size, from a text
    or from a file object, is a valid field of the store the constructor
    leaves: a text gives an Inline field; a file object whose size is
    probed by seeking gives a Stream field of the size of the whole
    object, rewound to its start wherever it stood; one whose size
    [fstat] reports gives a Stream field when that size is right and the
    object stands at its start. *)
Theorem constructed_field_is_valid (fstat_size : nat → option nat)
    (name : str) (value filename filetype : option str)
    (fileobj : option nat) (cb : bool) (st st' : store)
    (p : MultipartParam.t) :
  MultipartParam_init fstat_size name value filename filetype None
    fileobj cb st = (Ok p, st') →
  is_Some value ∨ is_Some fileobj →
  (∀ f, fileobj = Some f →
        ∃ fo, st !! f = Some fo
              ∧ (fstat_size f = None
                 ∨ (fstat_size f = Some (length (content fo))
                    ∧ position fo = 0))) →
  valid_field st' p
  ∧ MultipartParam.name p = name
  ∧ MultipartParam.filetype p = filetype.
Proof.
  unfold MultipartParam_init, header_text. intros Hinit Hsome Hobj.
  destruct (encode_utf8 name) as [b|e]; [|done].
  cbn [mbind result_bind] in Hinit.
  destruct value as [text|], fileobj as [f|]; try done.
  - injection Hinit as <- <-. split; [|done].
    left. by exists text.
  - destruct (Hobj f eq_refl) as (fo & Hfo & Hstat).
    destruct Hstat as [Hstat|[Hstat Hpos]]; rewrite Hstat in Hinit;
      injection Hinit as <- <-; (split; [|done]); right.
    + exists f, (seek0 fo). rewrite Hfo. cbn [from_option].
      split; [done|]. split; [|done].
      unfold file_seek0. by rewrite lookup_alter_eq, Hfo.
    + exists f, fo. done.
  - destruct Hsome as [[? [=]]|[? [=]]].
Qed.

Lemma constructed_field_is_valid_witness :
  ∃ p st',
    MultipartParam_init (fun _ => None) (lit "f") None None None None
      (Some 0) false {[ 0 := FileLike (lit "abc") 2 ]} = (Ok p, st')
    ∧ valid_field st' p.
Proof.
  eexists _, _. split; [reflexivity|].
  refine (proj1 (constructed_field_is_valid (fun _ => None) (lit "f") None
                   None None (Some 0) false
                   {[ 0 := FileLike (lit "abc") 2 ]} _ _ eq_refl _ _)).
  - right. by eexists.
  - intros f [= <-]. exists (FileLike (lit "abc") 2). split; [done|by left].
Defined.

(** ** [encode_string] and [encode_file_header] *)

(** X14. What [encode_string] returns for a name and a text is the
    header [encode_file_header] renders for that name, with no file name
    and no content type given, then the text in UTF-8 and CRLF; neither
    touches a file object. *)
Theorem encode_string_is_header_and_text (fstat_size : nat → option nat)
    (boundary name value : str) (filesize : nat) (st st' : store)
    (out : bytes) :
  encode_string fstat_size boundary name value st = (Ok out, st') →
  ∃ hdr v,
    encode_file_header fstat_size boundary name filesize None None st
    = (Ok hdr, st)
    ∧ encode_utf8 value = Ok v
    ∧ out = hdr ++ v ++ CRLF
    ∧ st' = st.
Proof.
  unfold encode_string, encode_file_header, MultipartParam_init, header_text.
  destruct (encode_utf8 name) as [b|e]; [|done].
  cbn [mbind result_bind fmap option_fmap option_map].
  unfold MultipartParam.encode. cbn [MultipartParam.value].
  intros [= H <-].
  apply bind_Ok in H as (v & Hv & H).
  apply bind_Ok in H as (bb & Hbb & H).
  match type of H with
  | context [if ?c then _ else _] => destruct c
  end; [done|].
  apply bind_Ok in H as (hdr & Hh & [= <-]).
  exists hdr, v. split; [|done]. f_equal. rewrite <- Hh.
  by rewrite !encode_hdr_eq.
Qed.

Lemma encode_string_is_header_and_text_witness :
  ∃ hdr,
    encode_file_header (fun _ => None) (lit "XYZ") (lit "key") 6 None None ∅
    = (Ok hdr, ∅)
    ∧ encode_string (fun _ => None) (lit "XYZ") (lit "key") (lit "value1") ∅
      = (Ok (hdr ++ lit "value1" ++ CRLF), ∅).
Proof.
  destruct (encode_string_is_header_and_text (fun _ => None) (lit "XYZ")
              (lit "key") (lit "value1") 6 ∅ ∅ _ eq_refl)
    as (hdr & v & Hh & Hv & Hout & _).
  exists hdr. split; [exact Hh|].
  assert (Ok v = Ok (lit "value1")) as [= ->] by (by rewrite <- Hv).
  exact (f_equal (fun o => (Ok o, ∅)) Hout).
Defined.
